(** * A shallow embedding of the GraphQL client engine (src/GraphQLClient.ts)

    The development follows the class [GraphQLClient].  The definitions come
    first:
    - [JS]: the JavaScript values the engine inspects (parsed JSON, truthiness,
      property access, [JSON.stringify], [parseInt], the string methods used
      on headers);
    - [Http]: [executeQueryRaw], the promise chain around [fetch], and the
      pending-request counter;
    - [Cache]: the cache store and the live response cell
      ([allocateCacheSize], [setCacheEntrySize], [getOrCreateCacheEntry],
      [refresh], [forceRefresh], [executeQuery], [clearCache]);
    - [Subscription]: the websocket session of [executeSubscription];
    - [Tag]: the template tag [gqlcompat] (src/GraphQLTag.tsx);
    - [Configuration] and [Request]: the constructor and the request that
      [executeQueryRaw] builds (body, url, [encodeURIComponent]);
    - [Store]: [clearAndRefresh], [refreshAll], [resetStore] and the calls
      a user of the cache can make, in sequence;
    - [Session]: the events of a session's life, in sequence.
    The properties follow in [HttpFacts], [SubscriptionFacts] and
    [CacheFacts], and in [TagFacts], [RequestFacts], [StoreFacts] and
    [SessionFacts].

    Promise chains are run to their end by functions of what the surroundings
    do (hooks, [fetch], frames); mutable objects live in an explicit heap and
    are named by references; numbers are integers, with [NaN] where
    [parseInt] can produce it; [Date.now()] is a parameter [nowDate] of each
    synchronous run; strings are sequences of code units below 256; the
    callbacks of the caller and the hooks of a timeout handler return
    without calling back into the session. *)

From Stdlib Require Import ZArith Ascii String DecimalString.
From stdpp Require Import base strings numbers option list.

Set Warnings "-register-all".
Local Open Scope string_scope.
Local Open Scope Z_scope.
Local Open Scope list_scope.

(** ** JavaScript values *)
Module JS.

(** A JavaScript number as far as the engine computes with it: an integer,
    or [NaN] (what [parseInt] returns on text without a leading number). *)
Inductive jsnum := Num (z : Z) | NaN.

(** A JavaScript value built by [JSON.parse], plus [undefined], which the
    engine assigns to properties.  Strings are sequences of code units below
    256, one [ascii] each, so [String.length] is the [.length] of the source. *)
Inductive json :=
| JUndef
| JNull
| JBool (b : bool)
| JNum (z : Z)
| JStr (s : string)
| JArr (items : list json)
| JObj (fields : list (string * json)).

(** [!!v] of the source: the value is truthy. *)
Definition truthy (j : json) : bool :=
  match j with
  | JUndef | JNull => false
  | JBool b => b
  | JNum z => negb (z =? 0)%Z
  | JStr s => negb (String.eqb s "")
  | JArr _ | JObj _ => true
  end.

Fixpoint assoc_get (k : string) (fs : list (string * json)) : json :=
  match fs with
  | [] => JUndef
  | (k', v) :: rest => if String.eqb k k' then v else assoc_get k rest
  end.

(** [o.k] for a value [o] that is neither [null] nor [undefined] (on those the
    access throws, which the callers below handle before they call this). *)
Definition get_prop (o : json) (k : string) : json :=
  match o with
  | JObj fs => assoc_get k fs
  | JArr l => if String.eqb k "length" then JNum (Z.of_nat (length l)) else JUndef
  | JStr s => if String.eqb k "length" then JNum (Z.of_nat (String.length s)) else JUndef
  | _ => JUndef
  end.

(** [o.k = v] on an object: an existing property keeps its place. *)
Fixpoint assoc_set (k : string) (v : json) (fs : list (string * json))
  : list (string * json) :=
  match fs with
  | [] => [(k, v)]
  | (k', v') :: rest =>
      if String.eqb k k' then (k', v) :: rest else (k', v') :: assoc_set k v rest
  end.

(** *** [JSON.stringify] *)

Definition hex_digit (n : nat) : ascii :=
  nth n (list_ascii_of_string "0123456789abcdef") "0"%char.

Definition dquote : string := String (ascii_of_nat 34) "".

(** One code unit inside a quoted JSON string. *)
Definition quote_char (c : ascii) : string :=
  let n := nat_of_ascii c in
  if Nat.eqb n 34 then String (ascii_of_nat 92) dquote
  else if Nat.eqb n 92 then "\\"
  else if Nat.eqb n 8 then "\b"
  else if Nat.eqb n 9 then "\t"
  else if Nat.eqb n 10 then "\n"
  else if Nat.eqb n 12 then "\f"
  else if Nat.eqb n 13 then "\r"
  else if Nat.ltb n 32 then
    "\u00" +:+ String (hex_digit (n / 16)) (String (hex_digit (n mod 16)) "")
  else String c "".

Fixpoint quote_body (s : string) : string :=
  match s with
  | EmptyString => ""
  | String c rest => quote_char c +:+ quote_body rest
  end.

Definition quote (s : string) : string := dquote +:+ quote_body s +:+ dquote.

Definition render_Z (z : Z) : string := NilZero.string_of_int (Z.to_int z).

(** Joins the rendered elements with commas. *)
Fixpoint commas (parts : list string) : string :=
  match parts with
  | [] => ""
  | [p] => p
  | p :: rest => p +:+ "," +:+ commas rest
  end.

(** [JSON.stringify(v)] for a value that is not [undefined] at top level:
    object properties whose value is [undefined] are left out, array elements
    that are [undefined] print as [null]. *)
Fixpoint stringify (j : json) : string :=
  match j with
  | JUndef | JNull => "null"
  | JBool true => "true"
  | JBool false => "false"
  | JNum z => render_Z z
  | JStr s => quote s
  | JArr l => "[" +:+ commas (map stringify l) +:+ "]"
  | JObj fs =>
      "{" +:+ commas
               ((fix props (fs : list (string * json)) : list string :=
                   match fs with
                   | [] => []
                   | (k, JUndef) :: rest => props rest
                   | (k, v) :: rest => (quote k +:+ ":" +:+ stringify v) :: props rest
                   end) fs)
          +:+ "}"
  end.

(** *** [parseInt(s, 10)] *)

Definition is_space (c : ascii) : bool :=
  let n := nat_of_ascii c in
  (Nat.leb 9 n && Nat.leb n 13) || Nat.eqb n 32 || Nat.eqb n 160.

Definition digit_of (c : ascii) : option Z :=
  let n := nat_of_ascii c in
  if Nat.leb 48 n && Nat.leb n 57 then Some (Z.of_nat (n - 48)) else None.

Fixpoint skip_spaces (s : string) : string :=
  match s with
  | String c rest => if is_space c then skip_spaces rest else s
  | EmptyString => s
  end.

(** Reads the longest prefix of decimal digits; [None] when there is none. *)
Fixpoint digits_prefix (acc : option Z) (s : string) : option Z :=
  match s with
  | String c rest =>
      match digit_of c with
      | Some d => digits_prefix (Some (10 * default 0 acc + d)) rest
      | None => acc
      end
  | EmptyString => acc
  end.

Definition parseInt10 (s : string) : jsnum :=
  match skip_spaces s with
  | String "-" rest =>
      match digits_prefix None rest with Some n => Num (- n) | None => NaN end
  | String "+" rest =>
      match digits_prefix None rest with Some n => Num n | None => NaN end
  | t => match digits_prefix None t with Some n => Num n | None => NaN end
  end.

(** *** The string methods used on the Content-Type header *)

(** [s.split(";")[0]] *)
Fixpoint before_semicolon (s : string) : string :=
  match s with
  | EmptyString => ""
  | String c rest =>
      if Ascii.eqb c ";" then "" else String c (before_semicolon rest)
  end.

Fixpoint rev_string (acc s : string) : string :=
  match s with
  | EmptyString => acc
  | String c rest => rev_string (String c acc) rest
  end.

(** [s.trim()] *)
Definition trim (s : string) : string :=
  rev_string "" (skip_spaces (rev_string "" (skip_spaces s))).

Definition lower_char (c : ascii) : ascii :=
  let n := nat_of_ascii c in
  if (Nat.leb 65 n && Nat.leb n 90)
     || (Nat.leb 192 n && Nat.leb n 222 && negb (Nat.eqb n 215))
  then ascii_of_nat (n + 32) else c.

(** [s.toLowerCase()] *)
Fixpoint toLowerCase (s : string) : string :=
  match s with
  | EmptyString => ""
  | String c rest => String (lower_char c) (toLowerCase rest)
  end.

End JS.

(** ** The query executor: [executeQueryRaw] *)
Module Http.
Import JS.

(** A value thrown by a stage or carried by a rejected promise: a string, an
    object ([Error], [DOMException], ...) with its [message] property (the
    empty string when the property is absent or empty), or [null] /
    [undefined]. *)
Inductive thrown :=
| ThrowStr (s : string)
| ThrowErr (message : string)
| ThrowNullish.

(** A settled promise. *)
Inductive settled (A : Type) :=
| Fulfilled (a : A)
| Rejected (e : thrown).
Arguments Fulfilled {A} a.
Arguments Rejected {A} e.

(** The [extensions] property of a result: what the server sent, or the
    literal [{ underlyingError: error }] of the engine. *)
Inductive extension :=
| ExtJson (j : json)
| ExtUnderlying (e : thrown).

(** Modelled from the spec: [IQueryResult], whose declaration is not among
    the sources; the engine reads and writes these five properties, and the
    spec's data model lists the same. *)
Record Result := mkResult {
  data : json;
  errors : json;
  networkError : bool;
  size : jsnum;
  extensions : extension
}.

(** The [Response] of [fetch], as far as the engine reads it: [contentType]
    and [contentLength] are [headers.get(..)] ([None] for [null]); [body] is
    how the promise of [data.json()] settles. *)
Record Response := mkResponse {
  status : Z;
  statusText : string;
  contentType : option string;
  contentLength : option string;
  body : settled json
}.

(** What the surroundings do during one request.  For the two hooks the outer
    [None] says the hook is not configured, [Some None] that it returns, and
    [Some (Some e)] that it throws (or, for [transformRequest], rejects with)
    [e]. *)
Record Env := mkEnv {
  transformRequest : option (option thrown);
  newRequest : option thrown;          (* [new Request(url, config3)] throws *)
  fetch : settled Response;
  logHttpError : option (option thrown);
  typeErrorMessage : string            (* text of a TypeError raised by the engine *)
}.

(** The object literals of the three failure paths. *)
Definition networkErrorResult (message : string) (ext : extension) : Result :=
  {| data := JUndef;
     errors := JArr [JObj [("message", JStr message)]];
     networkError := true;
     size := Num 1000;
     extensions := ext |}.

Definition in2xx (s : Z) : bool := (200 <=? s) && (s <? 300).
Definition in4xx (s : Z) : bool := (400 <=? s) && (s <? 500).

(** [data.headers.get("Content-Type")?.split(";")[0].trim().toLowerCase()] *)
Definition mediaType (r : Response) : option string :=
  match contentType r with
  | Some h => Some (toLowerCase (trim (before_semicolon h)))
  | None => None
  end.

Definition isType (ct : option string) (name : string) : bool :=
  match ct with
  | Some s => String.eqb s name
  | None => false
  end.

(** The [valid] flag of lines 147-158. *)
Definition valid (validateResponseContentType : bool) (r : Response) : bool :=
  if validateResponseContentType then
    let ct := mediaType r in
    (in2xx (status r)
       && (isType ct "application/graphql-response+json" || isType ct "application/json"))
    || (in4xx (status r) && isType ct "application/graphql-response+json")
  else in2xx (status r) || in4xx (status r).

(** [errors && errors.length] *)
Definition hasErrors (errs : json) : bool :=
  truthy errs && truthy (get_prop errs "length").

Definition strlen (s : string) : jsnum := Num (Z.of_nat (String.length s)).

(** The size written on the result: [Content-Length] when the header is a
    non-empty string, else the length of [JSON.stringify(jsonData)], where
    [jsonData] is the object as it stands at that point. *)
Definition resultSize (r : Response) (jsonData : json) : jsnum :=
  match contentLength r with
  | Some h => if String.eqb h "" then strlen (stringify jsonData) else parseInt10 h
  | None => strlen (stringify jsonData)
  end.

(** The handler of [data.json()] (lines 171-185).  [queryRet] is the parsed
    value itself: the assignments change [jsonData].  Reading a property of
    [null] throws, and so does (the module is strict code) writing one on a
    primitive; an array takes the properties but does not print them. *)
Definition onJson (typeError : string) (r : Response) (jsonData : json)
  : settled Result :=
  match jsonData with
  | JObj fs =>
      let fs1 :=
        if hasErrors (assoc_get "errors" fs) then assoc_set "data" JUndef fs else fs in
      let fs2 := assoc_set "networkError" (JBool false) fs1 in
      Fulfilled {| data := assoc_get "data" fs2;
                   errors := assoc_get "errors" fs2;
                   networkError := false;
                   size := resultSize r (JObj fs2);
                   extensions := ExtJson (assoc_get "extensions" fs2) |}
  | JArr l =>
      Fulfilled {| data := JUndef;
                   errors := JUndef;
                   networkError := false;
                   size := resultSize r (JArr l);
                   extensions := ExtJson JUndef |}
  | _ => Rejected (ThrowErr typeError)
  end.

(** What one run of the chain leaves behind. *)
Record Run := mkRun {
  outcome : settled Result;     (* how the returned promise settles *)
  pendingAfter : Z;             (* [this.pendingRequests] afterwards *)
  bodyRead : bool               (* [data.json()] was called *)
}.

(** Lines 140-143: what the call of the logger throws, if it is called and
    throws. *)
Definition logged (env : Env) (r : Response) : option thrown :=
  match logHttpError env with
  | Some o => if (status r <? 200) || (300 <=? status r) then o else None
  | None => None
  end.

(** The fulfilment handler of [fetch] (lines 135-186), after its decrement. *)
Definition onResponse (validate : bool) (env : Env) (r : Response)
  : settled Result * bool :=
  match logged env r with
  | Some e => (Rejected e, false)
  | None =>
      if valid validate r then
        match body r with
        | Fulfilled jsonData => (onJson (typeErrorMessage env) r jsonData, true)
        | Rejected e => (Rejected e, true)
        end
      else (Fulfilled (networkErrorResult (statusText r) (ExtJson JUndef)), false)
  end.

(** The [.catch] of lines 194-209. *)
Definition onCatch (env : Env) (error : thrown) : settled Result :=
  match error with
  | ThrowStr s => Fulfilled (networkErrorResult s (ExtUnderlying error))
  | ThrowErr m =>
      Fulfilled (networkErrorResult
                   (if String.eqb m "" then "Unknown error from Fetch API" else m)
                   (ExtUnderlying error))
  | ThrowNullish => Rejected (ThrowErr (typeErrorMessage env))
  end.

(** The rejection handler of lines 212-227. *)
Definition onConfigRejected (error : thrown) : Result :=
  networkErrorResult
    (match error with
     | ThrowStr s => s
     | _ => "Error initializing request configuration"
     end)
    (ExtUnderlying error).

(** The first two [then]s: the transform hook, then [new Request]. *)
Definition prepare (env : Env) : settled unit :=
  match transformRequest env with
  | Some (Some e) => Rejected e
  | _ => match newRequest env with
         | Some e => Rejected e
         | None => Fulfilled tt
         end
  end.

(** The synchronous part of [executeQueryRaw]: line 115. *)
Definition dispatch (pendingRequests : Z) : Z := pendingRequests + 1.

(** The asynchronous part: the chain of lines 118-228, run to its end. *)
Definition settle (validate : bool) (env : Env) (pendingRequests : Z) : Run :=
  match prepare env with
  | Rejected e =>
      {| outcome := Fulfilled (onConfigRejected e);
         pendingAfter := pendingRequests - 1;
         bodyRead := false |}
  | Fulfilled _ =>
      match fetch env with
      | Fulfilled r =>
          let '(res, read) := onResponse validate env r in
          {| outcome := match res with
                        | Fulfilled q => Fulfilled q
                        | Rejected e => onCatch env e
                        end;
             pendingAfter := pendingRequests - 1;
             bodyRead := read |}
      | Rejected e =>
          {| outcome := onCatch env e;
             pendingAfter := pendingRequests - 1;
             bodyRead := false |}
      end
  end.

(** *** The pending-request counter over the life of the client *)

(** The counter, the requests dispatched and not yet settled, and the number
    of requests issued so far (which names the next one). *)
Record World := mkWorld {
  pendingRequests : Z;
  outstanding : list nat;
  issued : nat
}.

Inductive event :=
| Dispatch
| Settle (p : nat) (env : Env).

Definition remove_req (p : nat) (l : list nat) : list nat :=
  filter (fun q => q ≠ p) l.

(** A request settles once: settling one that is not outstanding is no step. *)
Definition step (validate : bool) (w : World) (ev : event) : option World :=
  match ev with
  | Dispatch =>
      Some {| pendingRequests := dispatch (pendingRequests w);
              outstanding := issued w :: outstanding w;
              issued := S (issued w) |}
  | Settle p env =>
      if bool_decide (p ∈ outstanding w) then
        Some {| pendingRequests := pendingAfter (settle validate env (pendingRequests w));
                outstanding := remove_req p (outstanding w);
                issued := issued w |}
      else None
  end.

Fixpoint run (validate : bool) (w : World) (evs : list event) : option World :=
  match evs with
  | [] => Some w
  | ev :: rest =>
      match step validate w ev with
      | Some w' => run validate w' rest
      | None => None
      end
  end.

(** The counter as the constructor leaves it (line 60). *)
Definition newWorld : World :=
  {| pendingRequests := 0; outstanding := []; issued := 0 |}.

(** [getPendingRequests] *)
Definition getPendingRequests (w : World) : Z := pendingRequests w.

(** The counter is the number of outstanding requests; these are distinct
    and were all issued. *)
Definition balanced (w : World) : Prop :=
  pendingRequests w = Z.of_nat (length (outstanding w))
  ∧ NoDup (outstanding w)
  ∧ Forall (λ p, (p < issued w)%nat) (outstanding w).

(** A run with a failing transform hook, a transport fault and a 500. *)
Definition sampleEvents : list event :=
  [ Dispatch; Dispatch; Dispatch;
    Settle 1 (mkEnv (Some (Some ThrowNullish)) None (Rejected (ThrowErr "unused")) None "");
    Settle 0 (mkEnv None None (Rejected (ThrowErr "Failed to fetch")) None "");
    Settle 2 (mkEnv None None
                (Fulfilled (mkResponse 500 "Internal Server Error" None None
                              (Rejected (ThrowErr "unused"))))
                None "") ].

(** What the stages from [fetch] on throw, if they throw. *)
Definition fetchStageThrows (env : Env) (e : thrown) : Prop :=
  fetch env = Rejected e
  ∨ ∃ r, fetch env = Fulfilled r ∧ (logged env r = Some e ∨ body r = Rejected e).

(** A 500 under strict validation, nothing else configured. *)
Definition serverError : Env :=
  mkEnv None None
    (Fulfilled (mkResponse 500 "Internal Server Error" (Some "text/html") None
                  (Fulfilled JNull)))
    None "".

(** A request whose transform hook throws [null]. *)
Definition nullThrowingTransform : Env :=
  mkEnv (Some (Some ThrowNullish)) None (Rejected (ThrowErr "unused")) None "".

(** A 500 whose logger throws [null]. *)
Definition nullThrowingLogger : Env :=
  mkEnv None None
    (Fulfilled (mkResponse 500 "Internal Server Error" (Some "text/html") None
                  (Fulfilled JNull)))
    (Some (Some ThrowNullish))
    "Cannot read properties of null (reading 'message')".

Definition sampleBody : json := JObj [("data", JObj [("x", JNum 1)])].

Definition sampleResponse (length : option string) : Response :=
  mkResponse 200 "OK" (Some "application/json") length (Fulfilled sampleBody).

End Http.

(** ** The cache store and the live response cell *)
Module Cache.
Import JS.

Inductive FetchPolicy := NoCache | CacheFirst | CacheAndNetwork.

Definition isNoCache (m : FetchPolicy) : bool :=
  match m with NoCache => true | _ => false end.

Definition isCacheAndNetwork (m : FetchPolicy) : bool :=
  match m with CacheAndNetwork => true | _ => false end.

(** The state of the response object that [newEntryFactory] builds
    ([IQueryResponse]): its three data properties, and the two variables of
    [executeQuery] that its closures capture.  A promise is named by the number
    of the [executeQueryRaw] call that returned it. *)
Record Cell := mkCell {
  result : option Http.Result;      (* [null] is [None] *)
  resultPromise : option nat;
  loading : bool;
  cacheMode : FetchPolicy;
  cacheTimeoutValue : Z
}.

(** [ICacheEntry].  Subscribers are callbacks, named by numbers; the cancel
    handle of a request is named by the request's number. *)
Record CacheEntry := mkEntry {
  queryAndVariablesString : string;
  response : option Cell;           (* [null as any] until the factory ran *)
  size : Z;
  expires : Z;
  lastUsed : Z;
  subscribers : list nat;
  cancelRequest : option nat
}.

#[export] Instance CacheEntry_inhabited : Inhabited CacheEntry :=
  populate (mkEntry "" None 0 0 0 [] None).

(** The fields of the client that the cache uses.  [cache] is the [Map], in
    insertion order; its values are references into [heap], the entry objects
    (a reference is the index of the object).  [requests] counts the calls of
    [executeQueryRaw]; [cancelled] and [delivered] record the calls of cancel
    handles and of subscriber callbacks, oldest first. *)
Record Client := mkClient {
  cache : list (string * nat);
  heap : list CacheEntry;
  cacheSize : Z;
  maxCacheSize : Z;
  defaultCachePolicy : FetchPolicy;
  defaultCacheTime : Z;
  pendingRequests : Z;
  requests : nat;
  cancelled : list nat;
  delivered : list (nat * option Http.Result)
}.

Definition withCache (c : list (string * nat)) (st : Client) : Client :=
  mkClient c (heap st) (cacheSize st) (maxCacheSize st) (defaultCachePolicy st)
    (defaultCacheTime st) (pendingRequests st) (requests st) (cancelled st)
    (delivered st).

Definition withHeap (h : list CacheEntry) (st : Client) : Client :=
  mkClient (cache st) h (cacheSize st) (maxCacheSize st) (defaultCachePolicy st)
    (defaultCacheTime st) (pendingRequests st) (requests st) (cancelled st)
    (delivered st).

Definition withCacheSize (z : Z) (st : Client) : Client :=
  mkClient (cache st) (heap st) z (maxCacheSize st) (defaultCachePolicy st)
    (defaultCacheTime st) (pendingRequests st) (requests st) (cancelled st)
    (delivered st).

Definition withCancelled (l : list nat) (st : Client) : Client :=
  mkClient (cache st) (heap st) (cacheSize st) (maxCacheSize st)
    (defaultCachePolicy st) (defaultCacheTime st) (pendingRequests st)
    (requests st) l (delivered st).

Definition withDelivered (l : list (nat * option Http.Result)) (st : Client)
  : Client :=
  mkClient (cache st) (heap st) (cacheSize st) (maxCacheSize st)
    (defaultCachePolicy st) (defaultCacheTime st) (pendingRequests st)
    (requests st) (cancelled st) l.

(** The object behind a reference. *)
Definition entry (st : Client) (e : nat) : CacheEntry := heap st !!! e.

(** An assignment to properties of the object behind [e]. *)
Definition update (e : nat) (f : CacheEntry → CacheEntry) (st : Client) : Client :=
  withHeap (alter f e (heap st)) st.

Definition setSize (z : Z) (v : CacheEntry) : CacheEntry :=
  mkEntry (queryAndVariablesString v) (response v) z (expires v) (lastUsed v)
    (subscribers v) (cancelRequest v).

Definition setExpires (z : Z) (v : CacheEntry) : CacheEntry :=
  mkEntry (queryAndVariablesString v) (response v) (size v) z (lastUsed v)
    (subscribers v) (cancelRequest v).

Definition setLastUsed (z : Z) (v : CacheEntry) : CacheEntry :=
  mkEntry (queryAndVariablesString v) (response v) (size v) (expires v) z
    (subscribers v) (cancelRequest v).

Definition setKey (k : string) (v : CacheEntry) : CacheEntry :=
  mkEntry k (response v) (size v) (expires v) (lastUsed v) (subscribers v)
    (cancelRequest v).

Definition setSubscribers (l : list nat) (v : CacheEntry) : CacheEntry :=
  mkEntry (queryAndVariablesString v) (response v) (size v) (expires v)
    (lastUsed v) l (cancelRequest v).

Definition setCancelRequest (c : option nat) (v : CacheEntry) : CacheEntry :=
  mkEntry (queryAndVariablesString v) (response v) (size v) (expires v)
    (lastUsed v) (subscribers v) c.

Definition setResponse (c : Cell) (v : CacheEntry) : CacheEntry :=
  mkEntry (queryAndVariablesString v) (Some c) (size v) (expires v)
    (lastUsed v) (subscribers v) (cancelRequest v).

(** *** The [Map] *)

(** [cache.get(k)] *)
Fixpoint mapGet (k : string) (m : list (string * nat)) : option nat :=
  match m with
  | [] => None
  | (k', v) :: rest => if String.eqb k k' then Some v else mapGet k rest
  end.

(** What [cache.delete(k)] leaves. *)
Definition mapRemove (k : string) (m : list (string * nat)) : list (string * nat) :=
  filter (λ p, p.1 ≠ k) m.

(** [cache.set(k, v)]: a key that is present keeps its place. *)
Fixpoint mapSet (k : string) (v : nat) (m : list (string * nat))
  : list (string * nat) :=
  match m with
  | [] => [(k, v)]
  | (k', v') :: rest =>
      if String.eqb k k' then (k', v) :: rest else (k', v') :: mapSet k v rest
  end.

(** [if (this.cache.delete(v.queryAndVariablesString)) this.cacheSize -= v.size]
    for the object behind [e]. *)
Definition evict (e : nat) (st : Client) : Client :=
  let v := entry st e in
  match mapGet (queryAndVariablesString v) (cache st) with
  | Some _ =>
      withCacheSize (cacheSize st - size v)
        (withCache (mapRemove (queryAndVariablesString v) (cache st)) st)
  | None => st
  end.

(** *** [allocateCacheSize] *)

(** [this.cacheSize + newSize - this.maxCacheSize] *)
Definition needBytes (newSize : Z) (st : Client) : Z :=
  cacheSize st + newSize - maxCacheSize st.

(** The test of line 668. *)
Definition idleExpired (nowDate : Z) (v : CacheEntry) : bool :=
  (length (subscribers v) =? 0)%nat && (expires v <? nowDate).

(** The references collected by the first [forEach]. *)
Definition entriesToRemove (nowDate : Z) (st : Client) : list nat :=
  filter (λ e, idleExpired nowDate (entry st e) = true) (cache st).*2.

(** The test of line 684. *)
Definition evictable (exclude : option nat) (st : Client) (e : nat) : bool :=
  (length (subscribers (entry st e)) =? 0)%nat
  && negb (bool_decide (exclude = Some e)).

(** The callback of the [forEach] of lines 682-687, [oldest] being
    [oldestEntry] so far. *)
Definition oldestStep (exclude : option nat) (st : Client)
  (oldest : option nat) (e : nat) : option nat :=
  if evictable exclude st e then
    match oldest with
    | None => Some e
    | Some o => if lastUsed (entry st e) <? lastUsed (entry st o) then Some e else oldest
    end
  else oldest.

(** What that [forEach] leaves in [oldestEntry]: the first evictable entry
    whose [lastUsed] is below that of every evictable entry before it. *)
Definition oldestEntry (exclude : option nat) (st : Client) : option nat :=
  foldl (oldestStep exclude st) None (cache st).*2.

(** The [do ... while (true)] of lines 678-696.  [None]: the loop did not end
    within [fuel] rounds. *)
Fixpoint evictLoop (fuel : nat) (newSize : Z) (exclude : option nat) (st : Client)
  : option Client :=
  match fuel with
  | O => None
  | S fuel' =>
      if needBytes newSize st <=? 0 then Some st
      else match oldestEntry exclude st with
           | Some e => evictLoop fuel' newSize exclude (evict e st)
           | None => Some st
           end
  end.

(** [allocateCacheSize(newSize, exclude)] at time [nowDate].  A round of the
    loop that continues takes an entry out of the map, so one round more than
    the map has entries is enough for it to end. *)
Definition allocateCacheSize (nowDate newSize : Z) (exclude : option nat)
  (st : Client) : option Client :=
  if needBytes newSize st <=? 0 then Some st
  else
    let st1 := foldl (λ s e, evict e s) st (entriesToRemove nowDate st) in
    evictLoop (S (length (cache st1))) newSize exclude st1.

(** *** [setCacheEntrySize] *)

(** [cacheEntry] is the reference [e]; [entry === cacheEntry] compares
    references. *)
Definition setCacheEntrySize (nowDate : Z) (e : nat) (newSize : Z) (st : Client)
  : option Client :=
  st' ← match mapGet (queryAndVariablesString (entry st e)) (cache st) with
        | Some e' =>
            if bool_decide (e' = e) then
              let st1 := withCacheSize (cacheSize st - size (entry st e)) st in
              st2 ← allocateCacheSize nowDate newSize (Some e) st1;
              Some (withCacheSize (cacheSize st2 + size (entry st2 e)) st2)
            else Some st
        | None => Some st
        end;
  Some (update e (setSize newSize) st').

(** *** The response cell *)

(** The synchronous part of [executeQueryRaw] as the cache sees it: one more
    pending request, and a new promise with its cancel handle. *)
Definition executeQueryRaw (st : Client) : nat * Client :=
  (requests st,
   mkClient (cache st) (heap st) (cacheSize st) (maxCacheSize st)
     (defaultCachePolicy st) (defaultCacheTime st)
     (Http.dispatch (pendingRequests st)) (S (requests st)) (cancelled st)
     (delivered st)).

Definition setCell (f : Cell → Cell) (v : CacheEntry) : CacheEntry :=
  match response v with
  | Some c => setResponse (f c) v
  | None => v
  end.

Definition setLoading (b : bool) (c : Cell) : Cell :=
  mkCell (result c) (resultPromise c) b (cacheMode c) (cacheTimeoutValue c).

Definition setResultPromise (p : option nat) (c : Cell) : Cell :=
  mkCell (result c) p (loading c) (cacheMode c) (cacheTimeoutValue c).

Definition setResult (r : option Http.Result) (c : Cell) : Cell :=
  mkCell r (resultPromise c) (loading c) (cacheMode c) (cacheTimeoutValue c).

(** [newEntry.response.refresh()], up to its [return]: the promise returned
    and the state left.  [None] when [response] is still [null] (the call
    throws). *)
Definition refresh (e : nat) (st : Client) : option (option nat * Client) :=
  c ← response (entry st e);
  if loading c then Some (resultPromise c, st)
  else
    let st1 := update e (setCell (setLoading true)) st in
    let '(p, st2) := executeQueryRaw st1 in
    let st3 := update e (setCell (setResultPromise (Some p))) st2 in
    let st4 := update e (setCancelRequest (Some p)) st3 in
    Some (Some p, st4).

(** [newEntry.subscribers.forEach((subscriber) => subscriber(data))] *)
Definition notifySubscribers (e : nat) (data : option Http.Result) (st : Client)
  : Client :=
  withDelivered (delivered st ++ map (λ s, (s, data)) (subscribers (entry st e))) st.

(** The callback that [refresh] puts on [exec.result] (lines 271-292), for
    the attempt whose promise is [p], run with the result [data] at time
    [nowDate].  The sizes of the cache are integers: a result whose size is
    [NaN] is outside the model ([None]). *)
Definition onRefreshed (nowDate : Z) (e p : nat) (data : Http.Result) (st : Client)
  : option Client :=
  c ← response (entry st e);
  if bool_decide (resultPromise c = Some p) then
    let st1 := update e (setCell (setResult (Some data))) st in
    let st2 := update e (setCell (setLoading false)) st1 in
    let st3 := update e (setCancelRequest None) st2 in
    st4 ← (if Http.hasErrors (Http.errors data) then
             Some (update e (setExpires 0) st3)
           else
             match Http.size data with
             | Num z =>
                 st' ← setCacheEntrySize nowDate e (z + 1000) st3;
                 Some (if isNoCache (cacheMode c) then st'
                       else update e (setExpires (nowDate + cacheTimeoutValue c)) st')
             | NaN => None
             end);
    Some (notifySubscribers e (Some data) st4)
  else Some st.

(** [newEntry.response.forceRefresh()] *)
Definition forceRefresh (e : nat) (st : Client) : option Client :=
  c ← response (entry st e);
  let st' :=
    if loading c then
      let st1 := match cancelRequest (entry st e) with
                 | Some h => withCancelled (cancelled st ++ [h]) st
                 | None => st
                 end in
      let st2 := update e (setCancelRequest None) st1 in
      let st3 := update e (setCell (setLoading false)) st2 in
      update e (setCell (setResultPromise None)) st3
    else st in
  snd <$> refresh e st'.

(** [newEntry.response.subscribe(callback)] and the function it returns. *)
Definition subscribe (e callback : nat) (st : Client) : Client :=
  update e (λ v, setSubscribers (subscribers v ++ [callback]) v) st.

Definition unsubscribe (e callback : nat) (st : Client) : Client :=
  update e (λ v, setSubscribers (filter (λ x, x ≠ callback) (subscribers v)) v) st.

(** *** [getOrCreateCacheEntry] and [executeQuery] *)

(** [newEntryFactory] of [executeQuery], for the mode and timeout in force. *)
Definition newEntryFactory (mode : FetchPolicy) (timeout : Z) (e : nat) (st : Client)
  : option Client :=
  let st1 := update e (setResponse (mkCell None None false mode timeout)) st in
  snd <$> refresh e st1.

(** Lines 630-644: the new entry is made, handed to the factory, given room
    and put in the map. *)
Definition createEntry (nowDate : Z) (key : string)
  (factory : nat → Client → option Client) (st0 : Client) : option (nat * Client) :=
  let e := length (heap st0) in
  let st1 := withHeap (heap st0 ++ [mkEntry key None 1000 0 nowDate [] None]) st0 in
  st2 ← factory e st1;
  st3 ← allocateCacheSize nowDate (size (entry st2 e)) None st2;
  let st4 := update e (setKey key) st3 in
  let st5 := update e (setLastUsed nowDate) st4 in
  let st6 := withCacheSize (cacheSize st5 + size (entry st5 e)) st5 in
  Some (e, withCache (mapSet key e (cache st6)) st6).

Definition getOrCreateCacheEntry (nowDate : Z) (key : string)
  (factory : nat → Client → option Client) (noCache : bool) (st : Client)
  : option (nat * Client) :=
  match mapGet key (cache st) with
  | Some v =>
      if (0 <? length (subscribers (entry st v)))%nat || negb noCache then
        Some (v, update v (setLastUsed nowDate) st)
      else
        createEntry nowDate key factory
          (withCacheSize (cacheSize st - size (entry st v))
             (withCache (mapRemove key (cache st)) st))
  | None => createEntry nowDate key factory st
  end.

(** [executeQuery(request, cacheMode, cacheTimeout)] at time [nowDate];
    [request] stands for [JSON.stringify(request)].  Returns the reference of
    the entry whose response object the source returns. *)
Definition executeQuery (nowDate : Z) (request : string)
  (mode : option FetchPolicy) (cacheTimeout : option Z) (st : Client)
  : option (nat * Client) :=
  let cacheMode := default (defaultCachePolicy st) mode in
  let cacheTimeoutValue := default (defaultCacheTime st) cacheTimeout in
  '(e, st1) ← getOrCreateCacheEntry nowDate request
                (newEntryFactory cacheMode cacheTimeoutValue)
                (isNoCache cacheMode) st;
  if (length (subscribers (entry st1 e)) =? 0)%nat
     && (isCacheAndNetwork cacheMode || (expires (entry st1 e) <? nowDate))
  then '(_, st2) ← refresh e st1; Some (e, st2)
  else Some (e, st1).

(** The constructor, for a given [maxCacheSize], policy and cache time. *)
Definition init (maxSize : Z) (policy : FetchPolicy) (cacheTime : Z) : Client :=
  mkClient [] [] 0 maxSize policy cacheTime 0 0 [] [].

(** [clearCache] at time [nowDate] *)
Definition clearCache (nowDate : Z) (st : Client) : option Client :=
  allocateCacheSize nowDate (maxCacheSize st) None
    (foldl (λ s e, update e (setExpires 0) s) st (cache st).*2).

(** The states of the cache a client can be in: what the constructor makes,
    and what the calls of the client and of its response cells, and the
    completions of its requests, make of such a state. *)
Inductive reachable : Client → Prop :=
| reach_init maxSize policy cacheTime : reachable (init maxSize policy cacheTime)
| reach_executeQuery st nowDate request mode cacheTimeout e st' :
    reachable st →
    executeQuery nowDate request mode cacheTimeout st = Some (e, st') →
    reachable st'
| reach_refresh st e p st' :
    reachable st → refresh e st = Some (p, st') → reachable st'
| reach_forceRefresh st e st' :
    reachable st → forceRefresh e st = Some st' → reachable st'
| reach_onRefreshed st nowDate e p data st' :
    reachable st → onRefreshed nowDate e p data st = Some st' → reachable st'
| reach_subscribe st e callback : reachable st → reachable (subscribe e callback st)
| reach_unsubscribe st e callback :
    reachable st → reachable (unsubscribe e callback st)
| reach_clearCache st nowDate st' :
    reachable st → clearCache nowDate st = Some st' → reachable st'.

(** The sizes of the entries behind a list of references. *)
Definition sumSizes (st : Client) (l : list nat) : Z :=
  foldr (λ e acc, size (entry st e) + acc) 0 l.

(** The sum of the [size] fields of the entries in the map. *)
Definition totalSize (st : Client) : Z := sumSizes st (cache st).*2.

(** *** The eviction algorithm in the words of the spec *)

(** An entry with zero subscribers whose [expires] is in the past. *)
Definition idleAndExpired (nowDate : Z) (st : Client) (e : nat) : Prop :=
  subscribers (entry st e) = [] ∧ expires (entry st e) < nowDate.

(** Step (1): every such entry is dropped, and the sizes of the dropped
    entries are deducted from the running total. *)
Definition dropExpired (nowDate : Z) (st : Client) : Client :=
  withCacheSize
    (cacheSize st - sumSizes st (filter (idleAndExpired nowDate st) (cache st).*2))
    (withCache (filter (λ p, ¬ idleAndExpired nowDate st p.2) (cache st)) st).

(** An entry that step (2) may evict: zero subscribers, and not [exclude]. *)
Definition candidate (exclude : option nat) (st : Client) (e : nat) : Prop :=
  subscribers (entry st e) = [] ∧ exclude ≠ Some e.

(** The entry under key [k] is taken out of the map and its size deducted. *)
Definition removeEntry (k : string) (e : nat) (st : Client) : Client :=
  withCacheSize (cacheSize st - size (entry st e))
    (withCache (mapRemove k (cache st)) st).

(** Step (2): while over budget, a candidate with the smallest [lastUsed] is
    evicted; the step stops within budget, or when no candidate remains. *)
Inductive evictsUntilFits (newSize : Z) (exclude : option nat)
  : Client → Client → Prop :=
| evicts_within st :
    needBytes newSize st ≤ 0 → evictsUntilFits newSize exclude st st
| evicts_no_candidate st :
    0 < needBytes newSize st →
    (∀ k e, (k, e) ∈ cache st → ¬ candidate exclude st e) →
    evictsUntilFits newSize exclude st st
| evicts_oldest st k e st' :
    0 < needBytes newSize st →
    (k, e) ∈ cache st → candidate exclude st e →
    (∀ k' e', (k', e') ∈ cache st → candidate exclude st e' →
              lastUsed (entry st e) ≤ lastUsed (entry st e')) →
    evictsUntilFits newSize exclude (removeEntry k e st) st' →
    evictsUntilFits newSize exclude st st'.

(** *** Representation invariant *)

(** The keys of a [Map] are distinct, a reference points to an object, and an
    entry sits in the map under its own [queryAndVariablesString] (lines 631,
    640 and 643 use the same key). *)
Definition wf (st : Client) : Prop :=
  NoDup (cache st).*1
  ∧ ∀ k e, (k, e) ∈ cache st →
           (e < length (heap st))%nat ∧ queryAndVariablesString (entry st e) = k.

(** The invariant as a test. *)
Fixpoint distinct (l : list string) : bool :=
  match l with
  | [] => true
  | k :: rest => forallb (λ k', negb (String.eqb k k')) rest && distinct rest
  end.

Definition wfb (st : Client) : bool :=
  distinct (cache st).*1
  && forallb (λ p, (p.2 <? length (heap st))%nat
                   && String.eqb (queryAndVariablesString (entry st p.2)) p.1)
       (cache st).

(** A store for the scenario of the spec: A is idle and expired, B is idle,
    not expired and used before A, C has a subscriber; the budget is full. *)
Definition sampleCell : Cell := mkCell None None false CacheFirst 86400000.

Definition sampleStore : Client :=
  mkClient [("A", 0%nat); ("B", 1%nat); ("C", 2%nat)]
    [ mkEntry "A" (Some sampleCell) 1000 0 10 [] None;
      mkEntry "B" (Some sampleCell) 1000 500 5 [] None;
      mkEntry "C" (Some sampleCell) 1000 0 1 [7%nat] None ]
    3000 3000 CacheFirst 86400000 0 0 [] [].

(** The sample store after a [refresh] of A: its cell is loading request 0. *)
Definition loadingStore : Client :=
  mkClient [("A", 0%nat); ("B", 1%nat); ("C", 2%nat)]
    [ mkEntry "A" (Some (mkCell None (Some 0%nat) true CacheFirst 86400000))
        1000 0 10 [4%nat; 5%nat] (Some 0%nat);
      mkEntry "B" (Some sampleCell) 1000 500 5 [] None;
      mkEntry "C" (Some sampleCell) 1000 0 1 [7%nat] None ]
    3000 3000 CacheFirst 86400000 1 1 [] [].

(** A result without errors, of size 20. *)
Definition sampleResult : Http.Result :=
  Http.mkResult (JObj [("x", JNum 1)]) JUndef false (Num 20) (Http.ExtJson JUndef).

(** [st'] is [st] up to the map and the running total. *)
Definition sameButCache (st st' : Client) : Prop :=
  st' = withCacheSize (cacheSize st') (withCache (cache st') st).

(** What the running total is above the sizes in the map. *)
Definition surplus (st : Client) : Z := cacheSize st - totalSize st.

(** The three assignments of lines 275-277. *)
Definition committed (data : Http.Result) (v : CacheEntry) : CacheEntry :=
  setCancelRequest None
    (setCell (setLoading false) (setCell (setResult (Some data)) v)).

(** A new client whose first query "q" was answered with a result of size
    20. *)
Definition answered : option Client :=
  '(e, st1) ← executeQuery 100 "q" None None (init 20971520 CacheFirst 86400000);
  onRefreshed 200 e 0
    (Http.mkResult (JObj [("x", JNum 1)]) JUndef false (Num 20) (Http.ExtJson JUndef))
    st1.

End Cache.

(** ** The subscription session: [executeSubscription] *)
Module Subscription.
Import JS.

(** Modelled from the spec: the enumeration of CloseReason.ts, which is not
    among the sources; the engine names these five members and the spec's
    data model lists exactly them. *)
Inductive CloseReason := Client | Server | ServerError | Timeout | Error.

(** Modelled from the spec: [ClientMsg], whose declaration is not among the
    sources; these are the three messages the engine builds. *)
Inductive ClientMsg :=
| ConnectionInit (payload : json)
| Pong (payload : json)
| Subscribe (id : string) (request : string).

(** The [WebSocket] object: [readyState] (0 connecting, 1 open, 2 closing,
    3 closed), the frames handed to [send], and the code given to the [close]
    that started the closing handshake. *)
Record WebSocket := mkSocket {
  readyState : nat;
  sent : list ClientMsg;
  closeCode : option Z
}.

(** [webSocket.close(code)] as the WebSocket standard defines it: nothing
    happens on a socket that is closing or closed; otherwise the closing
    handshake starts. *)
Definition close (code : Z) (ws : WebSocket) : WebSocket :=
  if (readyState ws =? 2)%nat || (readyState ws =? 3)%nat then ws
  else mkSocket 2 (sent ws) (Some code).

(** Modelled from the spec: [ITimeoutConnectionHandler], whose declaration is
    not among the sources: which of the five optional hooks the handler
    returned by [timeoutStrategy.attach] has. *)
Record Handler := mkHandler {
  hasOnOpen : bool;
  hasOnOutbound : bool;
  hasOnInbound : bool;
  hasOnAck : bool;
  hasOnClose : bool
}.

(** The calls the session makes on its surroundings, oldest first. *)
Inductive effect :=
| OnData (r : Http.Result)                 (* the caller's [onData] *)
| OnClose (reason : CloseReason)           (* the caller's [onClose] *)
| OptionsOnOpen                            (* [options.onOpen] *)
| ResolveConnection
| RejectConnection
| HandlerOnOpen
| HandlerOnOutbound (msg : ClientMsg)
| HandlerOnInbound (message : json)
| HandlerOnAck
| HandlerOnClose (reason : CloseReason)
| LogWebSocketConnectionError (received : option json).

Inductive State := Opening | Connected.

(** The variables of one [executeSubscription] call, with the client fields
    it reads and writes. *)
Record Session := mkSession {
  (* the client *)
  activeSubscriptions : Z;
  logsConnectionErrors : bool;     (* [logWebSocketConnectionError] is set *)
  (* the arguments *)
  request : string;
  hasOptionsOnOpen : bool;
  timeoutStrategy : option Handler;  (* what [attach] will return *)
  (* the local variables *)
  aborted : bool;
  timeoutHandler : option Handler;
  connectionResolved : bool;
  payload : json;
  webSocket : option WebSocket;    (* [None] until the socket is created *)
  state : State;
  trace : list effect
}.

Definition subscriptionId : string := "1".

Definition withTrace (t : list effect) (s : Session) : Session :=
  mkSession (activeSubscriptions s) (logsConnectionErrors s) (request s)
    (hasOptionsOnOpen s) (timeoutStrategy s) (aborted s) (timeoutHandler s)
    (connectionResolved s) (payload s) (webSocket s) (state s) t.

Definition emit (ev : effect) (s : Session) : Session :=
  withTrace (trace s ++ [ev]) s.

(** Calls a hook of the timeout handler when the handler has it. *)
Definition hook (has : Handler → bool) (ev : effect) (s : Session) : Session :=
  match timeoutHandler s with
  | Some h => if has h then emit ev s else s
  | None => s
  end.

Definition withSocket (ws : option WebSocket) (s : Session) : Session :=
  mkSession (activeSubscriptions s) (logsConnectionErrors s) (request s)
    (hasOptionsOnOpen s) (timeoutStrategy s) (aborted s) (timeoutHandler s)
    (connectionResolved s) (payload s) ws (state s) (trace s).

Definition withState (q : State) (s : Session) : Session :=
  mkSession (activeSubscriptions s) (logsConnectionErrors s) (request s)
    (hasOptionsOnOpen s) (timeoutStrategy s) (aborted s) (timeoutHandler s)
    (connectionResolved s) (payload s) (webSocket s) q (trace s).

Definition withConnectionResolved (b : bool) (s : Session) : Session :=
  mkSession (activeSubscriptions s) (logsConnectionErrors s) (request s)
    (hasOptionsOnOpen s) (timeoutStrategy s) (aborted s) (timeoutHandler s)
    b (payload s) (webSocket s) (state s) (trace s).

(** The first [doAbort] (lines 363-370). *)
Definition doAbort0 (reason : CloseReason) (s : Session) : Session :=
  if aborted s then s
  else
    let s1 :=
      mkSession (activeSubscriptions s - 1) (logsConnectionErrors s) (request s)
        (hasOptionsOnOpen s) (timeoutStrategy s) true (timeoutHandler s)
        (connectionResolved s) (payload s) (webSocket s) (state s) (trace s) in
    emit (OnClose reason) (hook hasOnClose (HandlerOnClose reason) s1).

(** The wrapper of lines 398-404. *)
Definition doAbort1 (reason : CloseReason) (s : Session) : Session :=
  let s1 := doAbort0 reason s in
  if connectionResolved s1 then s1
  else emit RejectConnection (withConnectionResolved true s1).

(** [doAbort] as the variable stands: the wrapper of lines 424-431 is in place
    from the moment the socket exists. *)
Definition doAbort (reason : CloseReason) (s : Session) : Session :=
  let s1 := doAbort1 reason s in
  match webSocket s1 with
  | Some ws =>
      if (readyState ws =? 3)%nat then s1
      else withSocket
             (Some (close (match reason with Timeout => 4408 | _ => 1000 end) ws)) s1
  | None => s1
  end.

(** The [abort] of the returned object. *)
Definition abort (s : Session) : Session := doAbort Client s.

Definition doData (data : Http.Result) (s : Session) : Session :=
  if aborted s then s else emit (OnData data) s.

Definition doError (error : Http.thrown) (s : Session) : Session :=
  if aborted s then s
  else
    let queryRet :=
      Http.networkErrorResult
        (match error with
         | Http.ThrowStr m => m
         | _ => "Error generating websocket connection payload"
         end)
        (Http.ExtUnderlying error) in
    doAbort Error (emit (OnData queryRet) s).

(** [send] (lines 434-440) *)
Definition send (msg : ClientMsg) (s : Session) : Session :=
  match webSocket s with
  | Some ws =>
      if negb (aborted s) && (readyState ws =? 1)%nat then
        hook hasOnOutbound (HandlerOnOutbound msg)
          (withSocket (Some (mkSocket (readyState ws) (sent ws ++ [msg]) (closeCode ws))) s)
      else s
  | None => s
  end.

(** The start of [executeSubscription], up to the pending payload promise. *)
Definition executeSubscription (active : Z) (logs : bool) (req : string)
  (optionsOnOpen : bool) (strategy : option Handler) : Session :=
  mkSession (active + 1) logs req optionsOnOpen strategy false None false JUndef
    None Opening [].

(** The payload promise fulfils with [p] (lines 417-567). *)
Definition onPayload (p : json) (s : Session) : Session :=
  if aborted s then s
  else
    mkSession (activeSubscriptions s) (logsConnectionErrors s) (request s)
      (hasOptionsOnOpen s) (timeoutStrategy s) (aborted s) (timeoutStrategy s)
      (connectionResolved s) p (Some (mkSocket 0 [] None)) Opening (trace s).

(** The payload promise rejects (lines 569-571). *)
Definition onPayloadFailed (error : Http.thrown) (s : Session) : Session :=
  doError error s.

(** [webSocket.onopen]; the socket is open when the event fires. *)
Definition onopen (s : Session) : Session :=
  let s0 := match webSocket s with
            | Some ws =>
                if (readyState ws =? 0)%nat
                then withSocket (Some (mkSocket 1 (sent ws) (closeCode ws))) s
                else s
            | None => s
            end in
  if aborted s0 then s0
  else send (ConnectionInit (payload s0)) (hook hasOnOpen HandlerOnOpen s0).

Definition logConnectionError (received : option json) (s : Session) : Session :=
  if logsConnectionErrors s then emit (LogWebSocketConnectionError received) s
  else s.

(** [webSocket.onclose]; the socket is closed when the event fires. *)
Definition onclose (s : Session) : Session :=
  let s0 := match webSocket s with
            | Some ws => withSocket (Some (mkSocket 3 (sent ws) (closeCode ws))) s
            | None => s
            end in
  if aborted s0 then s0
  else doError (Http.ThrowStr "WebSocket connection unexpectedly closed")
         (logConnectionError None s0).

(** The data of a message event: a string, or data that is no string (a
    [Blob], an [ArrayBuffer], a Node [Buffer]); with the text that
    [JSON.parse] reads, which for data that is no string is [String(data)],
    and what [JSON.parse] makes of it ([None] when it throws). *)
Inductive MessageData :=
| Binary (text : string) (parsed : option json)
| Text (raw : string) (parsed : option json).

Definition isString (j : json) (s : string) : bool :=
  match j with
  | JStr t => String.eqb t s
  | _ => false
  end.

(** The dispatch of lines 478-539 on a parsed, non-null [message]. *)
Definition dispatchMessage (raw : string) (message : json) (s : Session) : Session :=
  let type := get_prop message "type" in
  let id := get_prop message "id" in
  let pl := get_prop message "payload" in
  let len := Http.strlen raw in
  if isString type "ping" then send (Pong pl) s
  else
    match state s with
    | Opening =>
        if negb (isString type "connection_ack") then
          doError (Http.ThrowStr "Invalid connection response from WebSocket server")
            (logConnectionError (Some message) s)
        else
          let s1 := withState Connected s in
          let s2 :=
            if connectionResolved s1 then s1
            else
              let s' := emit ResolveConnection (withConnectionResolved true s1) in
              if hasOptionsOnOpen s' then emit OptionsOnOpen s' else s' in
          send (Subscribe subscriptionId (request s2)) (hook hasOnAck HandlerOnAck s2)
    | Connected =>
        if isString type "next" then
          if negb (truthy pl)
             || (negb (truthy (get_prop pl "data")) && negb (truthy (get_prop pl "errors")))
             || negb (isString id subscriptionId)
          then doError (Http.ThrowStr "Invalid payload for 'next' packet") s
          else doData (Http.mkResult (get_prop pl "data") (get_prop pl "errors") false
                         len (Http.ExtJson (get_prop pl "extensions"))) s
        else if isString type "error" then
          if negb (truthy pl) || negb (isString id subscriptionId)
          then doError (Http.ThrowStr "Invalid payload for 'error' packet") s
          else doAbort ServerError
                 (doData (Http.mkResult JUndef pl false len (Http.ExtJson JUndef)) s)
        else if isString type "complete" then
          if negb (isString id subscriptionId)
          then doError (Http.ThrowStr "Invalid payload for 'complete' packet") s
          else doAbort Server s
        else doError (Http.ThrowStr "Unknown message type from WebSocket server") s
    end.

(** [timeoutHandler?.onInbound?.(message) === false] (line 473), where
    [consumed] says that [onInbound], if the handler has it, returns [false]. *)
Definition intercepted (consumed : bool) (s : Session) : bool :=
  match timeoutHandler s with
  | Some h => hasOnInbound h && consumed
  | None => false
  end.

(** [webSocket.onmessage] from [JSON.parse] on (lines 459-539). *)
Definition parseAndDispatch (raw : string) (parsed : option json) (consumed : bool)
  (s : Session) : Session :=
  match parsed with
  | None => doError (Http.ThrowStr "WebSocket message is not valid JSON") s
  | Some JNull => doError (Http.ThrowStr "WebSocket message is null") s
  | Some message =>
      let s1 := hook hasOnInbound (HandlerOnInbound message) s in
      if intercepted consumed s then s1
      else dispatchMessage raw message s1
  end.

(** [webSocket.onmessage] (lines 455-540).  The test of line 458 calls
    [doError] and does not return: on data that is no string the handler
    goes on, with the session aborted, to [JSON.parse], to [onInbound] and
    to the dispatch.  The length of such data is read for [doData] only,
    which does nothing then. *)
Definition onmessage (data : MessageData) (consumed : bool) (s : Session) : Session :=
  if aborted s then s
  else
    match data with
    | Binary text parsed =>
        parseAndDispatch text parsed consumed
          (doError (Http.ThrowStr "WebSocket data is not string") s)
    | Text raw parsed => parseAndDispatch raw parsed consumed s
    end.

(** The calls a first [doAbort] makes, in order. *)
Definition closeEffects (reason : CloseReason) (s : Session) : list effect :=
  match timeoutHandler s with
  | Some h => if hasOnClose h then [HandlerOnClose reason] else []
  | None => []
  end
  ++ [OnClose reason]
  ++ (if connectionResolved s then [] else [RejectConnection]).

(** The close code of lines 428-430. *)
Definition closeCodeFor (reason : CloseReason) : Z :=
  match reason with Timeout => 4408 | _ => 1000 end.

(** What a [doAbort] leaves of the socket. *)
Definition closedSocket (reason : CloseReason) (ws : WebSocket) : WebSocket :=
  if (readyState ws =? 3)%nat then ws else close (closeCodeFor reason) ws.

(** The session [s'] is [s] closed with [reason]. *)
Definition closedWith (reason : CloseReason) (s s' : Session) : Prop :=
  aborted s' = true
  ∧ activeSubscriptions s' = activeSubscriptions s - 1
  ∧ trace s' = trace s ++ closeEffects reason s
  ∧ webSocket s' = closedSocket reason <$> webSocket s
  ∧ state s' = state s.

(** A connected session with an open socket and a handler with every hook. *)
Definition liveSession : Session :=
  mkSession 1 false "subscription { p }" true (Some (mkHandler true true true true true))
    false (Some (mkHandler true true true true true)) true JUndef
    (Some (mkSocket 1 [ConnectionInit JUndef; Subscribe "1" "subscription { p }"] None))
    Connected [HandlerOnOpen].

Definition frameType (message : json) : json := get_prop message "type".
Definition frameId (message : json) : json := get_prop message "id".
Definition framePayload (message : json) : json := get_prop message "payload".

(** A [next] frame with the subscription's id whose payload has [data] or
    [errors]. *)
Definition validNext (message : json) : bool :=
  isString (frameType message) "next"
  && isString (frameId message) subscriptionId
  && truthy (framePayload message)
  && (truthy (get_prop (framePayload message) "data")
      || truthy (get_prop (framePayload message) "errors")).

(** An [error] frame with the subscription's id and a payload. *)
Definition validError (message : json) : bool :=
  isString (frameType message) "error"
  && isString (frameId message) subscriptionId
  && truthy (framePayload message).

(** A [complete] frame with the subscription's id. *)
Definition validComplete (message : json) : bool :=
  isString (frameType message) "complete"
  && isString (frameId message) subscriptionId.

(** The result the engine makes of the string it gives to [doError]. *)
Definition protocolError (text : string) : Http.Result :=
  Http.networkErrorResult text (Http.ExtUnderlying (Http.ThrowStr text)).

(** From [s], the session made the calls [mid] and then closed with [reason]. *)
Definition endsWith (mid : list effect) (reason : CloseReason) (s s' : Session)
  : Prop :=
  closedWith reason (withTrace (trace s ++ mid) s) s'.

(** The frames next{id:"1", payload:{data:{p:1}}} and error{id:"1"}. *)
Definition nextFrame : json :=
  JObj [("type", JStr "next"); ("id", JStr "1");
        ("payload", JObj [("data", JObj [("p", JNum 1)])])].

Definition bareErrorFrame : json := JObj [("type", JStr "error"); ("id", JStr "1")].

Definition ackFrame : json := JObj [("type", JStr "connection_ack")].

Definition completeFrame : json := JObj [("type", JStr "complete"); ("id", JStr "1")].

(** A text frame carrying [message]. *)
Definition textOf (message : json) : MessageData :=
  Text (stringify message) (Some message).

(** A session without timeout strategy from its start to its completion by
    the server. *)
Definition completedSession : Session :=
  onmessage (textOf completeFrame) false
    (onmessage (textOf nextFrame) false
       (onmessage (textOf ackFrame) false
          (onopen
             (onPayload JUndef
                (executeSubscription 0 false "subscription { p }" false None))))).

End Subscription.

(** ** The template tag: [gqlcompat] (src/GraphQLTag.tsx) *)
Module Tag.
Import JS.

(** [strings[i] || ""]: an element of the template's strings is [undefined]
    ([None]) where the literal holds an escape that is not valid. *)
Definition orEmpty (s : option string) : string :=
  match s with
  | Some t => t
  | None => ""
  end.

(** [params[i]] inside a string concatenation: an element that is missing or
    [undefined] ([None]) prints as the word undefined. *)
Definition paramText (params : list (option string)) (i : nat) : string :=
  match params !! i with
  | Some (Some p) => p
  | _ => "undefined"
  end.

(** The loop of lines 11-13 from index [i] on, [rest] being [strings[i..]]. *)
Fixpoint appendParts (i : nat) (rest : list (option string))
  (params : list (option string)) (value : string) : string :=
  match rest with
  | [] => value
  | s :: rest' =>
      appendParts (S i) rest' params
        (value +:+ (paramText params (i - 1) +:+ orEmpty s))
  end.

(** [value] once the loop has run. *)
Definition templateValue (strings params : list (option string)) : string :=
  match strings with
  | [] => ""
  | s0 :: rest => appendParts 1 rest params (orEmpty s0)
  end.

(** The class [[\s,]] of the regular expression. *)
Definition isSeparator (c : ascii) : bool := is_space c || Ascii.eqb c ",".

(** [s.replace(/[\s,]+/g, " ")]; [inMatch] says that the code unit before
    belongs to the match in progress, whose space is already written. *)
Fixpoint replaceSeparators (inMatch : bool) (s : string) : string :=
  match s with
  | EmptyString => ""
  | String c rest =>
      if isSeparator c then
        if inMatch then replaceSeparators true rest
        else String " " (replaceSeparators true rest)
      else String c (replaceSeparators false rest)
  end.

(** [s.indexOf(needle)], with [None] for -1. *)
Fixpoint indexOf (needle s : string) : option nat :=
  if String.prefix needle s then Some 0%nat
  else match s with
       | EmptyString => None
       | String _ rest => S <$> indexOf needle rest
       end.

(** [gqlcompat(strings, ...params)]: the string returned, and whether
    [console.error] was called. *)
Definition gqlcompat (strings params : list (option string)) : string * bool :=
  let value := templateValue strings params in
  let ret := match indexOf dquote value with
             | None => trim (replaceSeparators false value)
             | Some _ => value
             end in
  (ret, bool_decide (is_Some (indexOf "undefined" ret))).

(** *** Words *)

(** The words of [s]: its longest runs of code units that are no separators,
    [cur] being the word in progress. *)
Fixpoint wordsFrom (cur : string) (s : string) : list string :=
  match s with
  | EmptyString => if String.eqb cur "" then [] else [cur]
  | String c rest =>
      if isSeparator c then
        if String.eqb cur "" then wordsFrom "" rest else cur :: wordsFrom "" rest
      else wordsFrom (cur +:+ String c "") rest
  end.

Definition words (s : string) : list string := wordsFrom "" s.

(** The last code unit of [s] is a separator. *)
Fixpoint endsSeparator (s : string) : bool :=
  match s with
  | EmptyString => false
  | String c EmptyString => isSeparator c
  | String c rest => endsSeparator rest
  end.

(** No code unit of [s] is a separator. *)
Fixpoint plain (s : string) : bool :=
  match s with
  | EmptyString => true
  | String c rest => negb (isSeparator c) && plain rest
  end.

(** [c] is a code unit of [s]. *)
Fixpoint occurs (c : ascii) (s : string) : bool :=
  match s with
  | EmptyString => false
  | String c' rest => Ascii.eqb c c' || occurs c rest
  end.

(** The first code unit of [s] is a separator. *)
Definition startsSeparator (s : string) : bool :=
  match s with
  | String c _ => isSeparator c
  | EmptyString => false
  end.

(** The space that the replacement leaves after the last word. *)
Definition trailing (ws : list string) (s : string) : string :=
  match ws with
  | [] => ""
  | _ => if endsSeparator s then " " else ""
  end.

(** The first code unit of [s] is no white space. *)
Definition startsPlain (s : string) : bool :=
  match s with
  | String c _ => negb (is_space c)
  | EmptyString => false
  end.

(** A word: a string that is not empty and holds no separator. *)
Definition word (w : string) : Prop := w ≠ "" ∧ plain w = true.

End Tag.

(** ** The configuration (src/IGraphQLConfiguration.ts) *)
Module Configuration.

(** [IGraphQLConfiguration] without its callbacks and subscription options;
    an optional property that is absent is [None]. *)
Record IGraphQLConfiguration := mkConfiguration {
  url : string;
  webSocketUrl : option string;
  defaultFetchPolicy : option Cache.FetchPolicy;
  defaultCacheTime : option Z;
  maxCacheSize : option Z;
  asForm : option bool;
  sendDocumentIdAsQuery : option bool;
  validateResponseContentType : option bool
}.

End Configuration.

(** ** The constructor, and the request that [executeQueryRaw] builds *)
Module Request.
Import JS Tag.

(** The fields of the client; [store] holds those of the cache and the
    pending-request counter. *)
Record GraphQLClient := mkGraphQLClient {
  url : string;
  webSocketUrl : string;
  asForm : option bool;
  sendDocumentIdAsQuery : option bool;
  validateResponseContentType : bool;
  activeSubscriptions : Z;
  store : Cache.Client
}.

(** [a || b] on strings and on numbers. *)
Definition orString (a : option string) (b : string) : string :=
  match a with
  | Some s => if String.eqb s "" then b else s
  | None => b
  end.

Definition orNumber (a : option Z) (b : Z) : Z :=
  match a with
  | Some z => if z =? 0 then b else z
  | None => b
  end.

(** The constructor (lines 47-68). *)
Definition constructor (configuration : Configuration.IGraphQLConfiguration)
  : GraphQLClient :=
  {| url := Configuration.url configuration;
     webSocketUrl :=
       orString (Configuration.webSocketUrl configuration)
         (Configuration.url configuration);
     asForm := Configuration.asForm configuration;
     sendDocumentIdAsQuery := Configuration.sendDocumentIdAsQuery configuration;
     validateResponseContentType :=
       default false (Configuration.validateResponseContentType configuration);
     activeSubscriptions := 0;
     store :=
       Cache.init
         (orNumber (Configuration.maxCacheSize configuration) (1024 * 1024 * 20))
         (default Cache.CacheFirst (Configuration.defaultFetchPolicy configuration))
         (match Configuration.defaultCacheTime configuration with
          | Some t => t
          | None => 24 * 60 * 60 * 1000
          end) |}.

(** An optional flag in a condition. *)
Definition flag (o : option bool) : bool := default false o.

(** [String(v)], the conversion that [FormData.append] and
    [encodeURIComponent] apply to their argument. *)
Fixpoint toString (j : json) : string :=
  match j with
  | JUndef => "undefined"
  | JNull => "null"
  | JBool true => "true"
  | JBool false => "false"
  | JNum z => render_Z z
  | JStr s => s
  | JArr l =>
      commas (map (λ x, match x with
                        | JUndef | JNull => ""
                        | _ => toString x
                        end) l)
  | JObj _ => "[object Object]"
  end.

(** *** [encodeURIComponent] *)

(** The code units that stay as they are: letters, digits and [-_.!~*'()]. *)
Definition unescaped (c : ascii) : bool :=
  let n := nat_of_ascii c in
  (Nat.leb 65 n && Nat.leb n 90) || (Nat.leb 97 n && Nat.leb n 122)
  || (Nat.leb 48 n && Nat.leb n 57)
  || existsb (Nat.eqb n) [45; 95; 46; 33; 126; 42; 39; 40; 41]%nat.

Definition hexUpper (n : nat) : ascii :=
  nth n (list_ascii_of_string "0123456789ABCDEF") "0"%char.

(** The escape of one octet. *)
Definition percent (n : nat) : string :=
  String "%" (String (hexUpper (n / 16)) (String (hexUpper (n mod 16)) "")).

(** A code unit below 128 is one octet of UTF-8, one from 128 on is two. *)
Definition encodeUnit (c : ascii) : string :=
  let n := nat_of_ascii c in
  if unescaped c then String c ""
  else if Nat.ltb n 128 then percent n
  else percent (192 + n / 64) +:+ percent (128 + n mod 64).

Fixpoint encodeURIComponent (s : string) : string :=
  match s with
  | EmptyString => ""
  | String c rest => encodeUnit c +:+ encodeURIComponent rest
  end.

(** *** The body and the url (lines 75-100) *)

(** The request object ([IGraphQLRequest]) is the list of its properties, in
    order. *)

(** [request.k] in a condition. *)
Definition has (request : list (string * json)) (k : string) : bool :=
  truthy (assoc_get k request).

(** [request.documentId && this.sendDocumentIdAsQuery] *)
Definition idAsQuery (c : GraphQLClient) (request : list (string * json)) : bool :=
  has request "documentId" && flag (sendDocumentIdAsQuery c).

(** The fields appended to the [FormData], in order (lines 79-85). *)
Definition formData (c : GraphQLClient) (request : list (string * json))
  : list (string * string) :=
  (if has request "query"
   then [("query", toString (assoc_get "query" request))] else [])
  ++ (if has request "documentId" && negb (flag (sendDocumentIdAsQuery c))
      then [("documentId", toString (assoc_get "documentId" request))] else [])
  ++ (if has request "variables"
      then [("variables", stringify (assoc_get "variables" request))] else [])
  ++ (if has request "operationName"
      then [("operationName", toString (assoc_get "operationName" request))] else [])
  ++ (if has request "extensions"
      then [("extensions", stringify (assoc_get "extensions" request))] else []).

(** [const { documentId, ...partialRequest } = request] *)
Definition partialRequest (request : list (string * json))
  : list (string * json) :=
  filter (λ p, p.1 ≠ "documentId") request.

(** The object that lines 88-93 hand to [JSON.stringify]. *)
Definition jsonObject (c : GraphQLClient) (request : list (string * json))
    : list (string * json) :=
  if idAsQuery c request then partialRequest request else request.

Inductive Body :=
| FormBody (fields : list (string * string))
| TextBody (text : string).

Definition requestBody (c : GraphQLClient) (request : list (string * json)) : Body :=
  if flag (asForm c) then FormBody (formData c request)
  else TextBody (stringify (JObj (jsonObject c request))).

(** Lines 97-100. *)
Definition requestUrl (c : GraphQLClient) (request : list (string * json)) : string :=
  if idAsQuery c request then
    url c
    +:+ (match indexOf "?" (url c) with Some _ => "&" | None => "?" end)
    +:+ "documentId="
    +:+ encodeURIComponent (toString (assoc_get "documentId" request))
  else url c.

(** [IRequest]: the object of lines 106-112; [signal] says whether there is an
    [AbortController]. *)
Record IRequest := mkRequest {
  requestTarget : string;
  method : string;
  body : Body;
  headers : option (list (string * string));
  signal : bool
}.

Definition config (c : GraphQLClient) (request : list (string * json))
  (hasAbortController : bool) : IRequest :=
  {| requestTarget := requestUrl c request;
     method := "POST";
     body := requestBody c request;
     headers := if flag (asForm c) then None
                else Some [("Content-Type", "application/json")];
     signal := hasAbortController |}.

(** Every code unit of [s] passes the test [p]. *)
Fixpoint allOf (p : ascii → bool) (s : string) : bool :=
  match s with
  | EmptyString => true
  | String c rest => p c && allOf p rest
  end.

(** A code unit that [encodeURIComponent] writes: an unescaped one, or the
    percent sign. *)
Definition written (c : ascii) : bool := unescaped c || Ascii.eqb c "%".

(** A client that sends the document id in the query string of a url that
    has one already, and a request with an id. *)
Definition persistedClient : GraphQLClient :=
  constructor
    (Configuration.mkConfiguration "https://example.org/graphql?v=2" None None None
       None None (Some true) None).

Definition persistedRequest : list (string * json) :=
  [("documentId", JStr "a b&c"); ("variables", JObj [("id", JNum 7)])].

End Request.

(** ** The calls on the cache store and on its response cells *)
Module Store.
Import JS Cache.

(** [newEntry.response.clearAndRefresh()] (lines 313-323). *)
Definition clearAndRefresh (e : nat) (st : Client) : option Client :=
  st1 ← forceRefresh e st;
  c ← response (entry st1 e);
  match result c with
  | Some _ =>
      Some (notifySubscribers e None (update e (setCell (setResult None)) st1))
  | None => Some st1
  end.

(** [this.cache.forEach((value) => f(value))] for a callback that leaves the
    map as it is: [refs] are the values of the map, in its order. *)
Fixpoint forEach (f : nat → Client → option Client) (refs : list nat) (st : Client)
  : option Client :=
  match refs with
  | [] => Some st
  | e :: rest => st' ← f e st; forEach f rest st'
  end.

(** The callback of [refreshAll] (lines 586-591). *)
Definition refreshInUse (force : bool) (e : nat) (st : Client) : option Client :=
  if (0 <? length (subscribers (entry st e)))%nat then
    if force then forceRefresh e st else snd <$> refresh e st
  else Some st.

(** [refreshAll(force)] at time [nowDate]. *)
Definition refreshAll (nowDate : Z) (force : bool) (st : Client) : option Client :=
  st1 ← clearCache nowDate st;
  forEach (refreshInUse force) (cache st1).*2 st1.

(** [resetStore()] at time [nowDate]. *)
Definition resetStore (nowDate : Z) (st : Client) : option Client :=
  st1 ← clearCache nowDate st;
  forEach clearAndRefresh (cache st1).*2 st1.

(** What the owner of a client can do with its cache: the calls of the
    client, those of a response object (named by its entry), and the
    completion of a request with a result. *)
Inductive Call :=
| ExecuteQuery (nowDate : Z) (request : string) (mode : option FetchPolicy)
    (cacheTimeout : option Z)
| Refresh (e : nat)
| ForceRefresh (e : nat)
| ClearAndRefresh (e : nat)
| Subscribe (e callback : nat)
| Unsubscribe (e callback : nat)
| Completed (nowDate : Z) (e p : nat) (data : Http.Result)
| ClearCache (nowDate : Z)
| RefreshAll (nowDate : Z) (force : bool)
| ResetStore (nowDate : Z).

Definition call (c : Call) (st : Client) : option Client :=
  match c with
  | ExecuteQuery nowDate request mode cacheTimeout =>
      snd <$> executeQuery nowDate request mode cacheTimeout st
  | Refresh e => snd <$> refresh e st
  | ForceRefresh e => forceRefresh e st
  | ClearAndRefresh e => clearAndRefresh e st
  | Subscribe e callback => Some (subscribe e callback st)
  | Unsubscribe e callback => Some (unsubscribe e callback st)
  | Completed nowDate e p data => onRefreshed nowDate e p data st
  | ClearCache nowDate => clearCache nowDate st
  | RefreshAll nowDate force => refreshAll nowDate force st
  | ResetStore nowDate => resetStore nowDate st
  end.

Fixpoint calls (cs : list Call) (st : Client) : option Client :=
  match cs with
  | [] => Some st
  | c :: rest => st' ← call c st; calls rest st'
  end.

(** The entry has its response object. *)
Definition hasCell (st : Client) (e : nat) : Prop := is_Some (response (entry st e)).

(** The store is well formed, and every entry made so far has its response
    object. *)
Definition sound (st : Client) : Prop :=
  wf st ∧ ∀ e, (e < length (heap st))%nat → hasCell st e.

(** A result whose size the cache can add up: a number, when the result has
    no errors. *)
Definition sized (data : Http.Result) : Prop :=
  Http.hasErrors (Http.errors data) = false → ∃ z, Http.size data = Num z.

(** A call that the owner can make in the state [st]: a response object that
    is called exists, and a result that arrives is sized. *)
Definition permitted (c : Call) (st : Client) : Prop :=
  match c with
  | Refresh e | ForceRefresh e | ClearAndRefresh e
  | Subscribe e _ | Unsubscribe e _ => (e < length (heap st))%nat
  | Completed _ e _ data => (e < length (heap st))%nat ∧ sized data
  | _ => True
  end.

Fixpoint permittedAll (cs : list Call) (st : Client) : Prop :=
  match cs with
  | [] => True
  | c :: rest =>
      permitted c st ∧ ∀ st', call c st = Some st' → permittedAll rest st'
  end.

(** [st'] is [st] up to the response cells and cancel handles of its
    entries, the counters of requests and the records of calls. *)
Definition cellsOnly (st st' : Client) : Prop :=
  cache st' = cache st ∧ cacheSize st' = cacheSize st
  ∧ maxCacheSize st' = maxCacheSize st
  ∧ defaultCachePolicy st' = defaultCachePolicy st
  ∧ defaultCacheTime st' = defaultCacheTime st
  ∧ length (heap st') = length (heap st)
  ∧ ∀ e, queryAndVariablesString (entry st' e) = queryAndVariablesString (entry st e)
         ∧ size (entry st' e) = size (entry st e)
         ∧ expires (entry st' e) = expires (entry st e)
         ∧ lastUsed (entry st' e) = lastUsed (entry st e)
         ∧ subscribers (entry st' e) = subscribers (entry st e)
         ∧ (hasCell st e → hasCell st' e).

(** An assignment to an entry that writes its response cell or its cancel
    handle only, and keeps a response object that is there. *)
Definition cellFun (f : CacheEntry → CacheEntry) : Prop :=
  ∀ v, queryAndVariablesString (f v) = queryAndVariablesString v
       ∧ size (f v) = size v
       ∧ expires (f v) = expires v
       ∧ lastUsed (f v) = lastUsed v
       ∧ subscribers (f v) = subscribers v
       ∧ (is_Some (response v) → is_Some (response (f v))).

(** The response cell of an entry that has one. *)
Definition cell (st : Client) (e : nat) : Cell :=
  default (mkCell None None false CacheFirst 0) (response (entry st e)).

(** The entry has a subscriber. *)
Definition inUse (v : CacheEntry) : bool := (0 <? length (subscribers v))%nat.

(** The cell of an entry is loading. *)
Definition isLoading (v : CacheEntry) : bool :=
  match response v with
  | Some c => loading c
  | None => false
  end.

(** The number of requests that the callback of [refreshAll] starts on an
    entry: one when the entry is in use and, without [force], not loading. *)
Definition refreshStarts (force : bool) (v : CacheEntry) : nat :=
  if inUse v && (force || negb (isLoading v)) then 1%nat else 0%nat.

(** The cancel handles that it calls. *)
Definition refreshCancels (force : bool) (v : CacheEntry) : list nat :=
  if inUse v && force && isLoading v then option_list (cancelRequest v) else [].

(** The cancel handles that [forceRefresh] calls on an entry. *)
Definition forceCancels (v : CacheEntry) : list nat :=
  if isLoading v then option_list (cancelRequest v) else [].

(** The calls of subscribers that [clearAndRefresh] makes on an entry. *)
Definition clearTells (v : CacheEntry) : list (nat * option Http.Result) :=
  match response v with
  | Some c =>
      match result c with
      | Some _ => map (λ s, (s, None)) (subscribers v)
      | None => []
      end
  | None => []
  end.

(** What the callback of [refreshAll] makes of an entry: one in use is
    loading and keeps its result, any other stays as it is. *)
Definition refreshed (v v' : CacheEntry) : Prop :=
  if inUse v
  then isLoading v' = true
       ∧ (result <$> response v') = (result <$> response v)
  else v' = v.

(** What [clearAndRefresh] makes of an entry: it is loading and has no
    result. *)
Definition cleared (v v' : CacheEntry) : Prop :=
  isLoading v' = true ∧ (result <$> response v') = Some None.

(** [st'] has the entries of [st], each with its response object if it had
    one. *)
Definition keepsCells (st st' : Client) : Prop :=
  length (heap st') = length (heap st) ∧ ∀ e, hasCell st e → hasCell st' e.

(** [sound] as a test. *)
Definition soundb (st : Client) : bool :=
  wfb st && forallb (λ v, bool_decide (is_Some (response v))) (heap st).

(** The sample store once C holds a result. *)
Definition servedStore : Client :=
  mkClient [("A", 0%nat); ("B", 1%nat); ("C", 2%nat)]
    [ mkEntry "A" (Some sampleCell) 1000 0 10 [] None;
      mkEntry "B" (Some sampleCell) 1000 500 5 [] None;
      mkEntry "C" (Some (mkCell (Some sampleResult) (Some 0%nat) false CacheFirst 86400000))
        1020 86400000 1 [7%nat] None ]
    3000 3000 CacheFirst 86400000 0 1 [] [(7%nat, Some sampleResult)].

(** A new client with the given budget after its first query "q". *)
Definition firstQuery (maxSize : Z) : Client :=
  default (init maxSize CacheFirst 86400000)
    (snd <$> executeQuery 100 "q" None None (init maxSize CacheFirst 86400000)).

(** A run of calls: a query, a subscription to it, its result, then a
    forced refresh of all entries and a reset. *)
Definition sampleCalls : list Call :=
  [ ExecuteQuery 100 "q" None None; Subscribe 0 7; Completed 200 0 0 sampleResult;
    RefreshAll 300 true; ResetStore 400 ].

End Store.

(** ** The life of a subscription session *)
Module Session.
Import JS Subscription.

(** What happens to a session after [executeSubscription] has returned: the
    payload promise settles, the socket raises its events, the caller or the
    timeout handler aborts. *)
Inductive Event :=
| PayloadReady (p : json)
| PayloadFailed (error : Http.thrown)
| SocketOpen
| SocketMessage (data : MessageData) (consumed : bool)
| SocketClose
| Abort
| StrategyAbort (reason : CloseReason).

(** The handler that an event runs.  An event that cannot happen in the
    state leaves the session as it is: the payload promise settles before
    the socket exists; a socket raises [open] while it is connecting,
    [message] while it is open or closing, and [close] once; the timeout
    handler can call [abort] once [timeoutStrategy.attach] has returned
    it.  What the handler sends on its own through [send] is not the
    session's. *)
Definition handle (ev : Event) (s : Session) : Session :=
  match ev, webSocket s with
  | PayloadReady p, None => onPayload p s
  | PayloadFailed error, None => onPayloadFailed error s
  | SocketOpen, Some ws => if (readyState ws =? 0)%nat then onopen s else s
  | SocketMessage data consumed, Some ws =>
      if (readyState ws =? 1)%nat || (readyState ws =? 2)%nat
      then onmessage data consumed s else s
  | SocketClose, Some ws => if (readyState ws =? 3)%nat then s else onclose s
  | Abort, _ => abort s
  | StrategyAbort reason, _ =>
      match timeoutHandler s with
      | Some _ => doAbort reason s
      | None => s
      end
  | _, _ => s
  end.

Fixpoint runEvents (evs : list Event) (s : Session) : Session :=
  match evs with
  | [] => s
  | ev :: rest => runEvents rest (handle ev s)
  end.

(** The session of one [executeSubscription] call after the events [evs]. *)
Definition sessionAfter (active : Z) (logs : bool) (req : string)
  (optionsOnOpen : bool) (strategy : option Handler) (evs : list Event) : Session :=
  runEvents evs (executeSubscription active logs req optionsOnOpen strategy).

(** [getActiveSubscriptions] *)
Definition getActiveSubscriptions (s : Session) : Z := activeSubscriptions s.

(** *** What the caller sees *)

Definition isClose (ev : effect) : bool :=
  match ev with OnClose _ => true | _ => false end.

Definition isSettle (ev : effect) : bool :=
  match ev with ResolveConnection | RejectConnection => true | _ => false end.

(** The caller's [onClose] was called. *)
Definition closed (t : list effect) : bool := existsb isClose t.

(** The number of times the promise [connected] was settled. *)
Fixpoint settles (t : list effect) : nat :=
  match t with
  | [] => 0%nat
  | ev :: rest => ((if isSettle ev then 1 else 0) + settles rest)%nat
  end.

(** What can still be called once the caller's [onClose] was: the
    rejection of [connected], and the hooks [onInbound] and [onAck] of the
    timeout handler and the logger of connection errors, which the handler
    of a message that is no string reaches after it has closed the
    session.  The caller's [onData], [onClose] and [options.onOpen], the
    resolution of [connected] and the other hooks are not among them. *)
Definition afterClose (ev : effect) : bool :=
  match ev with
  | RejectConnection | HandlerOnInbound _ | HandlerOnAck
  | LogWebSocketConnectionError _ => true
  | _ => false
  end.

(** [onClose] is called at most once, and after it nothing is called but
    what [afterClose] lists; [seen] says that [onClose] was called before
    [t]. *)
Fixpoint tidy (seen : bool) (t : list effect) : bool :=
  match t with
  | [] => true
  | OnClose _ :: rest => negb seen && tidy true rest
  | ev :: rest => (negb seen || afterClose ev) && tidy seen rest
  end.

(** The state of a session is in step with what it has called, for a client
    that had [active] subscriptions before. *)
Definition counted (active : Z) (s : Session) : Prop :=
  activeSubscriptions s = active + (if aborted s then 0 else 1)
  ∧ tidy false (trace s) = true
  ∧ closed (trace s) = aborted s
  ∧ settles (trace s) = (if connectionResolved s then 1 else 0)%nat
  ∧ (aborted s = true → connectionResolved s = true).

(** An effect other than the close callback and the settling of
    [connected]. *)
Definition plainEffect (ev : effect) : bool := negb (isClose ev) && negb (isSettle ev).

(** *** What the socket is sent *)







(** The session [s'] has called nothing, sent nothing and counted nothing
    since [s]. *)
Definition quiet (s s' : Session) : Prop :=
  trace s' = trace s
  ∧ activeSubscriptions s' = activeSubscriptions s
  ∧ sent <$> webSocket s' = sent <$> webSocket s.

(** The text of the result that [doError] makes of what was thrown. *)
Definition errorText (error : Http.thrown) : string :=
  match error with
  | Http.ThrowStr m => m
  | _ => "Error generating websocket connection payload"
  end.

(** A session whose payload is ready, with a handler that has every hook. *)
Definition readySession : Session :=
  onPayload JUndef
    (executeSubscription 0 true "subscription { p }" true
       (Some (mkHandler true true true true true))).

(** A handshake, a message that is no string, and a late close event. *)
Definition sampleRun : list Event :=
  [ PayloadReady JUndef; SocketOpen;
    SocketMessage (textOf ackFrame) false;
    SocketMessage (textOf nextFrame) false;
    SocketMessage (Binary "[object Blob]" None) false;
    SocketMessage (textOf nextFrame) false;
    SocketClose; Abort ].

End Session.

(** * Properties of the query executor *)
Module HttpFacts.
Import JS Http.

(** ** The pending-request counter *)

Lemma settle_decrements validate env n :
  pendingAfter (settle validate env n) = n - 1.
Proof.
  unfold settle.
  destruct (prepare env); [destruct (fetch env) as [r|e]|]; simpl; try done.
  by destruct (onResponse validate env r).
Qed.

Lemma remove_req_absent p l : p ∉ l → remove_req p l = l.
Proof.
  unfold remove_req. induction l as [|x l IH]; intros Hp; [done|].
  apply not_elem_of_cons in Hp as [Hne Hp].
  rewrite filter_cons, decide_True by done. f_equal. by apply IH.
Qed.

Lemma remove_req_length p l :
  NoDup l → p ∈ l → S (length (remove_req p l)) = length l.
Proof.
  induction 1 as [|x l Hx Hnd IH]; intros Hin.
  - by apply elem_of_nil in Hin.
  - unfold remove_req in *. rewrite filter_cons.
    destruct (decide (x = p)) as [->|Hne].
    + rewrite decide_False by (intros H; by apply H).
      simpl. f_equal. f_equal. by apply remove_req_absent.
    + rewrite decide_True by done. simpl. f_equal. apply IH.
      apply elem_of_cons in Hin as [->|Hin]; [done|exact Hin].
Qed.

Lemma newWorld_balanced : balanced newWorld.
Proof. unfold balanced, newWorld; simpl. split_and!; [done|constructor|constructor]. Qed.

Lemma step_balanced validate w ev w' :
  balanced w → step validate w ev = Some w' → balanced w'.
Proof.
  intros (Hn & Hnd & Hlt) Hstep. destruct ev as [|p env]; simpl in Hstep.
  - injection Hstep as <-. repeat split; simpl.
    + unfold dispatch. lia.
    + apply NoDup_cons. split; [|done]. intros Hin.
      rewrite Forall_forall in Hlt. apply Hlt in Hin. lia.
    + constructor; [lia|]. eapply Forall_impl; [exact Hlt|]. simpl. lia.
  - case_bool_decide as Hin; [|done]. injection Hstep as <-.
    repeat split; simpl.
    + rewrite settle_decrements, Hn.
      pose proof (remove_req_length p _ Hnd Hin). lia.
    + by apply NoDup_filter.
    + rewrite Forall_forall in Hlt |- *. intros q Hq.
      apply list_elem_of_filter in Hq as [_ Hq]. by apply Hlt.
Qed.

Lemma run_balanced validate evs : ∀ w w',
  balanced w → run validate w evs = Some w' → balanced w'.
Proof.
  induction evs as [|ev evs IH]; intros w w' Hb Hrun; simpl in Hrun.
  - by injection Hrun as <-.
  - destruct (step validate w ev) as [w1|] eqn:Hstep; [|done].
    eapply IH; [|exact Hrun]. by eapply step_balanced.
Qed.

(** C9: along every run of the client, a dispatch adds one to the pending
    counter and the settling of a request, whatever happens in its stages
    (the transform hook, [new Request], [fetch], the logger, the body),
    takes one off; so [getPendingRequests] is the number of outstanding
    requests: never negative, and zero when none is outstanding. *)
Theorem pending_counter_balanced validate evs w :
  run validate newWorld evs = Some w →
  (∀ w', step validate w Dispatch = Some w' →
         getPendingRequests w' = getPendingRequests w + 1)
  ∧ (∀ p env w', step validate w (Settle p env) = Some w' →
                 getPendingRequests w' = getPendingRequests w - 1)
  ∧ getPendingRequests w = Z.of_nat (length (outstanding w))
  ∧ 0 ≤ getPendingRequests w
  ∧ (outstanding w = [] → getPendingRequests w = 0).
Proof.
  intros Hrun.
  destruct (run_balanced validate evs newWorld w newWorld_balanced Hrun) as (Hn & _ & _).
  unfold getPendingRequests. repeat split.
  - intros w' Hstep. simpl in Hstep. by injection Hstep as <-.
  - intros p env w' Hstep. simpl in Hstep.
    case_bool_decide; [|done]. injection Hstep as <-. simpl.
    apply settle_decrements.
  - exact Hn.
  - lia.
  - intros Hnil. rewrite Hn, Hnil. done.
Qed.

Lemma pending_counter_balanced_witness :
  run false newWorld sampleEvents = Some (mkWorld 0 [] 3)
  ∧ getPendingRequests (mkWorld 0 [] 3) = 0.
Proof.
  split; [vm_compute; reflexivity|].
  apply (pending_counter_balanced false sampleEvents (mkWorld 0 [] 3));
    vm_compute; reflexivity.
Defined.

(** ** Response validation *)

Lemma in2xx_spec s : in2xx s = true ↔ 200 ≤ s < 300.
Proof. unfold in2xx. rewrite andb_true_iff, Z.leb_le, Z.ltb_lt. done. Qed.

Lemma in4xx_spec s : in4xx s = true ↔ 400 ≤ s < 500.
Proof. unfold in4xx. rewrite andb_true_iff, Z.leb_le, Z.ltb_lt. done. Qed.

Lemma isType_spec ct name : isType ct name = true ↔ ct = Some name.
Proof.
  destruct ct as [s|]; simpl; [|done].
  rewrite String.eqb_eq. split; [by intros ->|by intros [= ->]].
Qed.

(** Without validation exactly the 2xx and 4xx responses are parsed. *)
Lemma valid_default r :
  valid false r = true ↔ 200 ≤ status r < 300 ∨ 400 ≤ status r < 500.
Proof. unfold valid. by rewrite orb_true_iff, in2xx_spec, in4xx_spec. Qed.

(** With validation the media type decides as well. *)
Lemma valid_strict r :
  valid true r = true ↔
  (200 ≤ status r < 300
   ∧ (mediaType r = Some "application/graphql-response+json"
      ∨ mediaType r = Some "application/json"))
  ∨ (400 ≤ status r < 500
     ∧ mediaType r = Some "application/graphql-response+json").
Proof.
  unfold valid.
  by rewrite orb_true_iff, !andb_true_iff, orb_true_iff, in2xx_spec,
    in4xx_spec, !isType_spec.
Qed.

(** A response that is not valid gives the status text, and the body is not
    read. *)
Lemma settle_invalid validate env r n :
  prepare env = Fulfilled tt → fetch env = Fulfilled r → logged env r = None →
  valid validate r = false →
  outcome (settle validate env n)
  = Fulfilled (networkErrorResult (statusText r) (ExtJson JUndef))
  ∧ bodyRead (settle validate env n) = false.
Proof.
  intros Hp Hf Hl Hv. unfold settle, onResponse. by rewrite Hp, Hf, Hl, Hv.
Qed.

(** A valid response has its body read. *)
Lemma settle_valid validate env r n :
  prepare env = Fulfilled tt → fetch env = Fulfilled r → logged env r = None →
  valid validate r = true →
  bodyRead (settle validate env n) = true
  ∧ outcome (settle validate env n)
    = match body r with
      | Fulfilled jsonData =>
          match onJson (typeErrorMessage env) r jsonData with
          | Fulfilled q => Fulfilled q
          | Rejected e => onCatch env e
          end
      | Rejected e => onCatch env e
      end.
Proof.
  intros Hp Hf Hl Hv. unfold settle, onResponse. rewrite Hp, Hf, Hl, Hv.
  by destruct (body r).
Qed.

(** A failure before [fetch] (the transform hook, [new Request]) gives a
    network-error result, whatever was thrown. *)
Lemma settle_config_failure validate env e n :
  prepare env = Rejected e →
  outcome (settle validate env n) = Fulfilled (onConfigRejected e)
  ∧ networkError (onConfigRejected e) = true.
Proof. intros Hp. unfold settle. by rewrite Hp. Qed.

Lemma onCatch_fulfils env e :
  e ≠ ThrowNullish →
  ∃ q, onCatch env e = Fulfilled q ∧ networkError q = true.
Proof. destruct e; [eauto|eauto|done]. Qed.

Lemma onJson_throws t r j e : onJson t r j = Rejected e → e = ThrowErr t.
Proof. destruct j; simpl; intros [= <-] || intros [=]; done. Qed.

(** The promise is fulfilled as long as nothing from [fetch] on throws
    [null] or [undefined]. *)
Lemma settle_fulfils validate env n :
  (∀ e, fetchStageThrows env e → e ≠ ThrowNullish) →
  ∃ q, outcome (settle validate env n) = Fulfilled q.
Proof.
  intros Hthrow. unfold settle.
  destruct (prepare env) as [[]|e]; [|eauto].
  destruct (fetch env) as [r|e] eqn:Hf; simpl.
  - unfold onResponse. destruct (logged env r) as [e|] eqn:Hl; simpl.
    + destruct (onCatch_fulfils env e) as (q & -> & _); [|eauto].
      apply Hthrow. right. eauto.
    + destruct (valid validate r); simpl; [|eauto].
      destruct (body r) as [j|e] eqn:Hb; simpl.
      * destruct (onJson _ r j) as [q|e] eqn:Hj; [eauto|].
        apply onJson_throws in Hj as ->. simpl. eauto.
      * destruct (onCatch_fulfils env e) as (q & -> & _); [|eauto].
        apply Hthrow. right. eauto.
  - destruct (onCatch_fulfils env e) as (q & -> & _); [|eauto].
    apply Hthrow. by left.
Qed.

(** The scenario of the spec: a 500 gives a network error with the status
    text, and the body is not read. *)
Example scenario_server_error :
  settle true serverError 1
  = mkRun (Fulfilled (mkResult JUndef
                        (JArr [JObj [("message", JStr "Internal Server Error")]])
                        true (Num 1000) (ExtJson JUndef)))
      0 false.
Proof. reflexivity. Qed.

(** C5: when the logger called for a 500 response throws [null], the [.catch]
    handler reads [error.message] of [null] and throws itself: the returned
    promise is rejected with that TypeError, and no result is produced.  The
    handler for failures before [fetch] does not read the thrown value: a
    transform hook that throws [null] gives a network-error result. *)
Theorem executeQueryRaw_rejects_on_nullish_throw :
  outcome (settle false nullThrowingLogger 1)
  = Rejected (ThrowErr "Cannot read properties of null (reading 'message')")
  ∧ outcome (settle false nullThrowingTransform 1)
    = Fulfilled (networkErrorResult "Error initializing request configuration"
                   (ExtUnderlying ThrowNullish)).
Proof. split; reflexivity. Qed.

(** ** The result of a parsed response *)

Lemma assoc_get_set k v fs : assoc_get k (assoc_set k v fs) = v.
Proof.
  induction fs as [|[k' v'] fs IH]; simpl.
  - by rewrite String.eqb_refl.
  - destruct (String.eqb k k') eqn:Hk; simpl; rewrite Hk; done.
Qed.

Lemma assoc_get_set_ne k k' v fs :
  k ≠ k' → assoc_get k (assoc_set k' v fs) = assoc_get k fs.
Proof.
  intros Hne. induction fs as [|[k2 v2] fs IH]; simpl.
  - by apply String.eqb_neq in Hne as ->.
  - destruct (String.eqb k' k2) eqn:Hk; simpl.
    + apply String.eqb_eq in Hk as <-. by apply String.eqb_neq in Hne as ->.
    + by rewrite IH.
Qed.

(** A non-empty [Content-Length] gives the size. *)
Lemma size_from_content_length t r h fs q :
  contentLength r = Some h → h ≠ "" →
  onJson t r (JObj fs) = Fulfilled q → size q = parseInt10 h.
Proof.
  intros Hh Hne [= <-]. simpl. unfold resultSize. rewrite Hh.
  apply String.eqb_neq in Hne. by rewrite Hne.
Qed.

(** Non-empty [errors] clear [data]. *)
Lemma errors_clear_data t r fs q :
  hasErrors (assoc_get "errors" fs) = true →
  onJson t r (JObj fs) = Fulfilled q →
  data q = JUndef ∧ errors q = assoc_get "errors" fs ∧ networkError q = false.
Proof.
  intros He [= <-]. simpl. rewrite He.
  rewrite (assoc_get_set_ne "data" "networkError") by done.
  rewrite (assoc_get_set_ne "errors" "networkError") by done.
  rewrite (assoc_get_set_ne "errors" "data") by done.
  by rewrite assoc_get_set.
Qed.

(** The scenario of the spec: 200, body {"data":{"x":1}}, Content-Length 20. *)
Example scenario_content_length :
  outcome (settle false (mkEnv None None (Fulfilled (sampleResponse (Some "20"))) None "") 1)
  = Fulfilled (mkResult (JObj [("x", JNum 1)]) JUndef false (Num 20) (ExtJson JUndef)).
Proof. reflexivity. Qed.

(** C6: for a 200 response without Content-Length whose body is
    {"data":{"x":1}}, 16 characters when serialized, the size of the result is
    37: [JSON.stringify] runs on the object after [networkError] was written
    on it, and prints that property too. *)
Theorem size_counts_the_written_properties :
  strlen (stringify sampleBody) = Num 16
  ∧ ∃ q, outcome (settle false (mkEnv None None (Fulfilled (sampleResponse None)) None "") 1)
         = Fulfilled q
         ∧ size q = Num 37.
Proof. split; [reflexivity|]. eexists. split; reflexivity. Qed.

(** With non-empty [errors] the measured object has lost its [data] as well. *)
Example size_after_data_cleared :
  let body := JObj [("data", JObj [("x", JNum 1)]);
                    ("errors", JArr [JObj [("message", JStr "no")]])] in
  strlen (stringify body) = Num 44
  ∧ onJson "" (mkResponse 200 "OK" None None (Fulfilled body)) body
    = Fulfilled (mkResult JUndef (JArr [JObj [("message", JStr "no")]]) false
                   (Num 50) (ExtJson JUndef)).
Proof. split; reflexivity. Qed.

End HttpFacts.

(** * Properties of the subscription session *)
Module SubscriptionFacts.
Import JS Subscription.

(** ** Closing *)

Lemma close_close c1 c2 ws : close c2 (close c1 ws) = close c1 ws.
Proof.
  unfold close. destruct (readyState ws =? 2)%nat eqn:H2; simpl.
  - by rewrite H2.
  - destruct (readyState ws =? 3)%nat eqn:H3; simpl; [by rewrite H2, H3|done].
Qed.

Lemma close_readyState c ws :
  (readyState ws =? 3)%nat = false → (readyState (close c ws) =? 3)%nat = false.
Proof.
  intros H3. unfold close. rewrite H3.
  by destruct (readyState ws =? 2)%nat.
Qed.

Lemma closedSocket_twice r1 r2 ws :
  closedSocket r2 (closedSocket r1 ws) = closedSocket r1 ws.
Proof.
  unfold closedSocket. destruct (readyState ws =? 3)%nat eqn:H3.
  - by rewrite H3.
  - by rewrite (close_readyState _ _ H3), close_close.
Qed.

Lemma doAbort1_settled reason s :
  aborted s = true → connectionResolved s = true → doAbort1 reason s = s.
Proof. intros Ha Hc. unfold doAbort1, doAbort0. by rewrite Ha, Hc. Qed.

Lemma doAbort1_fields reason s :
  aborted (doAbort1 reason s) = true
  ∧ connectionResolved (doAbort1 reason s) = true
  ∧ webSocket (doAbort1 reason s) = webSocket s.
Proof.
  unfold doAbort1, doAbort0, hook.
  destruct (aborted s) eqn:Ha; simpl.
  - destruct (connectionResolved s) eqn:Hc; simpl; done.
  - destruct (timeoutHandler s) as [h|]; simpl;
      [destruct (hasOnClose h); simpl|];
      destruct (connectionResolved s); simpl; done.
Qed.

(** [doAbort] is [doAbort1] followed by the closing of the socket. *)
Lemma doAbort_unfold reason s :
  doAbort reason s
  = withSocket (closedSocket reason <$> webSocket (doAbort1 reason s))
      (doAbort1 reason s).
Proof.
  unfold doAbort. generalize (doAbort1 reason s). intros t.
  destruct t as [? ? ? ? ? ? ? ? ? [ws|] ? ?]; simpl; [|done].
  unfold closedSocket, closeCodeFor. simpl.
  by destruct (readyState ws =? 3)%nat.
Qed.

Lemma doAbort0_first reason s :
  aborted s = false →
  aborted (doAbort0 reason s) = true
  ∧ activeSubscriptions (doAbort0 reason s) = activeSubscriptions s - 1
  ∧ trace (doAbort0 reason s)
    = trace s
      ++ match timeoutHandler s with
         | Some h => if hasOnClose h then [HandlerOnClose reason] else []
         | None => []
         end
      ++ [OnClose reason]
  ∧ webSocket (doAbort0 reason s) = webSocket s
  ∧ state (doAbort0 reason s) = state s
  ∧ connectionResolved (doAbort0 reason s) = connectionResolved s.
Proof.
  intros Hlive. unfold doAbort0, hook. rewrite Hlive.
  cbn [timeoutHandler].
  destruct (timeoutHandler s) as [h|]; [destruct (hasOnClose h)|];
    cbn -[Z.sub]; rewrite <- ?app_assoc; done.
Qed.

Lemma doAbort_first reason s :
  aborted s = false → closedWith reason s (doAbort reason s).
Proof.
  intros Hlive.
  destruct (doAbort0_first reason s Hlive) as (Ha & Hn & Ht & Hw & Hs & Hc).
  unfold closedWith, closeEffects.
  assert (aborted (doAbort1 reason s) = true
          ∧ activeSubscriptions (doAbort1 reason s) = activeSubscriptions s - 1
          ∧ trace (doAbort1 reason s)
            = trace s ++ closeEffects reason s
          ∧ webSocket (doAbort1 reason s) = webSocket s
          ∧ state (doAbort1 reason s) = state s) as (Ha1 & Hn1 & Ht1 & Hw1 & Hs1).
  { unfold doAbort1, closeEffects. rewrite Hc.
    destruct (connectionResolved s); cbn -[Z.sub]; rewrite ?Ht, ?app_nil_r;
      rewrite <- ?app_assoc; done. }
  unfold closeEffects in Ht1.
  rewrite doAbort_unfold.
  generalize dependent (doAbort1 reason s). intros t Ha1 Hn1 Ht1 Hw1 Hs1.
  rewrite <- Hw1. by destruct t.
Qed.

(** A [doAbort] on a session that a [doAbort] has left changes nothing. *)
Lemma doAbort_idempotent r1 r2 s : doAbort r2 (doAbort r1 s) = doAbort r1 s.
Proof.
  rewrite (doAbort_unfold r1 s).
  destruct (doAbort1_fields r1 s) as (Ha & Hc & _).
  generalize dependent (doAbort1 r1 s). intros t Ha Hc.
  rewrite doAbort_unfold, doAbort1_settled by done.
  destruct t as [? ? ? ? ? ? ? ? ? [ws|] ? ?]; simpl; [|done].
  by rewrite closedSocket_twice.
Qed.

(** C8: on a session that is not aborted, the first [doAbort] sets [aborted],
    takes one off the active-subscription counter, calls the [onClose] hook
    of the timeout handler and the caller's close callback, and closes the
    socket, unless it is closed, with 4408 for [Timeout] and 1000 otherwise;
    a second [doAbort], with any reason, leaves the session as the first one
    left it, and so does a second [abort()]. *)
Theorem abort_idempotent (s : Session) (r1 r2 : CloseReason) :
  aborted s = false →
  closedWith r1 s (doAbort r1 s)
  ∧ doAbort r2 (doAbort r1 s) = doAbort r1 s
  ∧ abort (abort s) = abort s.
Proof.
  intros Hlive. split; [by apply doAbort_first|].
  split; apply doAbort_idempotent.
Qed.

Lemma abort_idempotent_witness :
  aborted liveSession = false
  ∧ doAbort Client (doAbort Timeout liveSession)
    = mkSession 0 false "subscription { p }" true
        (Some (mkHandler true true true true true)) true
        (Some (mkHandler true true true true true)) true JUndef
        (Some (mkSocket 2 [ConnectionInit JUndef; Subscribe "1" "subscription { p }"]
                 (Some 4408)))
        Connected [HandlerOnOpen; HandlerOnClose Timeout; OnClose Timeout].
Proof.
  split; [reflexivity|].
  destruct (abort_idempotent liveSession Timeout Client eq_refl) as (_ & -> & _).
  reflexivity.
Defined.

(** ** Dispatch of inbound frames *)

Lemma doError_ends text s :
  aborted s = false →
  endsWith [OnData (protocolError text)] Error s (doError (Http.ThrowStr text) s).
Proof.
  intros Hlive. unfold doError. rewrite Hlive. apply doAbort_first. exact Hlive.
Qed.

Lemma doData_doAbort_ends r reason s :
  aborted s = false →
  endsWith [OnData r] reason s (doAbort reason (doData r s)).
Proof.
  intros Hlive. unfold doData. rewrite Hlive. apply doAbort_first. exact Hlive.
Qed.

Lemma doAbort_ends reason s :
  aborted s = false → endsWith [] reason s (doAbort reason s).
Proof.
  intros Hlive. unfold endsWith. rewrite app_nil_r.
  replace (withTrace (trace s) s) with s by (by destruct s).
  by apply doAbort_first.
Qed.

Lemma hook_fields has ev s :
  aborted (hook has ev s) = aborted s
  ∧ state (hook has ev s) = state s
  ∧ webSocket (hook has ev s) = webSocket s
  ∧ timeoutHandler (hook has ev s) = timeoutHandler s
  ∧ connectionResolved (hook has ev s) = connectionResolved s
  ∧ activeSubscriptions (hook has ev s) = activeSubscriptions s
  ∧ request (hook has ev s) = request s.
Proof.
  unfold hook. destruct (timeoutHandler s) as [h|] eqn:Hh; [|by rewrite Hh].
  destruct (has h); simpl; by rewrite Hh.
Qed.

Lemma logConnectionError_fields m s :
  aborted (logConnectionError m s) = aborted s
  ∧ state (logConnectionError m s) = state s.
Proof. unfold logConnectionError. by destruct (logsConnectionErrors s). Qed.

Lemma onmessage_dispatch raw message consumed s :
  aborted s = false → message ≠ JNull → intercepted consumed s = false →
  onmessage (Text raw (Some message)) consumed s
  = dispatchMessage raw message (hook hasOnInbound (HandlerOnInbound message) s).
Proof.
  intros Hlive Hnull Hpass. unfold onmessage, parseAndDispatch.
  rewrite Hlive, Hpass. by destruct message.
Qed.

Lemma send_open msg s ws :
  aborted s = false → webSocket s = Some ws → readyState ws = 1%nat →
  aborted (send msg s) = false
  ∧ state (send msg s) = state s
  ∧ webSocket (send msg s) = Some (mkSocket 1 (sent ws ++ [msg]) (closeCode ws)).
Proof.
  intros Hlive Hws Hopen. unfold send. rewrite Hws, Hlive, Hopen. simpl.
  destruct (hook_fields hasOnOutbound (HandlerOnOutbound msg)
              (withSocket (Some (mkSocket 1 (sent ws ++ [msg]) (closeCode ws))) s))
    as (-> & -> & -> & _).
  done.
Qed.

Lemma isString_inj j a b : isString j a = true → isString j b = true → a = b.
Proof.
  destruct j; simpl; try done. rewrite !String.eqb_eq. by intros <- <-.
Qed.

Lemma isString_other j a b : isString j a = true → a ≠ b → isString j b = false.
Proof.
  intros Ha Hne. destruct (isString j b) eqn:Hb; [|done].
  by destruct (Hne (isString_inj _ _ _ Ha Hb)).
Qed.

(** C7, as amended: take a session that is not aborted and whose socket is
    open, and a text frame that parses to a non-null message which the
    timeout handler does not consume; [s1] is the session once the handler
    has seen the frame.  A [ping] is answered with a [pong] of the same
    payload, the state unchanged.  While [Opening], a [next] closes the
    session with [Error] after an error result, and a [connection_ack] moves
    to [Connected] and sends [subscribe] with id "1".  While [Connected], a
    [next] with the id and with data or errors is delivered with
    [networkError] false and the length of the raw text as size; an [error]
    with the id and a payload delivers a result carrying only the errors and
    closes with [ServerError]; a [complete] with the id closes with [Server];
    every other frame that is not a [ping] closes with [Error]. *)
Theorem frame_dispatch (s : Session) (ws : WebSocket) (raw : string)
  (message : json) (consumed : bool) :
  aborted s = false → webSocket s = Some ws → readyState ws = 1%nat →
  message ≠ JNull → intercepted consumed s = false →
  let s1 := hook hasOnInbound (HandlerOnInbound message) s in
  let s' := onmessage (Text raw (Some message)) consumed s in
  (isString (frameType message) "ping" = true →
     aborted s' = false ∧ state s' = state s
     ∧ webSocket s'
       = Some (mkSocket 1 (sent ws ++ [Pong (framePayload message)]) (closeCode ws)))
  ∧ (state s = Opening → isString (frameType message) "next" = true →
     endsWith
       [OnData (protocolError "Invalid connection response from WebSocket server")]
       Error (logConnectionError (Some message) s1) s')
  ∧ (state s = Opening → isString (frameType message) "connection_ack" = true →
     aborted s' = false ∧ state s' = Connected
     ∧ webSocket s'
       = Some (mkSocket 1 (sent ws ++ [Subscribe "1" (request s)]) (closeCode ws)))
  ∧ (state s = Connected → validNext message = true →
     s' = withTrace
            (trace s1
             ++ [OnData (Http.mkResult
                           (get_prop (framePayload message) "data")
                           (get_prop (framePayload message) "errors")
                           false
                           (Http.strlen raw)
                           (Http.ExtJson (get_prop (framePayload message) "extensions")))])
            s1)
  ∧ (state s = Connected → validError message = true →
     endsWith
       [OnData (Http.mkResult JUndef (framePayload message) false (Http.strlen raw)
                  (Http.ExtJson JUndef))]
       ServerError s1 s')
  ∧ (state s = Connected → validComplete message = true →
     endsWith [] Server s1 s')
  ∧ (state s = Connected → isString (frameType message) "ping" = false →
     validNext message = false → validError message = false →
     validComplete message = false →
     ∃ text, endsWith [OnData (protocolError text)] Error s1 s').
Proof.
  intros Hlive Hws Hopen Hnull Hpass s1 s'.
  assert (Hs' : s' = dispatchMessage raw message s1)
    by (by apply onmessage_dispatch).
  destruct (hook_fields hasOnInbound (HandlerOnInbound message) s)
    as (Hab & Hst & Hsock & _ & Hcr & _ & Hreq).
  fold s1 in Hab, Hst, Hsock, Hcr, Hreq.
  rewrite Hlive in Hab. rewrite Hws in Hsock.
  unfold validNext, validError, validComplete, frameType, frameId, framePayload.
  rewrite Hs'. unfold dispatchMessage. rewrite Hst.
  split_and!.
  - intros ->.
    destruct (send_open (Pong (get_prop message "payload")) s1 ws Hab Hsock Hopen)
      as (-> & -> & ->).
    by rewrite Hst.
  - intros -> Hnext.
    rewrite (isString_other _ _ "ping" Hnext), (isString_other _ _ "connection_ack" Hnext)
      by done.
    simpl. apply doError_ends.
    by destruct (logConnectionError_fields (Some message) s1) as [-> _].
  - intros -> Hack.
    rewrite (isString_other _ _ "ping" Hack) by done. rewrite Hack. cbn [negb].
    match goal with
    | |- context [hook hasOnAck HandlerOnAck ?x] => set (s2 := x)
    end.
    assert (aborted s2 = false ∧ state s2 = Connected
            ∧ webSocket s2 = Some ws ∧ request s2 = request s) as (H1 & H2 & H3 & H4).
    { unfold s2. simpl. destruct (connectionResolved s1); simpl; [done|].
      destruct (hasOptionsOnOpen s1); simpl; done. }
    destruct (hook_fields hasOnAck HandlerOnAck s2) as (Ha & Hb & Hc & _).
    rewrite H4.
    destruct (send_open (Subscribe subscriptionId (request s))
                (hook hasOnAck HandlerOnAck s2) ws) as (-> & -> & ->);
      [congruence|congruence|done|]. rewrite Hb. done.
  - intros -> Hvalid.
    apply andb_true_iff in Hvalid as [Hvalid Hde].
    apply andb_true_iff in Hvalid as [Hvalid Hpl].
    apply andb_true_iff in Hvalid as [Hnext Hid].
    rewrite (isString_other _ _ "ping" Hnext) by done.
    rewrite Hnext, Hid, Hpl. simpl.
    apply orb_true_iff in Hde.
    replace (negb (truthy (get_prop (get_prop message "payload") "data"))
             && negb (truthy (get_prop (get_prop message "payload") "errors")))
      with false by (by destruct Hde as [-> | ->]; rewrite ?andb_false_r).
    unfold doData, emit. by rewrite Hab.
  - intros -> Hvalid.
    apply andb_true_iff in Hvalid as [Hvalid Hpl].
    apply andb_true_iff in Hvalid as [Herr Hid].
    rewrite (isString_other _ _ "ping" Herr), (isString_other _ _ "next" Herr) by done.
    rewrite Herr, Hid, Hpl. simpl. by apply doData_doAbort_ends.
  - intros -> Hvalid.
    apply andb_true_iff in Hvalid as [Hcomp Hid].
    rewrite (isString_other _ _ "ping" Hcomp), (isString_other _ _ "next" Hcomp),
      (isString_other _ _ "error" Hcomp) by done.
    rewrite Hcomp, Hid. simpl. by apply doAbort_ends.
  - intros -> -> Hnext Herr Hcomp.
    destruct (isString (get_prop message "type") "next") eqn:Htn.
    { simpl in Hnext. eexists.
      match goal with
      | |- context [if ?b then _ else _] => replace b with true
      end; [by apply doError_ends|].
      destruct (isString (get_prop message "id") subscriptionId),
        (truthy (get_prop message "payload")),
        (truthy (get_prop (get_prop message "payload") "data")),
        (truthy (get_prop (get_prop message "payload") "errors"));
        simpl in Hnext |- *; done. }
    destruct (isString (get_prop message "type") "error") eqn:Hte.
    { simpl in Herr. eexists.
      match goal with
      | |- context [if ?b then _ else _] => replace b with true
      end; [by apply doError_ends|].
      destruct (isString (get_prop message "id") subscriptionId),
        (truthy (get_prop message "payload")); simpl in Herr |- *; done. }
    destruct (isString (get_prop message "type") "complete") eqn:Htc.
    { simpl in Hcomp. rewrite Hcomp. simpl. eexists. by apply doError_ends. }
    eexists. by apply doError_ends.
Qed.

Lemma frame_dispatch_witness :
  aborted liveSession = false
  ∧ webSocket liveSession
    = Some (mkSocket 1 [ConnectionInit JUndef; Subscribe "1" "subscription { p }"] None)
  ∧ nextFrame ≠ JNull
  ∧ intercepted false liveSession = false
  ∧ trace (onmessage (Text (stringify nextFrame) (Some nextFrame)) false liveSession)
    = [HandlerOnOpen; HandlerOnInbound nextFrame;
       OnData (Http.mkResult (JObj [("p", JNum 1)]) JUndef false (Num 51)
                 (Http.ExtJson JUndef))].
Proof.
  split; [reflexivity|]. split; [reflexivity|]. split; [discriminate|].
  split; [reflexivity|].
  destruct (frame_dispatch liveSession
              (mkSocket 1 [ConnectionInit JUndef; Subscribe "1" "subscription { p }"] None)
              (stringify nextFrame) nextFrame false
              eq_refl eq_refl eq_refl ltac:(discriminate) eq_refl)
    as (_ & _ & _ & Hnext & _).
  rewrite (Hnext eq_refl eq_refl). reflexivity.
Defined.

(** An [error] frame with the subscription's id and no payload, received
    while [Connected], is answered as a protocol violation: the sink gets an
    error result and the session closes with [Error], not with
    [ServerError]. *)
Lemma error_frame_without_payload :
  state liveSession = Connected
  ∧ isString (frameType bareErrorFrame) "error" = true
  ∧ isString (frameId bareErrorFrame) subscriptionId = true
  ∧ trace (onmessage (Text (stringify bareErrorFrame) (Some bareErrorFrame)) false
             liveSession)
    = [HandlerOnOpen; HandlerOnInbound bareErrorFrame;
       OnData (protocolError "Invalid payload for 'error' packet");
       HandlerOnClose Error; OnClose Error]
  ∧ ¬ ∃ r, endsWith [OnData r] ServerError
             (hook hasOnInbound (HandlerOnInbound bareErrorFrame) liveSession)
             (onmessage (Text (stringify bareErrorFrame) (Some bareErrorFrame)) false
                liveSession).
Proof.
  split_and!; [reflexivity|reflexivity|reflexivity|reflexivity|].
  intros (r & _ & _ & Htrace & _). vm_compute in Htrace. discriminate Htrace.
Qed.

(** The scenario of the spec: [connection_ack], then a [next] with data
    {p:1}, then [complete]: one data callback, one close callback with
    [Server], and the counter back where it was. *)
Example subscription_scenario :
  trace completedSession
  = [ResolveConnection;
     OnData (Http.mkResult (JObj [("p", JNum 1)]) JUndef false (Num 51)
               (Http.ExtJson JUndef));
     OnClose Server]
  ∧ activeSubscriptions completedSession = 0
  ∧ webSocket completedSession
    = Some (mkSocket 2 [ConnectionInit JUndef; Subscribe "1" "subscription { p }"]
              (Some 1000)).
Proof. split_and!; reflexivity. Qed.

End SubscriptionFacts.

(** * Properties of the cache store *)
Module CacheFacts.
Import JS Cache.

(** ** The map *)

Lemma filter_ext_in {A} (P Q : A → Prop) `{!∀ x, Decision (P x), !∀ x, Decision (Q x)}
  (l : list A) :
  (∀ x, x ∈ l → (P x ↔ Q x)) → filter P l = filter Q l.
Proof.
  induction l as [|x l IH]; intros Hext; [done|].
  rewrite !filter_cons.
  rewrite IH by (intros y Hy; apply Hext; by right).
  destruct (decide (P x)) as [HP|HP], (decide (Q x)) as [HQ|HQ]; try done.
  - destruct HQ. apply Hext; [by left|done].
  - destruct HP. apply Hext; [by left|done].
Qed.

Lemma mapGet_elem k e m : mapGet k m = Some e → (k, e) ∈ m.
Proof.
  induction m as [|[k' v] m IH]; simpl; [done|].
  destruct (String.eqb k k') eqn:Hk.
  - apply String.eqb_eq in Hk as <-. intros [= ->]. by left.
  - intros H. right. by apply IH.
Qed.

Lemma mapGet_None k m : k ∉ m.*1 → mapGet k m = None.
Proof.
  induction m as [|[k' v] m IH]; simpl; [done|].
  intros Hk. apply not_elem_of_cons in Hk as [Hne Hk].
  apply String.eqb_neq in Hne as ->. by apply IH.
Qed.

Lemma mapGet_Some k e m : NoDup m.*1 → (k, e) ∈ m → mapGet k m = Some e.
Proof.
  induction m as [|[k' v] m IH]; simpl; intros Hnd Hin.
  - by apply elem_of_nil in Hin.
  - apply NoDup_cons in Hnd as [Hk' Hnd].
    apply elem_of_cons in Hin as [[= <- <-]|Hin].
    + by rewrite String.eqb_refl.
    + destruct (String.eqb k k') eqn:Hk.
      * apply String.eqb_eq in Hk as <-. destruct Hk'.
        by apply (list_elem_of_fmap_2 fst _ (k, e)).
      * by apply IH.
Qed.

Lemma mapGet_is_Some k m : k ∈ m.*1 → is_Some (mapGet k m).
Proof.
  induction m as [|[k' v] m IH]; simpl; intros Hin.
  - by apply elem_of_nil in Hin.
  - destruct (String.eqb k k') eqn:Hk; [by eexists|].
    apply String.eqb_neq in Hk.
    apply elem_of_cons in Hin as [?|Hin]; [done|by apply IH].
Qed.

Lemma mapRemove_elem k p m : p ∈ mapRemove k m ↔ p.1 ≠ k ∧ p ∈ m.
Proof. unfold mapRemove. by rewrite list_elem_of_filter. Qed.

Lemma keys_filter (P : string * nat → Prop) `{!∀ x, Decision (P x)} m :
  NoDup m.*1 → NoDup (filter P m).*1.
Proof.
  induction m as [|p m IH]; simpl; intros Hnd; [constructor|].
  apply NoDup_cons in Hnd as [Hp Hnd]. rewrite filter_cons.
  destruct (decide (P p)); [|by apply IH].
  csimpl. apply NoDup_cons. split; [|by apply IH].
  intros Hin. apply Hp. apply list_elem_of_fmap in Hin as (q & -> & Hq).
  apply list_elem_of_filter in Hq as [_ Hq]. by apply list_elem_of_fmap_2.
Qed.

Lemma mapSet_fresh k v m : k ∉ m.*1 → mapSet k v m = m ++ [(k, v)].
Proof.
  induction m as [|[k' v'] m IH]; simpl; [done|].
  intros Hk. apply not_elem_of_cons in Hk as [Hne Hk].
  apply String.eqb_neq in Hne as ->. by rewrite IH.
Qed.

(** ** The representation invariant *)

Lemma wf_key st k e : wf st → (k, e) ∈ cache st →
  queryAndVariablesString (entry st e) = k.
Proof. intros [_ H] Hin. by apply H. Qed.

Lemma wf_unique_ref st k e e' :
  wf st → (k, e) ∈ cache st → (k, e') ∈ cache st → e = e'.
Proof.
  intros [Hnd _] H1 H2.
  apply (mapGet_Some _ _ _ Hnd) in H1, H2. congruence.
Qed.

Lemma wf_unique_key st k k' e :
  wf st → (k, e) ∈ cache st → (k', e) ∈ cache st → k = k'.
Proof.
  intros Hwf H1 H2.
  by rewrite <- (wf_key st k e Hwf H1), <- (wf_key st k' e Hwf H2).
Qed.

Lemma wf_refs_NoDup st : wf st → NoDup (cache st).*2.
Proof.
  intros Hwf. pose proof Hwf as [Hnd _].
  assert (Hinj : ∀ p q, p ∈ cache st → q ∈ cache st → p.2 = q.2 → p = q).
  { intros [k e] [k' e'] Hp Hq. simpl. intros <-.
    by rewrite (wf_unique_key st k k' e Hwf Hp Hq). }
  apply NoDup_fmap_1 in Hnd. revert Hnd Hinj.
  generalize (cache st). intros m. induction m as [|p m IH]; intros Hnd Hinj.
  - constructor.
  - apply NoDup_cons in Hnd as [Hp Hnd]. csimpl. apply NoDup_cons. split.
    + intros Hin. apply list_elem_of_fmap in Hin as (q & Heq & Hq).
      apply Hp. rewrite (Hinj p q); [done|by left|by right|done].
    + apply IH; [done|]. intros x y Hx Hy. apply Hinj; by right.
Qed.

(** A change of the map to a part of it, and of the running total, keeps
    the invariant. *)
Lemma wf_filter (P : string * nat → Prop) `{!∀ x, Decision (P x)} z st :
  wf st → wf (withCacheSize z (withCache (filter P (cache st)) st)).
Proof.
  intros [Hnd Hent]. split; simpl.
  - by apply keys_filter.
  - intros k e Hin. apply list_elem_of_filter in Hin as [_ Hin].
    by apply Hent.
Qed.

Lemma wf_withCacheSize z st : wf st → wf (withCacheSize z st).
Proof. intros [Hnd Hent]. by split. Qed.

(** In a well-formed store, removing a key is removing its entry. *)
Lemma mapRemove_ref st k e :
  wf st → (k, e) ∈ cache st →
  mapRemove k (cache st) = filter (λ p, p.2 ≠ e) (cache st).
Proof.
  intros Hwf Hin. unfold mapRemove. apply filter_ext_in.
  intros [k' e'] Hin'. simpl. split.
  - intros Hne ->. apply Hne. by apply (wf_unique_key st k' k e).
  - intros Hne ->. apply Hne. by apply (wf_unique_ref st k e' e).
Qed.

(** [evict] on an entry of the map removes it and deducts its size. *)
Lemma evict_member st k e :
  wf st → (k, e) ∈ cache st → evict e st = removeEntry k e st.
Proof.
  intros Hwf Hin. unfold evict.
  rewrite (wf_key st k e Hwf Hin).
  destruct Hwf as [Hnd _]. by rewrite (mapGet_Some k e _ Hnd Hin).
Qed.

Lemma wf_removeEntry st k e : wf st → wf (removeEntry k e st).
Proof. intros Hwf. unfold removeEntry, mapRemove. by apply wf_filter. Qed.

Lemma refs_elem st e : e ∈ (cache st).*2 ↔ ∃ k, (k, e) ∈ cache st.
Proof.
  rewrite list_elem_of_fmap. split.
  - intros ([k e'] & -> & Hin). by exists k.
  - intros (k & Hin). by exists (k, e).
Qed.

(** ** Step (1) of [allocateCacheSize] *)

Lemma sumSizes_heap st st' l : heap st = heap st' → sumSizes st l = sumSizes st' l.
Proof. unfold sumSizes, entry. by intros ->. Qed.

Lemma filter_True {A} (P : A → Prop) `{!∀ x, Decision (P x)} (l : list A) :
  (∀ x, x ∈ l → P x) → filter P l = l.
Proof.
  induction l as [|x l IH]; intros HP; [done|].
  rewrite filter_cons, decide_True by (apply HP; by left).
  f_equal. apply IH. intros y Hy. apply HP. by right.
Qed.

(** Evicting distinct entries of the map one after the other. *)
Lemma evict_all l : ∀ st,
  wf st → NoDup l → (∀ e, e ∈ l → e ∈ (cache st).*2) →
  foldl (λ s e, evict e s) st l
  = withCacheSize (cacheSize st - sumSizes st l)
      (withCache (filter (λ p, p.2 ∉ l) (cache st)) st).
Proof.
  induction l as [|e l IH]; intros st Hwf Hnd Hin; simpl.
  - rewrite filter_True by (intros; apply not_elem_of_nil).
    destruct st; unfold withCacheSize, withCache; simpl; f_equal; lia.
  - apply NoDup_cons in Hnd as [He Hnd].
    destruct (proj1 (refs_elem st e) (Hin e ltac:(by left))) as [k Hk].
    rewrite (evict_member st k e Hwf Hk).
    rewrite IH; [|by apply wf_removeEntry|done|].
    + rewrite (sumSizes_heap (removeEntry k e st) st l) by done.
      unfold removeEntry. rewrite (mapRemove_ref st k e Hwf Hk). simpl.
      rewrite list_filter_filter.
      unfold withCacheSize, withCache; simpl. f_equal.
      * apply list_filter_iff. intros [k' e']. simpl.
        rewrite not_elem_of_cons. tauto.
      * lia.
    + intros e' He'.
      destruct (proj1 (refs_elem st e') (Hin e' ltac:(by right))) as [k' Hk'].
      apply refs_elem. exists k'. unfold removeEntry; simpl.
      apply mapRemove_elem; simpl. split; [|done].
      intros ->. apply He. by rewrite <- (wf_unique_ref st k e' e Hwf Hk' Hk).
Qed.

Lemma idleExpired_spec nowDate st e :
  idleExpired nowDate (entry st e) = true ↔ idleAndExpired nowDate st e.
Proof.
  unfold idleExpired, idleAndExpired.
  rewrite andb_true_iff, Nat.eqb_eq, Z.ltb_lt, length_zero_iff_nil. done.
Qed.

Lemma entriesToRemove_spec nowDate st :
  entriesToRemove nowDate st = filter (idleAndExpired nowDate st) (cache st).*2.
Proof.
  unfold entriesToRemove. apply list_filter_iff. intros e.
  apply idleExpired_spec.
Qed.

(** The first two [forEach]s do step (1). *)
Lemma remove_expired nowDate st :
  wf st →
  foldl (λ s e, evict e s) st (entriesToRemove nowDate st) = dropExpired nowDate st.
Proof.
  intros Hwf. rewrite evict_all; [|done| |].
  - unfold dropExpired. rewrite entriesToRemove_spec. f_equal. f_equal.
    apply filter_ext_in. intros [k e] Hin. simpl.
    rewrite list_elem_of_filter, refs_elem. split.
    + intros Hn Hie. apply Hn. split; [done|by exists k].
    + intros Hn [Hie _]. by apply Hn.
  - unfold entriesToRemove. apply NoDup_filter. by apply wf_refs_NoDup.
  - intros e He. unfold entriesToRemove in He.
    by apply list_elem_of_filter in He as [_ He].
Qed.

Lemma wf_dropExpired nowDate st : wf st → wf (dropExpired nowDate st).
Proof. intros Hwf. unfold dropExpired. by apply wf_filter. Qed.

(** ** Step (2) of [allocateCacheSize] *)

Lemma evictable_spec exclude st e :
  evictable exclude st e = true ↔ candidate exclude st e.
Proof.
  unfold evictable, candidate.
  rewrite andb_true_iff, Nat.eqb_eq, negb_true_iff, bool_decide_eq_false,
    length_zero_iff_nil.
  done.
Qed.

Lemma oldest_fold exclude st l : ∀ acc,
  match foldl (oldestStep exclude st) acc l with
  | None => acc = None ∧ ∀ e, e ∈ l → ¬ candidate exclude st e
  | Some o =>
      (acc = Some o ∨ (o ∈ l ∧ candidate exclude st o))
      ∧ (∀ a, acc = Some a → lastUsed (entry st o) ≤ lastUsed (entry st a))
      ∧ (∀ e, e ∈ l → candidate exclude st e →
              lastUsed (entry st o) ≤ lastUsed (entry st e))
  end.
Proof.
  induction l as [|x l IH]; intros acc; simpl.
  - destruct acc as [a|].
    + split_and!; [by left|by intros ? [= ->]|by intros ? ?%elem_of_nil].
    + split; [done|by intros ? ?%elem_of_nil].
  - specialize (IH (oldestStep exclude st acc x)).
    pose proof (evictable_spec exclude st x) as Hx.
    remember (oldestStep exclude st acc x) as acc' eqn:Hacc.
    unfold oldestStep in Hacc.
    destruct (foldl (oldestStep exclude st) acc' l) as [o|].
    + destruct IH as (IH1 & IH2 & IH3).
      destruct (evictable exclude st x).
      * assert (Hcx : candidate exclude st x) by (by apply Hx).
        destruct acc as [a|].
        -- destruct (lastUsed (entry st x) <? lastUsed (entry st a)) eqn:Hlt;
             subst acc'.
           ++ apply Z.ltb_lt in Hlt. specialize (IH2 x eq_refl). split_and!.
              ** destruct IH1 as [[= <-]|[Ho Hc]]; right;
                   (split; [|done]); [by left|by right].
              ** intros ? [= <-]. lia.
              ** intros e [->|He]%elem_of_cons Hc; [done|by apply IH3].
           ++ apply Z.ltb_ge in Hlt. specialize (IH2 a eq_refl). split_and!.
              ** destruct IH1 as [?|[Ho Hc]]; [by left|right].
                 split; [by right|done].
              ** by intros ? [= <-].
              ** intros e [->|He]%elem_of_cons Hc; [lia|by apply IH3].
        -- subst acc'. specialize (IH2 x eq_refl). split_and!.
           ++ destruct IH1 as [[= <-]|[Ho Hc]]; right;
                (split; [|done]); [by left|by right].
           ++ done.
           ++ intros e [->|He]%elem_of_cons Hc; [done|by apply IH3].
      * subst acc'. split_and!.
        -- destruct IH1 as [?|[Ho Hc]]; [by left|right].
           split; [by right|done].
        -- done.
        -- intros e [->|He]%elem_of_cons Hc; [|by apply IH3].
           apply Hx in Hc. done.
    + destruct IH as [IH1 IH2]. subst acc'.
      destruct (evictable exclude st x).
      * destruct acc as [a|]; [|done].
        by destruct (lastUsed (entry st x) <? lastUsed (entry st a)).
      * split; [done|].
        intros e [->|He]%elem_of_cons Hc; [|by apply (IH2 e)].
        apply Hx in Hc. done.
Qed.

(** No oldest entry: the map has no candidate. *)
Lemma oldestEntry_None exclude st :
  oldestEntry exclude st = None →
  ∀ k e, (k, e) ∈ cache st → ¬ candidate exclude st e.
Proof.
  intros Hnone k e Hin.
  pose proof (oldest_fold exclude st (cache st).*2 None) as H.
  change (foldl (oldestStep exclude st) None (cache st).*2)
    with (oldestEntry exclude st) in H.
  rewrite Hnone in H. destruct H as [_ H]. apply H.
  apply refs_elem. by exists k.
Qed.

(** The oldest entry is a candidate of the map, and no candidate was used
    before it. *)
Lemma oldestEntry_Some exclude st o :
  oldestEntry exclude st = Some o →
  (∃ k, (k, o) ∈ cache st)
  ∧ candidate exclude st o
  ∧ ∀ k e, (k, e) ∈ cache st → candidate exclude st e →
           lastUsed (entry st o) ≤ lastUsed (entry st e).
Proof.
  intros Hsome.
  pose proof (oldest_fold exclude st (cache st).*2 None) as H.
  change (foldl (oldestStep exclude st) None (cache st).*2)
    with (oldestEntry exclude st) in H.
  rewrite Hsome in H. destruct H as ([?|[Ho Hc]] & _ & Hmin); [done|].
  split_and!; [by apply refs_elem|done|].
  intros k e Hin. apply Hmin. apply refs_elem. by exists k.
Qed.

Lemma removeEntry_length st k e :
  (k, e) ∈ cache st →
  (length (cache (removeEntry k e st)) < length (cache st))%nat.
Proof.
  intros Hin. unfold removeEntry, mapRemove. simpl.
  apply (length_filter_lt _ _ (k, e)); [done|]. simpl. by intros H; apply H.
Qed.

(** The loop ends when it has one round more than the map has entries, and
    does step (2). *)
Lemma evictLoop_spec newSize exclude fuel : ∀ st,
  wf st → (length (cache st) < fuel)%nat →
  ∃ st', evictLoop fuel newSize exclude st = Some st'
         ∧ evictsUntilFits newSize exclude st st'.
Proof.
  induction fuel as [|fuel IH]; intros st Hwf Hfuel; [lia|].
  simpl. destruct (needBytes newSize st <=? 0) eqn:Hneed.
  { apply Z.leb_le in Hneed. exists st. split; [done|by constructor]. }
  apply Z.leb_gt in Hneed.
  destruct (oldestEntry exclude st) as [o|] eqn:Hold.
  - destruct (oldestEntry_Some _ _ _ Hold) as ([k Hk] & Hc & Hmin).
    rewrite (evict_member st k o Hwf Hk).
    destruct (IH (removeEntry k o st)) as (st' & Hrun & Hspec).
    + by apply wf_removeEntry.
    + pose proof (removeEntry_length st k o Hk). lia.
    + exists st'. split; [done|]. by eapply evicts_oldest.
  - exists st. split; [done|]. apply evicts_no_candidate; [done|].
    by apply oldestEntry_None.
Qed.

(** ** What eviction keeps *)

Lemma sameButCache_refl st : sameButCache st st.
Proof. by destruct st. Qed.

Lemma sameButCache_heap st st' : sameButCache st st' → heap st' = heap st.
Proof. by intros ->. Qed.

Lemma sameButCache_entry st st' e : sameButCache st st' → entry st' e = entry st e.
Proof. intros H. unfold entry. by rewrite (sameButCache_heap _ _ H). Qed.

(** An entry with a subscriber stays through step (2), and nothing but the
    map and the total changes. *)
Lemma evictsUntilFits_keeps newSize exclude st st' :
  wf st → evictsUntilFits newSize exclude st st' →
  wf st'
  ∧ sameButCache st st'
  ∧ (∀ p, p ∈ cache st' → p ∈ cache st)
  ∧ ∀ k e, (k, e) ∈ cache st → subscribers (entry st e) ≠ [] → (k, e) ∈ cache st'.
Proof.
  intros Hwf Hev. induction Hev as [st _|st _ _|st k e st' _ Hk Hc _ _ IH].
  - split_and!; [done|apply sameButCache_refl|done|done].
  - split_and!; [done|apply sameButCache_refl|done|done].
  - destruct (IH (wf_removeEntry st k e Hwf)) as (Hwf' & Hsame & Hsub & Hkeep).
    split_and!.
    + done.
    + unfold sameButCache in *. rewrite Hsame at 1. done.
    + intros p Hp. apply Hsub in Hp. unfold removeEntry in Hp; simpl in Hp.
      by apply mapRemove_elem in Hp as [_ Hp].
    + intros k' e' Hk' Hsubs. apply Hkeep.
      * unfold removeEntry; simpl. apply mapRemove_elem; simpl.
        split; [|done]. intros ->. destruct Hc as [Hidle _].
        apply Hsubs. by rewrite (wf_unique_ref st k e' e Hwf Hk' Hk).
      * done.
Qed.

(** Step (1) keeps the entries with a subscriber as well. *)
Lemma dropExpired_keeps nowDate st k e :
  (k, e) ∈ cache st → subscribers (entry st e) ≠ [] →
  (k, e) ∈ cache (dropExpired nowDate st).
Proof.
  intros Hin Hsubs. unfold dropExpired; simpl.
  apply list_elem_of_filter. split; [|done]. simpl. by intros [? _].
Qed.

(** ** The running total *)

Lemma refs_filter (Q : nat → Prop) `{!∀ x, Decision (Q x)} (m : list (string * nat)) :
  (filter (λ p, Q p.2) m).*2 = filter Q m.*2.
Proof.
  induction m as [|[k e] m IH]; [done|].
  csimpl. rewrite !filter_cons. simpl.
  destruct (decide (Q e)); csimpl; by rewrite IH.
Qed.

Lemma sumSizes_filter (Q : nat → Prop) `{!∀ x, Decision (Q x)} st l :
  sumSizes st (filter (λ x, ¬ Q x) l) = sumSizes st l - sumSizes st (filter Q l).
Proof.
  induction l as [|x l IH]; [done|].
  rewrite !filter_cons. destruct (decide (Q x)) as [HQ|HQ].
  - rewrite decide_False by tauto. simpl. lia.
  - rewrite decide_True by done. simpl. lia.
Qed.

Lemma sumSizes_remove st l e :
  NoDup l → e ∈ l →
  sumSizes st (filter (λ x, x ≠ e) l) = sumSizes st l - size (entry st e).
Proof.
  induction 1 as [|x l Hx Hnd IH]; intros Hin.
  - by apply elem_of_nil in Hin.
  - rewrite filter_cons. destruct (decide (x = e)) as [->|Hne].
    + rewrite decide_False by tauto.
      rewrite filter_True by (intros y Hy ->; done). simpl. lia.
    + rewrite decide_True by done. simpl. rewrite IH; [lia|].
      apply elem_of_cons in Hin as [->|Hin]; done.
Qed.

Lemma totalSize_removeEntry st k e :
  wf st → (k, e) ∈ cache st →
  totalSize (removeEntry k e st) = totalSize st - size (entry st e).
Proof.
  intros Hwf Hin. unfold totalSize.
  rewrite (sumSizes_heap (removeEntry k e st) st) by done.
  change (cache (removeEntry k e st)) with (mapRemove k (cache st)).
  rewrite (mapRemove_ref st k e Hwf Hin).
  pose proof (refs_filter (λ x, x ≠ e) (cache st)) as Hrefs.
  cbv beta in Hrefs. rewrite Hrefs.
  apply sumSizes_remove; [by apply wf_refs_NoDup|].
  apply refs_elem. by exists k.
Qed.

Lemma totalSize_dropExpired nowDate st :
  totalSize (dropExpired nowDate st)
  = totalSize st - sumSizes st (filter (idleAndExpired nowDate st) (cache st).*2).
Proof.
  unfold totalSize.
  rewrite (sumSizes_heap (dropExpired nowDate st) st) by done.
  change (cache (dropExpired nowDate st))
    with (filter (λ p, ¬ idleAndExpired nowDate st p.2) (cache st)).
  pose proof (refs_filter (λ e, ¬ idleAndExpired nowDate st e) (cache st)) as Hrefs.
  cbv beta in Hrefs. rewrite Hrefs.
  apply sumSizes_filter.
Qed.

Lemma surplus_dropExpired nowDate st :
  surplus (dropExpired nowDate st) = surplus st.
Proof.
  unfold surplus. rewrite totalSize_dropExpired. unfold dropExpired; simpl. lia.
Qed.

Lemma surplus_evictsUntilFits newSize exclude st st' :
  wf st → evictsUntilFits newSize exclude st st' → surplus st' = surplus st.
Proof.
  intros Hwf Hev. induction Hev as [st _|st _ _|st k e st' _ Hk Hc _ _ IH];
    [done|done|].
  rewrite IH by (by apply wf_removeEntry).
  unfold surplus. rewrite totalSize_removeEntry by done.
  unfold removeEntry; simpl. lia.
Qed.

(** ** [allocateCacheSize] *)

(** [allocateCacheSize] in a well-formed store: it returns, and does what the
    spec says. *)
Lemma allocate_spec (nowDate newSize : Z) (exclude : option nat) (st : Client) :
  wf st →
  ∃ st',
    allocateCacheSize nowDate newSize exclude st = Some st'
    ∧ (needBytes newSize st ≤ 0 → st' = st)
    ∧ (0 < needBytes newSize st →
       evictsUntilFits newSize exclude (dropExpired nowDate st) st')
    ∧ cacheSize st - cacheSize st' = totalSize st - totalSize st'
    ∧ sameButCache st st'
    ∧ wf st'
    ∧ (∀ p, p ∈ cache st' → p ∈ cache st)
    ∧ ∀ k e, (k, e) ∈ cache st → subscribers (entry st e) ≠ [] →
             (k, e) ∈ cache st'.
Proof.
  intros Hwf. unfold allocateCacheSize.
  destruct (needBytes newSize st <=? 0) eqn:Hneed.
  - apply Z.leb_le in Hneed. exists st.
    split_and!; [done|done|lia|lia|apply sameButCache_refl|done|done|done].
  - apply Z.leb_gt in Hneed. rewrite (remove_expired nowDate st Hwf).
    pose proof (wf_dropExpired nowDate st Hwf) as Hwf1.
    destruct (evictLoop_spec newSize exclude
                (S (length (cache (dropExpired nowDate st))))
                (dropExpired nowDate st) Hwf1 ltac:(lia)) as (st' & Hrun & Hev).
    destruct (evictsUntilFits_keeps _ _ _ _ Hwf1 Hev) as (Hwf' & Hsame & Hsub & Hkeep).
    pose proof (surplus_evictsUntilFits _ _ _ _ Hwf1 Hev) as Hs.
    rewrite surplus_dropExpired in Hs. unfold surplus in Hs.
    exists st'. split_and!; [done|lia|done|lia| |done| |].
    + unfold sameButCache in *. rewrite Hsame at 1. done.
    + intros q Hq. apply Hsub in Hq. unfold dropExpired in Hq; simpl in Hq.
      by apply list_elem_of_filter in Hq as [_ Hq].
    + intros k e Hin Hsubs. apply Hkeep; [by apply dropExpired_keeps|].
      by rewrite (sameButCache_entry st) by (by unfold sameButCache, dropExpired).
Qed.

(** C1: in a well-formed store [allocateCacheSize] returns; it changes
    nothing when [cacheSize + newSize - maxCacheSize] is at most 0; otherwise
    it first drops every entry with zero subscribers whose [expires] is in
    the past, deducting the sizes, and then, while still over budget, evicts
    an entry with zero subscribers, other than [exclude], with the smallest
    [lastUsed], until none remains.  Every eviction deducts the size of the
    evicted entry, and an entry with a subscriber is never removed. *)
Theorem allocateCacheSize_evicts (nowDate newSize : Z) (exclude : option nat)
  (st : Client) :
  wf st →
  ∃ st',
    allocateCacheSize nowDate newSize exclude st = Some st'
    ∧ (needBytes newSize st ≤ 0 → st' = st)
    ∧ (0 < needBytes newSize st →
       evictsUntilFits newSize exclude (dropExpired nowDate st) st')
    ∧ cacheSize st - cacheSize st' = totalSize st - totalSize st'
    ∧ sameButCache st st'
    ∧ ∀ k e, (k, e) ∈ cache st → subscribers (entry st e) ≠ [] →
             (k, e) ∈ cache st'.
Proof.
  intros Hwf.
  destruct (allocate_spec nowDate newSize exclude st Hwf)
    as (st' & Hrun & Hnoop & Hsteps & Htotal & Hsame & _ & _ & Hkeep).
  exists st'. by split_and!.
Qed.


Lemma distinct_NoDup l : distinct l = true → NoDup l.
Proof.
  induction l as [|k l IH]; simpl; [constructor|].
  rewrite andb_true_iff, forallb_forall. intros [Hk Hl].
  apply NoDup_cons. split; [|by apply IH].
  intros Hin. apply list_elem_of_In, Hk in Hin.
  by rewrite String.eqb_refl in Hin.
Qed.

Lemma wfb_wf st : wfb st = true → wf st.
Proof.
  unfold wfb, wf. rewrite andb_true_iff, forallb_forall.
  intros [Hd Hall]. split; [by apply distinct_NoDup|].
  intros k e Hin. apply list_elem_of_In, Hall in Hin. simpl in Hin.
  apply andb_true_iff in Hin as [Hlt Hk].
  apply Nat.ltb_lt in Hlt. by apply String.eqb_eq in Hk.
Qed.

(** The scenario of the spec at time 100: room for one entry is made by
    evicting A alone, room for two by evicting A and then B, and C stays
    whatever is asked for. *)
Example eviction_scenario :
  allocateCacheSize 100 1000 None sampleStore
  = Some (withCacheSize 2000 (withCache [("B", 1%nat); ("C", 2%nat)] sampleStore))
  ∧ allocateCacheSize 100 2000 None sampleStore
    = Some (withCacheSize 1000 (withCache [("C", 2%nat)] sampleStore))
  ∧ allocateCacheSize 100 9000 None sampleStore
    = Some (withCacheSize 1000 (withCache [("C", 2%nat)] sampleStore)).
Proof. split_and!; vm_compute; reflexivity. Qed.

Lemma allocateCacheSize_evicts_witness :
  wf sampleStore
  ∧ ∃ st', allocateCacheSize 100 2000 None sampleStore = Some st'
           ∧ cache st' = [("C", 2%nat)] ∧ cacheSize st' = 1000.
Proof.
  split; [apply wfb_wf; vm_compute; reflexivity|].
  destruct (allocateCacheSize_evicts 100 2000 None sampleStore
              (wfb_wf sampleStore eq_refl)) as (st' & Hrun & _).
  exists st'. split; [exact Hrun|].
  vm_compute in Hrun. injection Hrun as <-. split; reflexivity.
Defined.

(** ** Assignments to an entry *)

Lemma entry_in_range st e c : response (entry st e) = Some c → (e < length (heap st))%nat.
Proof.
  unfold entry. rewrite list_lookup_total_alt.
  destruct (heap st !! e) as [v|] eqn:Hv; [|done].
  intros _. by eapply lookup_lt_Some.
Qed.

Lemma entry_update_eq e f st :
  (e < length (heap st))%nat → entry (update e f st) e = f (entry st e).
Proof. intros Hlt. unfold entry, update; simpl. by apply list_lookup_total_alter_eq. Qed.

Lemma entry_update_ne e e' f st : e ≠ e' → entry (update e f st) e' = entry st e'.
Proof. intros Hne. unfold entry, update; simpl. by apply list_lookup_total_alter_ne. Qed.

Lemma heap_update_length e f st : length (heap (update e f st)) = length (heap st).
Proof. unfold update; simpl. apply length_alter. Qed.

(** An assignment that leaves [queryAndVariablesString] alone keeps the
    invariant. *)
Lemma wf_update e f st :
  (∀ v, queryAndVariablesString (f v) = queryAndVariablesString v) →
  wf st → wf (update e f st).
Proof.
  intros Hkey [Hnd Hent]. split; [done|].
  intros k e' Hin. destruct (Hent k e' Hin) as [Hlt Hk].
  rewrite heap_update_length. split; [done|].
  destruct (decide (e = e')) as [->|Hne].
  - by rewrite entry_update_eq, Hkey.
  - by rewrite entry_update_ne.
Qed.

Lemma setCell_key f v :
  queryAndVariablesString (setCell f v) = queryAndVariablesString v.
Proof. unfold setCell. by destruct (response v). Qed.

(** ** [refresh] *)

(** What [refresh] does on a cell that is not loading. *)
Lemma refresh_idle e st c :
  response (entry st e) = Some c → loading c = false →
  ∃ st1,
    refresh e st = Some (Some (requests st), st1)
    ∧ response (entry st1 e)
      = Some (mkCell (result c) (Some (requests st)) true (cacheMode c)
                (cacheTimeoutValue c))
    ∧ cancelRequest (entry st1 e) = Some (requests st)
    ∧ requests st1 = S (requests st)
    ∧ pendingRequests st1 = pendingRequests st + 1
    ∧ cache st1 = cache st ∧ cacheSize st1 = cacheSize st
    ∧ maxCacheSize st1 = maxCacheSize st
    ∧ length (heap st1) = length (heap st)
    ∧ (∀ e', e' ≠ e → entry st1 e' = entry st e')
    ∧ queryAndVariablesString (entry st1 e) = queryAndVariablesString (entry st e)
    ∧ size (entry st1 e) = size (entry st e)
    ∧ expires (entry st1 e) = expires (entry st e)
    ∧ lastUsed (entry st1 e) = lastUsed (entry st e)
    ∧ subscribers (entry st1 e) = subscribers (entry st e)
    ∧ cancelled st1 = cancelled st
    ∧ delivered st1 = delivered st.
Proof.
  intros Hc Hl. pose proof (entry_in_range st e c Hc) as Hlt.
  unfold refresh. rewrite Hc. simpl. rewrite Hl.
  eexists. split; [reflexivity|].
  unfold entry in *. simpl.
  rewrite !list_lookup_total_alter_eq by (rewrite ?length_alter; done).
  unfold setCell. rewrite Hc. simpl.
  split_and!; try done.
  - by rewrite !length_alter.
  - intros e' Hne. by rewrite !list_lookup_total_alter_ne.
Qed.

(** C2: on a cell that is loading, [refresh] returns the promise in flight
    and leaves the client as it is: no [executeQueryRaw] call is made.  On a
    cell that is not loading it makes one call, and a second [refresh] after
    it returns the promise of the first and makes no call. *)
Theorem refresh_single_flight (e : nat) (st : Client) (c : Cell) :
  response (entry st e) = Some c →
  (loading c = true → refresh e st = Some (resultPromise c, st))
  ∧ (loading c = false →
     ∃ p st1,
       refresh e st = Some (Some p, st1)
       ∧ requests st1 = S (requests st)
       ∧ refresh e st1 = Some (Some p, st1)).
Proof.
  intros Hc. split.
  - intros Hl. unfold refresh. rewrite Hc. simpl. by rewrite Hl.
  - intros Hl.
    destruct (refresh_idle e st c Hc Hl) as (st1 & Hrun & Hc1 & _ & Hreq & _).
    exists (requests st), st1. split_and!; [done|done|].
    unfold refresh. rewrite Hc1. done.
Qed.

(** ** [setCacheEntrySize] and the completion of a refresh *)

Lemma sameButCache_fields st st' :
  sameButCache st st' ↔
  heap st' = heap st ∧ maxCacheSize st' = maxCacheSize st
  ∧ defaultCachePolicy st' = defaultCachePolicy st
  ∧ defaultCacheTime st' = defaultCacheTime st
  ∧ pendingRequests st' = pendingRequests st ∧ requests st' = requests st
  ∧ cancelled st' = cancelled st ∧ delivered st' = delivered st.
Proof.
  unfold sameButCache. split.
  - by intros ->.
  - destruct st, st'; simpl. intros (? & ? & ? & ? & ? & ? & ? & ?). by subst.
Qed.

Lemma sameButCache_trans a b c :
  sameButCache a b → sameButCache b c → sameButCache a c.
Proof.
  rewrite !sameButCache_fields.
  intros (? & ? & ? & ? & ? & ? & ? & ?) (? & ? & ? & ? & ? & ? & ? & ?).
  split_and!; congruence.
Qed.

Lemma sameButCache_withCacheSize z st : sameButCache st (withCacheSize z st).
Proof. by apply sameButCache_fields. Qed.

(** [setCacheEntrySize] returns: up to the map and the total, it only writes
    the [size] of the entry. *)
Lemma setCacheEntrySize_spec nowDate e newSize st :
  wf st →
  ∃ st1,
    setCacheEntrySize nowDate e newSize st = Some (update e (setSize newSize) st1)
    ∧ sameButCache st st1 ∧ wf st1.
Proof.
  intros Hwf. unfold setCacheEntrySize.
  destruct (mapGet (queryAndVariablesString (entry st e)) (cache st)) as [e'|];
    [|exists st; split_and!; [done|apply sameButCache_refl|done]].
  case_bool_decide as He;
    [|exists st; split_and!; [done|apply sameButCache_refl|done]].
  destruct (allocate_spec nowDate newSize (Some e)
              (withCacheSize (cacheSize st - size (entry st e)) st)
              (wf_withCacheSize _ _ Hwf))
    as (st2 & -> & _ & _ & _ & Hsame & Hwf2 & _ & _).
  simpl. eexists. split_and!; [reflexivity| |by apply wf_withCacheSize].
  eapply sameButCache_trans; [apply sameButCache_withCacheSize|].
  eapply sameButCache_trans; [exact Hsame|apply sameButCache_withCacheSize].
Qed.

Lemma committed_key data v :
  queryAndVariablesString (committed data v) = queryAndVariablesString v.
Proof. unfold committed. simpl. by rewrite !setCell_key. Qed.

Lemma commit_update data e st :
  update e (setCancelRequest None)
    (update e (setCell (setLoading false))
       (update e (setCell (setResult (Some data))) st))
  = update e (committed data) st.
Proof.
  unfold update, withHeap; simpl. f_equal.
  by rewrite !list_alter_alter_eq.
Qed.

Lemma entry_notifySubscribers e' data st e :
  entry (notifySubscribers e' data st) e = entry st e.
Proof. done. Qed.

Lemma delivered_notifySubscribers e data st :
  delivered (notifySubscribers e data st)
  = delivered st ++ map (λ s, (s, data)) (subscribers (entry st e)).
Proof. done. Qed.

Lemma wf_withDelivered l st : wf st → wf (withDelivered l st).
Proof. intros [Hnd Hent]. by split. Qed.

(** What the callback of [refresh] does when the promise is the current one. *)
Lemma onRefreshed_current nowDate e p data st c z :
  wf st → response (entry st e) = Some c →
  (Http.hasErrors (Http.errors data) = false → Http.size data = Num z) →
  resultPromise c = Some p →
  ∃ st',
    onRefreshed nowDate e p data st = Some st'
    ∧ response (entry st' e)
      = Some (mkCell (Some data) (Some p) false (cacheMode c) (cacheTimeoutValue c))
    ∧ cancelRequest (entry st' e) = None
    ∧ subscribers (entry st' e) = subscribers (entry st e)
    ∧ delivered st'
      = delivered st ++ map (λ s, (s, Some data)) (subscribers (entry st e))
    ∧ size (entry st' e)
      = (if Http.hasErrors (Http.errors data) then size (entry st e) else z + 1000)
    ∧ expires (entry st' e)
      = (if Http.hasErrors (Http.errors data) then 0
         else if isNoCache (cacheMode c) then expires (entry st e)
              else nowDate + cacheTimeoutValue c)
    ∧ wf st'.
Proof.
  intros Hwf Hc Hz Hp. pose proof (entry_in_range st e c Hc) as Hlt.
  unfold onRefreshed. rewrite Hc. cbn [mbind option_bind].
  rewrite bool_decide_eq_true_2 by done.
  rewrite commit_update.
  set (st3 := update e (committed data) st).
  assert (Hwf3 : wf st3) by (apply wf_update; [apply committed_key|done]).
  assert (He3 : entry st3 e = committed data (entry st e))
    by (by apply entry_update_eq).
  assert (Hlt3 : (e < length (heap st3))%nat)
    by (unfold st3; by rewrite heap_update_length).
  assert (Hcell : response (committed data (entry st e))
                  = Some (mkCell (Some data) (Some p) false (cacheMode c)
                            (cacheTimeoutValue c))).
  { unfold committed, setCell. rewrite Hc. simpl. by rewrite <- Hp. }
  assert (Hrest : cancelRequest (committed data (entry st e)) = None
                  ∧ subscribers (committed data (entry st e)) = subscribers (entry st e)
                  ∧ size (committed data (entry st e)) = size (entry st e)
                  ∧ expires (committed data (entry st e)) = expires (entry st e)).
  { unfold committed, setCell. rewrite Hc. simpl. done. }
  destruct Hrest as (Hcancel & Hsubs & Hsize & Hexp).
  destruct (Http.hasErrors (Http.errors data)).
  - cbn [mbind option_bind]. eexists. split; [reflexivity|].
    rewrite entry_notifySubscribers, delivered_notifySubscribers.
    rewrite entry_update_eq by done. rewrite He3.
    split_and!; try done.
    + cbn [subscribers setExpires setSize delivered update withHeap].
      by rewrite Hsubs.
    + apply wf_withDelivered. by apply wf_update.
  - rewrite Hz by done.
    destruct (setCacheEntrySize_spec nowDate e (z + 1000) st3 Hwf3)
      as (st1 & -> & Hsame & Hwf1).
    pose proof (sameButCache_entry st3 st1 e Hsame) as He1.
    pose proof (sameButCache_heap st3 st1 Hsame) as Hh1.
    assert (Hlt1 : (e < length (heap st1))%nat) by (by rewrite Hh1).
    apply sameButCache_fields in Hsame as (_ & _ & _ & _ & _ & _ & _ & Hd).
    cbn [mbind option_bind].
    destruct (isNoCache (cacheMode c)); (eexists; split; [reflexivity|]);
      rewrite entry_notifySubscribers, delivered_notifySubscribers;
      rewrite !entry_update_eq by (rewrite ?heap_update_length; done);
      rewrite He1, He3.
    + split_and!; try done.
      * cbn [subscribers setExpires setSize delivered update withHeap].
        by rewrite Hsubs, Hd.
      * apply wf_withDelivered. by apply wf_update.
    + split_and!; try done.
      * cbn [subscribers setExpires setSize delivered update withHeap].
        by rewrite Hsubs, Hd.
      * apply wf_withDelivered. apply wf_update; [done|]. by apply wf_update.
Qed.

(** A completion for a promise that is not the current one is dropped. *)
Lemma onRefreshed_stale nowDate e p data st c :
  response (entry st e) = Some c → resultPromise c ≠ Some p →
  onRefreshed nowDate e p data st = Some st.
Proof.
  intros Hc Hp. unfold onRefreshed. rewrite Hc. cbn [mbind option_bind].
  by rewrite bool_decide_eq_false_2.
Qed.

(** [forceRefresh] on a loading cell cancels the request and starts the
    next one. *)
Lemma forceRefresh_loading e st c :
  response (entry st e) = Some c → loading c = true →
  ∃ st1,
    forceRefresh e st = Some st1
    ∧ response (entry st1 e)
      = Some (mkCell (result c) (Some (requests st)) true (cacheMode c)
                (cacheTimeoutValue c))
    ∧ requests st1 = S (requests st)
    ∧ cancelled st1
      = cancelled st ++ match cancelRequest (entry st e) with
                        | Some h => [h]
                        | None => []
                        end.
Proof.
  intros Hc Hl. pose proof (entry_in_range st e c Hc) as Hlt.
  unfold forceRefresh. rewrite Hc. cbn [mbind option_bind]. rewrite Hl.
  set (st0 := match cancelRequest (entry st e) with
              | Some h => withCancelled (cancelled st ++ [h]) st
              | None => st
              end).
  assert (H0 : heap st0 = heap st ∧ requests st0 = requests st
               ∧ cancelled st0 = cancelled st
                                 ++ match cancelRequest (entry st e) with
                                    | Some h => [h]
                                    | None => []
                                    end).
  { unfold st0. destruct (cancelRequest (entry st e)); simpl;
      rewrite ?app_nil_r; done. }
  destruct H0 as (Hh0 & Hr0 & Hcan0).
  set (st' := update e (setCell (setResultPromise None))
                (update e (setCell (setLoading false))
                   (update e (setCancelRequest None) st0))).
  assert (Hc' : response (entry st' e)
                = Some (mkCell (result c) None false (cacheMode c) (cacheTimeoutValue c))).
  { unfold st', entry, update; simpl. rewrite Hh0.
    rewrite !list_lookup_total_alter_eq by (rewrite ?length_alter; done).
    fold (entry st e). unfold setCell. simpl. rewrite Hc. simpl. done. }
  destruct (refresh_idle e st' _ Hc' eq_refl)
    as (st1 & Hrun & Hc1 & _ & Hreq & _ & _ & _ & _ & _ & _ & _ & _ & _ & _
        & _ & Hcan & _).
  exists st1. rewrite Hrun. simpl.
  assert (Hreq' : requests st' = requests st) by (unfold st'; simpl; done).
  assert (Hcan' : cancelled st' = cancelled st0) by done.
  rewrite Hreq' in *.
  split_and!; [done|done|done|congruence].
Qed.

(** C3: when the transport call of a refresh attempt completes with [data],
    the callback does nothing unless the promise of the attempt is still the
    cell's [resultPromise]; a completion of an attempt that [forceRefresh]
    has replaced finds the promise of the new attempt and is dropped.
    Otherwise the result is stored, [loading] and the cancel handle are
    cleared and every subscriber is called with [data]; a result with
    non-empty [errors] sets [expires] to 0; any other result sets the size
    of the entry to the result's size plus 1000 and, unless the mode is
    no-cache, [expires] to the time of completion plus the cache timeout. *)
Theorem refresh_completion (nowDate : Z) (e p : nat) (data : Http.Result)
  (st : Client) (c : Cell) :
  wf st → response (entry st e) = Some c →
  (resultPromise c ≠ Some p → onRefreshed nowDate e p data st = Some st)
  ∧ (loading c = true → resultPromise c = Some p → (p < requests st)%nat →
     ∃ st1, forceRefresh e st = Some st1
            ∧ onRefreshed nowDate e p data st1 = Some st1)
  ∧ (∀ z, resultPromise c = Some p → Http.size data = Num z →
     ∃ st',
       onRefreshed nowDate e p data st = Some st'
       ∧ response (entry st' e)
         = Some (mkCell (Some data) (Some p) false (cacheMode c) (cacheTimeoutValue c))
       ∧ cancelRequest (entry st' e) = None
       ∧ delivered st'
         = delivered st ++ map (λ s, (s, Some data)) (subscribers (entry st e))
       ∧ (Http.hasErrors (Http.errors data) = true → expires (entry st' e) = 0)
       ∧ (Http.hasErrors (Http.errors data) = false →
          size (entry st' e) = z + 1000
          ∧ (cacheMode c ≠ NoCache →
             expires (entry st' e) = nowDate + cacheTimeoutValue c)
          ∧ (cacheMode c = NoCache →
             expires (entry st' e) = expires (entry st e)))).
Proof.
  intros Hwf Hc. split_and!.
  - by apply onRefreshed_stale.
  - intros Hl Hp Hissued.
    destruct (forceRefresh_loading e st c Hc Hl) as (st1 & Hrun & Hc1 & _).
    exists st1. split; [done|].
    eapply onRefreshed_stale; [exact Hc1|]. simpl. intros [= Heq]. lia.
  - intros z Hp Hz.
    destruct (onRefreshed_current nowDate e p data st c z Hwf Hc (λ _, Hz) Hp)
      as (st' & Hrun & Hcell & Hcancel & _ & Hdel & Hsize & Hexp & _).
    exists st'. split_and!; try done.
    + intros He. by rewrite He in Hexp.
    + intros He. rewrite He in Hsize, Hexp. split_and!; [done| |].
      * intros Hmode. rewrite Hexp. by destruct (cacheMode c).
      * intros Hmode. rewrite Hexp, Hmode. done.
Qed.

(** ** Creation of an entry *)

Lemma sumSizes_ext st st' l :
  (∀ e, e ∈ l → entry st' e = entry st e) → sumSizes st' l = sumSizes st l.
Proof.
  induction l as [|x l IH]; intros Hext; [done|].
  simpl. rewrite (Hext x) by (by left). rewrite IH; [done|].
  intros e He. apply Hext. by right.
Qed.

Lemma sumSizes_app st l k : sumSizes st (l ++ k) = sumSizes st l + sumSizes st k.
Proof. induction l as [|x l IH]; simpl; [done|]. rewrite IH. lia. Qed.

Lemma mapGet_None_inv k m : mapGet k m = None → k ∉ m.*1.
Proof.
  intros Hnone Hin. destruct (mapGet_is_Some k m Hin) as [v Hv]. congruence.
Qed.

(** The entry that [executeQuery] creates under a key that is not in the
    map: it is a new object, loading its first request, and it enters the
    map with its size added to the running total. *)
Lemma createEntry_spec nowDate key mode timeout st0 :
  wf st0 → key ∉ (cache st0).*1 →
  let e := length (heap st0) in
  ∃ st',
    createEntry nowDate key (newEntryFactory mode timeout) st0 = Some (e, st')
    ∧ wf st'
    ∧ (∃ m, cache st' = m ++ [(key, e)] ∧ ∀ p, p ∈ m → p ∈ cache st0)
    ∧ entry st' e
      = mkEntry key (Some (mkCell None (Some (requests st0)) true mode timeout))
          1000 0 nowDate [] (Some (requests st0))
    ∧ (∀ e', (e' < e)%nat → entry st' e' = entry st0 e')
    ∧ requests st' = S (requests st0)
    ∧ surplus st' = surplus st0.
Proof.
  intros Hwf Hfresh e. unfold createEntry. fold e.
  set (new := mkEntry key None 1000 0 nowDate [] None).
  set (st1 := withHeap (heap st0 ++ [new]) st0).
  set (cell0 := mkCell None None false mode timeout).
  set (stF := update e (setResponse cell0) st1).
  assert (Hlen1 : length (heap st1) = S e).
  { unfold st1; simpl. rewrite length_app. simpl. unfold e. lia. }
  assert (Hnew : entry st1 e = new).
  { unfold entry, st1; simpl. rewrite lookup_total_app_r by (unfold e; lia).
    by rewrite Nat.sub_diag. }
  assert (Hold1 : ∀ e', (e' < e)%nat → entry st1 e' = entry st0 e').
  { intros e' Hlt. unfold entry, st1; simpl. by rewrite lookup_total_app_l. }
  assert (HeF : entry stF e = setResponse cell0 new).
  { unfold stF. rewrite entry_update_eq by lia. by rewrite Hnew. }
  assert (HcF : response (entry stF e) = Some cell0) by (by rewrite HeF).
  destruct (refresh_idle e stF cell0 HcF eq_refl)
    as (st2 & Hrun & Hc2 & Hcan2 & Hreq2 & _ & Hcache2 & Hcs2 & _ & Hlen2
        & Hother2 & Hkey2 & Hsize2 & Hexp2 & Hlu2 & Hsubs2 & _).
  assert (Hcache0 : cache st2 = cache st0) by (by rewrite Hcache2).
  clear Hcache2. rename Hcache0 into Hcache2.
  unfold newEntryFactory. fold cell0. fold stF. rewrite Hrun.
  cbn [fmap option_fmap option_map snd mbind option_bind].
  assert (Hold2 : ∀ e', (e' < e)%nat → entry st2 e' = entry st0 e').
  { intros e' Hlt. rewrite Hother2 by lia. unfold stF.
    rewrite entry_update_ne by lia. by apply Hold1. }
  assert (Hwf2 : wf st2).
  { destruct Hwf as [Hnd Hent]. split; rewrite Hcache2; [done|].
    intros k e' Hin. destruct (Hent k e' Hin) as [Hlt Hk].
    rewrite Hlen2. unfold stF. rewrite heap_update_length, Hlen1.
    split; [unfold e; lia|]. by rewrite Hold2. }
  assert (He2 : entry st2 e
                = mkEntry key (Some (mkCell None (Some (requests st0)) true mode timeout))
                    1000 0 nowDate [] (Some (requests st0))).
  { destruct (entry st2 e) as [k2 r2 s2 x2 l2 sb2 cr2] eqn:He2.
    simpl in *. rewrite HeF in Hkey2, Hsize2, Hexp2, Hlu2, Hsubs2.
    simpl in *. by subst. }
  destruct (allocate_spec nowDate (size (entry st2 e)) None st2 Hwf2)
    as (st3 & -> & _ & _ & Htot3 & Hsame3 & Hwf3 & Hsub3 & _).
  cbn [mbind option_bind].
  eexists. split; [reflexivity|].
  pose proof (sameButCache_heap st2 st3 Hsame3) as Hh3.
  assert (Hlen3 : length (heap st3) = S e).
  { rewrite Hh3, Hlen2. unfold stF. by rewrite heap_update_length. }
  assert (He3 : ∀ e', entry st3 e' = entry st2 e')
    by (intros; by apply sameButCache_entry).
  assert (Hkeys3 : key ∉ (cache st3).*1).
  { intros Hin. apply Hfresh.
    apply list_elem_of_fmap in Hin as (q & Hkq & Hq).
    rewrite Hkq. apply list_elem_of_fmap_2. rewrite <- Hcache2. by apply Hsub3. }
  set (st' := withCache _ _).
  assert (Hcache' : cache st' = cache st3 ++ [(key, e)]).
  { unfold st'; simpl. by apply mapSet_fresh. }
  assert (He' : entry st' e = setLastUsed nowDate (setKey key (entry st3 e))).
  { unfold st', entry; simpl.
    rewrite !list_lookup_total_alter_eq by (rewrite ?length_alter; lia). done. }
  assert (Hold' : ∀ e', (e' < e)%nat → entry st' e' = entry st0 e').
  { intros e' Hlt. unfold st', entry; simpl.
    rewrite !list_lookup_total_alter_ne by lia.
    fold (entry st3 e'). rewrite He3. by apply Hold2. }
  assert (Hrefs3 : ∀ k e', (k, e') ∈ cache st3 → (e' < e)%nat).
  { intros k e' Hin. apply Hsub3 in Hin. rewrite Hcache2 in Hin.
    destruct Hwf as [_ Hent]. by destruct (Hent k e' Hin). }
  split_and!.
  - destruct Hwf3 as [Hnd3 Hent3]. split.
    + rewrite Hcache', fmap_app. simpl. apply NoDup_app. split_and!.
      * done.
      * intros k Hk [->|Hin%elem_of_nil]%elem_of_cons; done.
      * apply NoDup_singleton.
    + intros k e' Hin. rewrite Hcache' in Hin.
      assert (Hlen' : length (heap st') = S e).
      { unfold st'; simpl. by rewrite !length_alter. }
      rewrite Hlen'.
      apply elem_of_app in Hin as [Hin|[[= -> ->]|Hin%elem_of_nil]%elem_of_cons];
        [|rewrite He'; split; [lia|done]|done].
      pose proof (Hrefs3 k e' Hin) as Hlt. split; [lia|].
      rewrite Hold' by done. rewrite <- Hold2, <- He3 by done.
      by destruct (Hent3 k e' Hin).
  - exists (cache st3). split; [done|].
    intros q Hq. rewrite <- Hcache2. by apply Hsub3.
  - rewrite He', He3, He2. done.
  - done.
  - unfold st'; simpl. apply sameButCache_fields in Hsame3.
    destruct Hsame3 as (_ & _ & _ & _ & _ & -> & _). rewrite Hreq2. done.
  - unfold surplus, totalSize. rewrite Hcache', fmap_app, sumSizes_app. simpl.
    rewrite He', He3, He2. simpl.
    rewrite (sumSizes_ext st3 st'); [|].
    2:{ intros e' He'in. apply refs_elem in He'in as [k Hk].
        pose proof (Hrefs3 k e' Hk). rewrite Hold' by done.
        rewrite He3. symmetry. by apply Hold2. }
    assert (Hsz : size (entry (update e (setLastUsed nowDate)
                                 (update e (setKey key) st3)) e) = 1000).
    { unfold entry; simpl.
      rewrite !list_lookup_total_alter_eq by (rewrite ?length_alter; lia).
      fold (entry st3 e). rewrite He3, He2. done. }
    rewrite Hsz.
    assert (Htot2 : totalSize st2 = totalSize st0).
    { unfold totalSize. rewrite Hcache2.
      apply sumSizes_ext. intros e' He'in. apply refs_elem in He'in as [k Hk].
      destruct Hwf as [_ Hent]. destruct (Hent k e' Hk) as [Hlt _].
      by apply Hold2. }
    assert (HcsF : cacheSize stF = cacheSize st0) by done.
    unfold totalSize in Htot3, Htot2. lia.
Qed.

(** ** [executeQuery] in no-cache mode *)

(** The test at the end of [executeQuery] on an entry that is loading
    changes nothing. *)
Lemma executeQuery_tail (b : bool) e st c :
  response (entry st e) = Some c → loading c = true →
  (if b then '(_, st2) ← refresh e st; Some (e, st2) else Some (e, st))
  = Some (e, st).
Proof.
  intros Hc Hl. destruct b; [|done].
  unfold refresh. rewrite Hc. simpl. by rewrite Hl.
Qed.

Lemma onRefreshed_NaN nowDate e p data st c :
  response (entry st e) = Some c → resultPromise c = Some p →
  Http.hasErrors (Http.errors data) = false → Http.size data = NaN →
  onRefreshed nowDate e p data st = None.
Proof.
  intros Hc Hp He Hs. unfold onRefreshed. rewrite Hc. cbn [mbind option_bind].
  rewrite bool_decide_eq_true_2 by done. by rewrite He, Hs.
Qed.

(** C4: with no-cache as the mode in force, [executeQuery] on a key whose
    entry has no subscriber takes that entry out of the map and puts a new
    object, loading its first request, in its place; on a key whose entry has
    a subscriber it returns that entry with [lastUsed] set to the time of the
    call, and nothing else changes: the other fields of the entry, the other
    entries, the map, the running total, and no request is started, none is
    cancelled and no subscriber is called.  And the completion of a refresh
    of an entry whose mode is no-cache either sets [expires] to 0 or leaves
    it as it was. *)
Theorem no_cache_semantics (nowDate : Z) (request : string)
  (mode : option FetchPolicy) (cacheTimeout : option Z) (st : Client) :
  wf st → default (defaultCachePolicy st) mode = NoCache →
  (∀ v, mapGet request (cache st) = Some v → subscribers (entry st v) = [] →
     ∃ st',
       executeQuery nowDate request mode cacheTimeout st
       = Some (length (heap st), st')
       ∧ v ≠ length (heap st)
       ∧ mapGet request (cache st') = Some (length (heap st))
       ∧ (∀ k, (k, v) ∉ cache st')
       ∧ entry st' (length (heap st))
         = mkEntry request
             (Some (mkCell None (Some (requests st)) true NoCache
                      (default (defaultCacheTime st) cacheTimeout)))
             1000 0 nowDate [] (Some (requests st)))
  ∧ (∀ v, mapGet request (cache st) = Some v → subscribers (entry st v) ≠ [] →
       ∃ st',
         executeQuery nowDate request mode cacheTimeout st = Some (v, st')
         ∧ lastUsed (entry st' v) = nowDate
         ∧ queryAndVariablesString (entry st' v)
           = queryAndVariablesString (entry st v)
         ∧ response (entry st' v) = response (entry st v)
         ∧ size (entry st' v) = size (entry st v)
         ∧ expires (entry st' v) = expires (entry st v)
         ∧ subscribers (entry st' v) = subscribers (entry st v)
         ∧ cancelRequest (entry st' v) = cancelRequest (entry st v)
         ∧ (∀ e, e ≠ v → entry st' e = entry st e)
         ∧ cache st' = cache st
         ∧ cacheSize st' = cacheSize st
         ∧ requests st' = requests st
         ∧ cancelled st' = cancelled st
         ∧ delivered st' = delivered st)
  ∧ (∀ e p data c st',
       response (entry st e) = Some c → cacheMode c = NoCache →
       onRefreshed nowDate e p data st = Some st' →
       expires (entry st' e) = 0 ∨ expires (entry st' e) = expires (entry st e)).
Proof.
  intros Hwf Hmode. split_and!.
  - intros v Hget Hidle.
    pose proof (mapGet_elem _ _ _ Hget) as Hin.
    destruct (proj2 Hwf request v Hin) as [Hlt _].
    unfold executeQuery, getOrCreateCacheEntry. rewrite Hmode, Hget, Hidle.
    cbn [length Nat.ltb Nat.leb isNoCache negb orb].
    change (withCacheSize (cacheSize st - size (entry st v))
              (withCache (mapRemove request (cache st)) st))
      with (removeEntry request v st).
    set (st0 := removeEntry request v st).
    destruct (createEntry_spec nowDate request NoCache
                (default (defaultCacheTime st) cacheTimeout) st0)
      as (st' & Hrun & Hwf' & (m & Hcache' & Hm) & He' & _ & _ & _).
    { by apply wf_removeEntry. }
    { intros Hk. apply list_elem_of_fmap in Hk as (q & Hq1 & Hq).
      unfold st0, removeEntry in Hq; simpl in Hq.
      apply mapRemove_elem in Hq as [Hne _]. done. }
    change (length (heap st0)) with (length (heap st)) in *.
    change (requests st0) with (requests st) in *.
    rewrite Hrun. cbn [mbind option_bind].
    exists st'. split_and!.
    + eapply executeQuery_tail; [by rewrite He'|done].
    + lia.
    + apply mapGet_Some; [apply Hwf'|]. rewrite Hcache'.
      apply elem_of_app. right. by left.
    + intros k Hk. rewrite Hcache' in Hk.
      apply elem_of_app in Hk as [Hk|[[= -> ->]|Hk%elem_of_nil]%elem_of_cons];
        [|lia|done].
      apply Hm in Hk. unfold st0, removeEntry in Hk; simpl in Hk.
      apply mapRemove_elem in Hk as [Hne Hk]. simpl in Hne.
      apply Hne. by apply (wf_unique_key st k request v).
    + done.
  - intros v Hget Hsubs.
    pose proof (mapGet_elem _ _ _ Hget) as Hin.
    destruct (proj2 Hwf request v Hin) as [Hlt _].
    assert (He : entry (update v (setLastUsed nowDate) st) v
                 = setLastUsed nowDate (entry st v)) by (by apply entry_update_eq).
    exists (update v (setLastUsed nowDate) st).
    split; [|rewrite He; split_and!; try done;
             intros e Hne; by apply entry_update_ne].
    unfold executeQuery, getOrCreateCacheEntry. rewrite Hmode, Hget.
    destruct (subscribers (entry st v)) as [|s l] eqn:Hs; [done|].
    cbn [length Nat.ltb Nat.leb orb mbind option_bind].
    rewrite He. simpl. by rewrite Hs.
  - intros e p data c st' Hc Hnc Hrun.
    destruct (decide (resultPromise c = Some p)) as [Hp|Hp].
    + destruct (Http.hasErrors (Http.errors data)) eqn:Herr.
      * destruct (onRefreshed_current nowDate e p data st c 0 Hwf Hc) as
          (st2 & Hrun2 & _ & _ & _ & _ & _ & Hexp & _); [by rewrite Herr|done|].
        rewrite Hrun in Hrun2. injection Hrun2 as <-.
        rewrite Herr in Hexp. by left.
      * destruct (Http.size data) as [z|] eqn:Hz.
        -- destruct (onRefreshed_current nowDate e p data st c z Hwf Hc) as
             (st2 & Hrun2 & _ & _ & _ & _ & _ & Hexp & _); [done|done|].
           rewrite Hrun in Hrun2. injection Hrun2 as <-.
           rewrite Herr, Hnc in Hexp. by right.
        -- by rewrite (onRefreshed_NaN nowDate e p data st c) in Hrun.
    + rewrite (onRefreshed_stale nowDate e p data st c Hc Hp) in Hrun.
      injection Hrun as <-. by right.
Qed.

(** ** The running total against the sizes in the map *)

Lemma sumSizes_update_other st e f l :
  e ∉ l → sumSizes (update e f st) l = sumSizes st l.
Proof.
  intros He. apply sumSizes_ext. intros e' He'.
  apply entry_update_ne. by intros ->.
Qed.

Lemma sumSizes_update st e f l :
  NoDup l → e ∈ l → (e < length (heap st))%nat →
  sumSizes (update e f st) l
  = sumSizes st l - size (entry st e) + size (f (entry st e)).
Proof.
  induction 1 as [|x l Hx Hnd IH]; intros Hin Hlt.
  - by apply elem_of_nil in Hin.
  - simpl. destruct (decide (x = e)) as [->|Hne].
    + rewrite entry_update_eq, sumSizes_update_other by done. lia.
    + rewrite entry_update_ne by done. rewrite IH; [lia| |done].
      apply elem_of_cons in Hin as [->|Hin]; done.
Qed.

(** An assignment that leaves the sizes alone leaves their sum alone. *)
Lemma totalSize_update st e f :
  (∀ v, size (f v) = size v) → totalSize (update e f st) = totalSize st.
Proof.
  intros Hf. unfold totalSize. change (cache (update e f st)) with (cache st).
  induction (cache st).*2 as [|x l IH]; [done|].
  simpl. rewrite IH. f_equal.
  destruct (decide (e = x)) as [->|Hne]; [|by rewrite entry_update_ne].
  unfold entry, update; simpl. rewrite list_lookup_total_alter.
  case_decide; [apply Hf|done].
Qed.

(** Creation and reuse keep the running total in step with the sizes. *)
Lemma getOrCreateCacheEntry_surplus nowDate key mode timeout noCache st e st' :
  wf st →
  getOrCreateCacheEntry nowDate key (newEntryFactory mode timeout) noCache st
  = Some (e, st') →
  surplus st' = surplus st ∧ wf st'.
Proof.
  intros Hwf. unfold getOrCreateCacheEntry.
  destruct (mapGet key (cache st)) as [v|] eqn:Hget.
  - pose proof (mapGet_elem _ _ _ Hget) as Hin.
    destruct ((0 <? length (subscribers (entry st v)))%nat || negb noCache).
    + intros [= <- <-]. split; [|by apply wf_update].
      unfold surplus. by rewrite totalSize_update.
    + change (withCacheSize (cacheSize st - size (entry st v))
                (withCache (mapRemove key (cache st)) st))
        with (removeEntry key v st).
      destruct (createEntry_spec nowDate key mode timeout (removeEntry key v st))
        as (st2 & Hrun & Hwf2 & _ & _ & _ & _ & Hs).
      { by apply wf_removeEntry. }
      { intros Hk. apply list_elem_of_fmap in Hk as (q & Hq1 & Hq).
        unfold removeEntry in Hq; simpl in Hq.
        by apply mapRemove_elem in Hq as [Hne _]. }
      rewrite Hrun. intros [= <- <-]. split; [|done].
      rewrite Hs. unfold surplus. rewrite totalSize_removeEntry by done.
      unfold removeEntry; simpl. lia.
  - destruct (createEntry_spec nowDate key mode timeout st Hwf)
      as (st2 & Hrun & Hwf2 & _ & _ & _ & _ & Hs).
    { by apply mapGet_None_inv. }
    rewrite Hrun. by intros [= <- <-].
Qed.

(** [setCacheEntrySize] on an entry that stays in the map adds back the old
    size where the new one is due: the running total falls behind the sizes
    by what the entry grew. *)
Lemma setCacheEntrySize_drift nowDate e newSize st st' k :
  wf st → (k, e) ∈ cache st →
  setCacheEntrySize nowDate e newSize st = Some st' →
  (k, e) ∈ cache st' →
  surplus st' = surplus st - (newSize - size (entry st e)).
Proof.
  intros Hwf Hin Hrun Hin'.
  unfold setCacheEntrySize in Hrun.
  rewrite (wf_key st k e Hwf Hin) in Hrun.
  rewrite (mapGet_Some k e _ (proj1 Hwf) Hin) in Hrun.
  rewrite bool_decide_eq_true_2 in Hrun by done.
  destruct (allocate_spec nowDate newSize (Some e)
              (withCacheSize (cacheSize st - size (entry st e)) st)
              (wf_withCacheSize _ _ Hwf))
    as (st2 & Hal & _ & _ & Htot & Hsame & Hwf2 & _ & _).
  rewrite Hal in Hrun. simpl in Hrun. injection Hrun as <-.
  change (cache (update e (setSize newSize)
                   (withCacheSize (cacheSize st2 + size (entry st2 e)) st2)))
    with (cache st2) in Hin'.
  pose proof (sameButCache_entry _ st2 e Hsame) as He2.
  change (entry (withCacheSize (cacheSize st - size (entry st e)) st) e)
    with (entry st e) in He2.
  unfold surplus, totalSize in *.
  change (cache (update e (setSize newSize)
                   (withCacheSize (cacheSize st2 + size (entry st2 e)) st2)))
    with (cache st2).
  rewrite (sumSizes_update (withCacheSize (cacheSize st2 + size (entry st2 e)) st2)).
  - change (entry (withCacheSize (cacheSize st2 + size (entry st2 e)) st2) e)
      with (entry st2 e).
    change (sumSizes (withCacheSize (cacheSize st2 + size (entry st2 e)) st2))
      with (sumSizes st2).
    rewrite He2. simpl in *.
    change (sumSizes (withCacheSize (cacheSize st - size (entry st e)) st))
      with (sumSizes st) in Htot.
    lia.
  - by apply wf_refs_NoDup.
  - apply refs_elem. by exists k.
  - by destruct (proj2 Hwf2 k e Hin').
Qed.

(** C10: after the first query of a new client the running total is the
    size of the one entry, 1000; when its result of size 20 arrives the entry
    has size 1020 and is still in the map, and the running total is still
    1000. *)
Theorem cacheSize_misses_resize :
  (∃ st1, executeQuery 100 "q" None None (init 20971520 CacheFirst 86400000)
          = Some (0%nat, st1)
          ∧ cacheSize st1 = 1000 ∧ totalSize st1 = 1000)
  ∧ ∃ st2, answered = Some st2
           ∧ cache st2 = [("q", 0%nat)]
           ∧ size (entry st2 0) = 1020
           ∧ totalSize st2 = 1020
           ∧ cacheSize st2 = 1000.
Proof.
  split.
  - eexists. split; [vm_compute; reflexivity|]. split; reflexivity.
  - eexists. split; [vm_compute; reflexivity|]. split_and!; reflexivity.
Qed.

(** ** The reachable states are well formed *)

Lemma wf_init maxSize policy cacheTime : wf (init maxSize policy cacheTime).
Proof. split; simpl; [constructor|]. by intros k e ?%elem_of_nil. Qed.

Lemma wf_executeQueryRaw st : wf st → wf (executeQueryRaw st).2.
Proof. intros [Hnd Hent]. by split. Qed.

Lemma wf_withCancelled l st : wf st → wf (withCancelled l st).
Proof. intros [Hnd Hent]. by split. Qed.

Lemma refresh_wf e st p st' : wf st → refresh e st = Some (p, st') → wf st'.
Proof.
  intros Hwf. unfold refresh.
  destruct (response (entry st e)) as [c|]; [|done]. cbn [mbind option_bind].
  destruct (loading c); [by intros [= _ <-]|].
  intros [= _ <-].
  apply wf_update; [done|]. apply wf_update; [apply setCell_key|].
  apply (wf_executeQueryRaw (update e (setCell (setLoading true)) st)).
  apply wf_update; [apply setCell_key|done].
Qed.

Lemma forceRefresh_wf e st st' : wf st → forceRefresh e st = Some st' → wf st'.
Proof.
  intros Hwf. unfold forceRefresh.
  destruct (response (entry st e)) as [c|]; [|done]. cbn [mbind option_bind].
  match goal with
  | |- snd <$> refresh e ?x = _ → _ =>
      assert (Hwf0 : wf x); [|destruct (refresh e x) as [[p st1]|] eqn:Hrun]
  end.
  - destruct (loading c); [|done].
    apply wf_update; [apply setCell_key|]. apply wf_update; [apply setCell_key|].
    apply wf_update; [done|].
    destruct (cancelRequest (entry st e)); [by apply wf_withCancelled|done].
  - intros [= <-]. by eapply refresh_wf.
  - done.
Qed.

Lemma onRefreshed_wf nowDate e p data st st' :
  wf st → onRefreshed nowDate e p data st = Some st' → wf st'.
Proof.
  intros Hwf Hrun.
  destruct (response (entry st e)) as [c|] eqn:Hc;
    [|unfold onRefreshed in Hrun; by rewrite Hc in Hrun].
  destruct (decide (resultPromise c = Some p)) as [Hp|Hp].
  - destruct (Http.hasErrors (Http.errors data)) eqn:Herr.
    + destruct (onRefreshed_current nowDate e p data st c 0 Hwf Hc)
        as (st2 & Hrun2 & Hrest); [by rewrite Herr|done|].
      rewrite Hrun in Hrun2. injection Hrun2 as <-.
      by destruct Hrest as (_ & _ & _ & _ & _ & _ & Hwf').
    + destruct (Http.size data) as [z|] eqn:Hz.
      * destruct (onRefreshed_current nowDate e p data st c z Hwf Hc)
          as (st2 & Hrun2 & Hrest); [done|done|].
        rewrite Hrun in Hrun2. injection Hrun2 as <-.
        by destruct Hrest as (_ & _ & _ & _ & _ & _ & Hwf').
      * by rewrite (onRefreshed_NaN nowDate e p data st c) in Hrun.
  - rewrite (onRefreshed_stale nowDate e p data st c Hc Hp) in Hrun.
    by injection Hrun as <-.
Qed.

Lemma executeQuery_wf nowDate request mode cacheTimeout st e st' :
  wf st → executeQuery nowDate request mode cacheTimeout st = Some (e, st') →
  wf st'.
Proof.
  intros Hwf. unfold executeQuery.
  destruct (getOrCreateCacheEntry _ _ _ _ st) as [[e1 st1]|] eqn:Hget; [|done].
  cbn [mbind option_bind].
  destruct (getOrCreateCacheEntry_surplus _ _ _ _ _ _ _ _ Hwf Hget) as [_ Hwf1].
  match goal with |- (if ?b then _ else _) = _ → _ => destruct b end.
  - destruct (refresh e1 st1) as [[p st2]|] eqn:Hrun; [|done].
    cbn [mbind option_bind]. intros [= _ <-]. by eapply refresh_wf.
  - by intros [= _ <-].
Qed.

Lemma wf_expire_all l : ∀ st,
  wf st → wf (foldl (λ s e, update e (setExpires 0) s) st l).
Proof.
  induction l as [|x l IH]; intros st Hwf; [done|].
  simpl. apply IH. by apply wf_update.
Qed.

Lemma surplus_expire_all l : ∀ st,
  surplus (foldl (λ s e, update e (setExpires 0) s) st l) = surplus st.
Proof.
  induction l as [|x l IH]; intros st; [done|].
  simpl. rewrite IH. unfold surplus. by rewrite totalSize_update.
Qed.

(** [clearCache] returns, and keeps the running total in step. *)
Lemma clearCache_spec nowDate st :
  wf st → ∃ st', clearCache nowDate st = Some st' ∧ wf st' ∧ surplus st' = surplus st.
Proof.
  intros Hwf. unfold clearCache.
  destruct (allocate_spec nowDate (maxCacheSize st) None _
              (wf_expire_all (cache st).*2 st Hwf))
    as (st' & Hrun & _ & _ & Htot & _ & Hwf' & _).
  exists st'. split_and!; [done|done|].
  rewrite <- (surplus_expire_all (cache st).*2 st). unfold surplus. lia.
Qed.

(** Every reachable state satisfies the representation invariant. *)
Lemma reachable_wf st : reachable st → wf st.
Proof.
  induction 1 as [| | | | | | |st nowDate st' _ IH Hrun].
  - apply wf_init.
  - by eapply executeQuery_wf.
  - by eapply refresh_wf.
  - by eapply forceRefresh_wf.
  - by eapply onRefreshed_wf.
  - by apply wf_update.
  - by apply wf_update.
  - destruct (clearCache_spec nowDate st IH) as (st2 & Hrun2 & Hwf2 & _).
    rewrite Hrun in Hrun2. by injection Hrun2 as <-.
Qed.

(** ** The theorems at the sample stores *)

Lemma refresh_single_flight_witness :
  response (entry sampleStore 0) = Some sampleCell
  ∧ ∃ p st1, refresh 0 sampleStore = Some (Some p, st1)
             ∧ requests st1 = 1%nat
             ∧ refresh 0 st1 = Some (Some p, st1).
Proof.
  split; [reflexivity|].
  destruct (refresh_single_flight 0 sampleStore sampleCell eq_refl) as [_ H].
  destruct (H eq_refl) as (p & st1 & H1 & H2 & H3).
  exists p, st1. split_and!; [exact H1|exact H2|exact H3].
Defined.

Lemma refresh_completion_witness :
  wf loadingStore
  ∧ response (entry loadingStore 0)
    = Some (mkCell None (Some 0%nat) true CacheFirst 86400000)
  ∧ ∃ st', onRefreshed 200 0 0 sampleResult loadingStore = Some st'
           ∧ size (entry st' 0) = 1020
           ∧ expires (entry st' 0) = 86400200
           ∧ delivered st' = [(4%nat, Some sampleResult); (5%nat, Some sampleResult)].
Proof.
  split; [apply wfb_wf; vm_compute; reflexivity|]. split; [reflexivity|].
  destruct (refresh_completion 200 0 0 sampleResult loadingStore
              (mkCell None (Some 0%nat) true CacheFirst 86400000)
              (wfb_wf loadingStore eq_refl) eq_refl)
    as (_ & _ & H).
  destruct (H 20 eq_refl eq_refl) as (st' & Hrun & _ & _ & Hdel & _ & Hok).
  destruct (Hok eq_refl) as (Hsize & Hexp & _).
  exists st'. split_and!; [exact Hrun|exact Hsize| |exact Hdel].
  rewrite Hexp; [reflexivity|discriminate].
Defined.

Lemma no_cache_semantics_witness :
  wf sampleStore
  ∧ default (defaultCachePolicy sampleStore) (Some NoCache) = NoCache
  ∧ lastUsed (entry sampleStore 2) = 1
  ∧ (∃ st', executeQuery 100 "C" (Some NoCache) None sampleStore = Some (2%nat, st')
            ∧ lastUsed (entry st' 2) = 100
            ∧ subscribers (entry st' 2) = [7%nat]
            ∧ cache st' = [("A", 0%nat); ("B", 1%nat); ("C", 2%nat)]
            ∧ requests st' = 0%nat)
  ∧ ∃ st', executeQuery 100 "B" (Some NoCache) None sampleStore = Some (3%nat, st')
           ∧ mapGet "B" (cache st') = Some 3%nat.
Proof.
  split; [apply wfb_wf; vm_compute; reflexivity|]. split; [reflexivity|].
  split; [reflexivity|].
  destruct (no_cache_semantics 100 "C" (Some NoCache) None sampleStore
              (wfb_wf sampleStore eq_refl) eq_refl) as (_ & Hused & _).
  destruct (no_cache_semantics 100 "B" (Some NoCache) None sampleStore
              (wfb_wf sampleStore eq_refl) eq_refl) as (Hidle & _ & _).
  split.
  - destruct (Hused 2%nat eq_refl)
      as (st' & Hrun & Hlast & _ & _ & _ & _ & Hsubs & _ & _ & Hcache & _ & Hreq & _);
      [discriminate|].
    exists st'. split_and!; [exact Hrun|exact Hlast|exact Hsubs|exact Hcache|exact Hreq].
  - destruct (Hidle 1%nat eq_refl eq_refl) as (st' & Hrun & _ & Hget & _).
    exists st'. split; [exact Hrun|exact Hget].
Defined.

End CacheFacts.

(** * Properties of the template tag *)
Module TagFacts.
Import JS Tag.

(** ** Strings *)

Lemma app_cons c (s t : string) : String c s +:+ t = String c (s +:+ t).
Proof. reflexivity. Qed.

Lemma app_empty_r (s : string) : s +:+ "" = s.
Proof. induction s as [|c s IH]; [done|]. by rewrite app_cons, IH. Qed.

Lemma app_assoc_s (a b c : string) : (a +:+ b) +:+ c = a +:+ (b +:+ c).
Proof. induction a as [|x a IH]; [done|]. by rewrite !app_cons, IH. Qed.

Lemma app_eq_empty (a b : string) : a +:+ b = "" → a = "" ∧ b = "".
Proof. destruct a; [done|]. rewrite app_cons. discriminate. Qed.

Lemma eqb_empty_snoc cur c : String.eqb (cur +:+ String c "") "" = false.
Proof. by destruct cur. Qed.

Lemma rev_string_acc (s acc : string) :
  rev_string acc s = rev_string "" s +:+ acc.
Proof.
  revert acc. induction s as [|c s IH]; intros acc; [done|].
  simpl. rewrite (IH (String c acc)), (IH (String c "")).
  by rewrite app_assoc_s.
Qed.

Lemma rev_string_app (a b : string) :
  rev_string "" (a +:+ b) = rev_string "" b +:+ rev_string "" a.
Proof.
  induction a as [|c a IH]; [by rewrite app_empty_r|].
  rewrite app_cons. simpl.
  rewrite (rev_string_acc (a +:+ b)), (rev_string_acc a), IH.
  by rewrite app_assoc_s.
Qed.

Lemma rev_string_involutive (s : string) : rev_string "" (rev_string "" s) = s.
Proof.
  induction s as [|c s IH]; [done|].
  simpl. rewrite (rev_string_acc s (String c "")), rev_string_app, IH. done.
Qed.

Lemma rev_string_empty (s : string) : rev_string "" s = "" → s = "".
Proof.
  intros H. rewrite <- (rev_string_involutive s), H. done.
Qed.

(** ** The replacement and the words *)

Lemma replace_lead s :
  replaceSeparators false s
  = (if startsSeparator s then " " else "") +:+ replaceSeparators true s.
Proof. destruct s as [|c r]; [done|]. simpl. by destruct (isSeparator c). Qed.

Lemma wordsFrom_nonempty s : ∀ cur, cur ≠ "" → wordsFrom cur s ≠ [].
Proof.
  induction s as [|c r IH]; intros cur Hcur; simpl.
  - apply String.eqb_neq in Hcur. by rewrite Hcur.
  - destruct (isSeparator c).
    + apply String.eqb_neq in Hcur. by rewrite Hcur.
    + apply IH. by destruct cur.
Qed.

Lemma endsSeparator_cons c r :
  r ≠ "" → endsSeparator (String c r) = endsSeparator r.
Proof. by destruct r. Qed.

Lemma wordsFrom_nil_ends s :
  wordsFrom "" s = [] → s = "" ∨ endsSeparator s = true.
Proof.
  induction s as [|c r IH]; [by left|]. simpl wordsFrom.
  destruct (isSeparator c) eqn:Hc.
  - simpl. intros H. right. destruct (IH H) as [-> | Hr]; [done|].
    destruct r; [done|]. exact Hr.
  - intros H. by destruct (wordsFrom_nonempty r (String c "")).
Qed.

Lemma concat_cons sep x (l : list string) :
  l ≠ [] → String.concat sep (x :: l) = x +:+ sep +:+ String.concat sep l.
Proof. by destruct l. Qed.

(** What the replacement writes from a word in progress on: the words, one
    space between two of them, and a space at the end when the text ends in
    a separator. *)
Lemma replace_words s : ∀ cur,
  cur +:+ replaceSeparators (String.eqb cur "") s
  = String.concat " " (wordsFrom cur s) +:+ trailing (wordsFrom cur s) s.
Proof.
  induction s as [|c r IH]; intros cur.
  - simpl. rewrite app_empty_r. destruct (String.eqb_spec cur ""); simpl.
    + done.
    + by rewrite app_empty_r.
  - simpl. destruct (isSeparator c) eqn:Hc.
    + assert (IH0 : replaceSeparators true r
                    = String.concat " " (wordsFrom "" r) +:+ trailing (wordsFrom "" r) r)
        by exact (IH "").
      clear IH. rename IH0 into IH.
      destruct (String.eqb_spec cur "") as [-> | Hcur].
      * change (replaceSeparators true r
                = String.concat " " (wordsFrom "" r)
                  +:+ trailing (wordsFrom "" r) (String c r)).
        rewrite IH. f_equal. unfold trailing.
        destruct (wordsFrom "" r) eqn:Hw; [done|].
        rewrite endsSeparator_cons; [done|]. by intros ->.
      * rewrite IH. destruct (wordsFrom "" r) as [|w ws] eqn:Hw.
        -- simpl. rewrite app_empty_r.
           destruct (wordsFrom_nil_ends r Hw) as [-> | Hr]; simpl; [by rewrite Hc|].
           destruct r; [done|]. by rewrite Hr.
        -- rewrite (concat_cons " " cur (w :: ws)) by done.
           rewrite !app_assoc_s. f_equal. rewrite app_cons. f_equal.
           change ("" +:+ ?x) with x. f_equal.
           unfold trailing. rewrite endsSeparator_cons; [done|].
           intros ->. done.
    + assert (Hends : endsSeparator (String c r) = endsSeparator r)
        by (destruct r; [exact Hc|done]).
      unfold trailing. rewrite Hends. fold (trailing (wordsFrom (cur +:+ String c "") r) r).
      rewrite <- (IH (cur +:+ String c "")), eqb_empty_snoc, app_assoc_s.
      done.
Qed.

(** ** Words and [trim] *)

Lemma plain_app a b : plain (a +:+ b) = plain a && plain b.
Proof.
  induction a as [|c a IH]; [done|].
  rewrite app_cons. simpl. rewrite IH. by rewrite andb_assoc.
Qed.

Lemma plain_rev s : plain (rev_string "" s) = plain s.
Proof.
  induction s as [|c s IH]; [done|].
  simpl. rewrite rev_string_acc, plain_app, IH. simpl.
  rewrite andb_true_r. apply andb_comm.
Qed.

Lemma wordsFrom_words s : ∀ cur,
  plain cur = true → Forall word (wordsFrom cur s).
Proof.
  induction s as [|c r IH]; intros cur Hcur; simpl.
  - destruct (String.eqb_spec cur ""); [done|]. by repeat constructor.
  - destruct (isSeparator c) eqn:Hc.
    + destruct (String.eqb_spec cur ""); [by apply IH|].
      constructor; [done|by apply IH].
    + apply IH. rewrite plain_app, Hcur. simpl. by rewrite Hc.
Qed.

Lemma space_separator c : is_space c = true → isSeparator c = true.
Proof. unfold isSeparator. by intros ->. Qed.

Lemma word_startsPlain w x : word w → startsPlain (w +:+ x) = true.
Proof.
  intros [Hne Hpl]. destruct w as [|c w]; [done|].
  rewrite app_cons. simpl in *.
  destruct (is_space c) eqn:Hc; [|done].
  by rewrite (space_separator _ Hc) in Hpl.
Qed.

Lemma startsPlain_app x y : startsPlain x = true → startsPlain (x +:+ y) = true.
Proof. by destruct x. Qed.

Lemma startsPlain_skip x : startsPlain x = true → skip_spaces x = x.
Proof. destruct x as [|c x]; [done|]. simpl. by destruct (is_space c). Qed.

Lemma word_rev w : word w → word (rev_string "" w).
Proof.
  intros [Hne Hpl]. split; [|by rewrite plain_rev].
  intros H. by apply rev_string_empty in H.
Qed.

(** The words joined by single spaces begin and end with a code unit that
    is no white space. *)
Lemma concat_words_ends ws :
  Forall word ws → ws ≠ [] →
  startsPlain (String.concat " " ws) = true
  ∧ startsPlain (rev_string "" (String.concat " " ws)) = true.
Proof.
  induction 1 as [|w ws Hw Hws IH]; [done|]. intros _.
  destruct ws as [|w' ws].
  - simpl. split.
    + rewrite <- (app_empty_r w). by apply word_startsPlain.
    + rewrite <- (app_empty_r (rev_string "" w)).
      by apply word_startsPlain, word_rev.
  - rewrite concat_cons by done. split; [by apply word_startsPlain|].
    rewrite !rev_string_app. rewrite app_assoc_s.
    apply startsPlain_app. by apply IH.
Qed.

(** [trim] takes off the space before the first word and the space after
    the last one. *)
Lemma trim_between (a b : bool) m :
  startsPlain m = true → startsPlain (rev_string "" m) = true →
  trim ((if a then " " else "") +:+ m +:+ (if b then " " else "")) = m.
Proof.
  intros Hm Hr. unfold trim.
  assert (skip_spaces ((if a then " " else "") +:+ m +:+ (if b then " " else ""))
          = m +:+ (if b then " " else "")) as ->.
  { destruct a.
    - change (" " +:+ ?x) with (String " " x).
      change (skip_spaces (String " " ?x)) with (skip_spaces x).
      by apply startsPlain_skip, startsPlain_app.
    - change ("" +:+ ?x) with x. by apply startsPlain_skip, startsPlain_app. }
  rewrite rev_string_app.
  assert (skip_spaces (rev_string "" (if b then " " else "") +:+ rev_string "" m)
          = rev_string "" m) as ->.
  { destruct b.
    - change (rev_string "" " ") with " ".
      change (" " +:+ ?x) with (String " " x).
      change (skip_spaces (String " " ?x)) with (skip_spaces x).
      by apply startsPlain_skip.
    - change (rev_string "" "") with "". change ("" +:+ ?x) with x.
      by apply startsPlain_skip. }
  apply rev_string_involutive.
Qed.

(** The replacement followed by [trim] leaves the words, joined by single
    spaces. *)
Lemma trim_replace s :
  trim (replaceSeparators false s) = String.concat " " (words s).
Proof.
  rewrite replace_lead.
  pose proof (replace_words s "") as H.
  change (replaceSeparators true s
          = String.concat " " (words s) +:+ trailing (words s) s) in H.
  rewrite H. clear H.
  pose proof (wordsFrom_words s "" eq_refl) as Hws. fold (words s) in Hws.
  destruct (words s) as [|w ws] eqn:Hw.
  - simpl. by destruct (startsSeparator s).
  - destruct (concat_words_ends (w :: ws) Hws) as [H1 H2]; [done|].
    unfold trailing.
    by apply (trim_between (startsSeparator s) (endsSeparator s)).
Qed.

(** ** Code units *)

Lemma occurs_app c a b : occurs c (a +:+ b) = occurs c a || occurs c b.
Proof.
  induction a as [|x a IH]; [done|].
  rewrite app_cons. simpl. by rewrite IH, orb_assoc.
Qed.

Lemma occurs_rev c s : occurs c (rev_string "" s) = occurs c s.
Proof.
  induction s as [|x s IH]; [done|].
  simpl. rewrite rev_string_acc, occurs_app, IH. simpl.
  rewrite orb_false_r. apply orb_comm.
Qed.

Lemma occurs_skip c s : occurs c (skip_spaces s) = true → occurs c s = true.
Proof.
  induction s as [|x s IH]; [done|]. simpl.
  destruct (is_space x); [|done].
  intros H. rewrite (IH H). apply orb_true_r.
Qed.

Lemma occurs_trim c s : occurs c (trim s) = true → occurs c s = true.
Proof.
  unfold trim. rewrite occurs_rev. intros H.
  apply occurs_skip in H. rewrite occurs_rev in H. by apply occurs_skip.
Qed.

Lemma occurs_replace c s : ∀ inMatch,
  occurs c (replaceSeparators inMatch s) = true → occurs c s = true ∨ c = " "%char.
Proof.
  induction s as [|x s IH]; intros inMatch; [done|]. simpl.
  destruct (isSeparator x).
  - destruct inMatch; simpl.
    + intros H. destruct (IH _ H) as [H'|H']; [|by right].
      left. rewrite H'. apply orb_true_r.
    + destruct (Ascii.eqb_spec c " "); [by right|]. simpl.
      intros H. destruct (IH _ H) as [H'|H']; [|by right].
      left. rewrite H'. apply orb_true_r.
  - simpl. destruct (Ascii.eqb c x); [by left|]. simpl.
    intros H. destruct (IH _ H) as [H'|H']; [by left|by right].
Qed.

Lemma indexOf_unfold needle s :
  indexOf needle s
  = if String.prefix needle s then Some 0%nat
    else match s with
         | EmptyString => None
         | String _ rest => S <$> indexOf needle rest
         end.
Proof. by destruct s. Qed.

Lemma indexOf_char c s : indexOf (String c "") s = None ↔ occurs c s = false.
Proof.
  induction s as [|x s IH]; [done|]. simpl.
  destruct (ascii_dec c x) as [->|Hne].
  - rewrite Ascii.eqb_refl. by destruct s.
  - apply Ascii.eqb_neq in Hne. rewrite Hne. simpl.
    destruct (indexOf (String c "") s); simpl.
    + split; [done|]. intros H. by apply IH in H.
    + split; [|done]. intros _. by apply IH.
Qed.

Lemma prefix_app needle b : String.prefix needle (needle +:+ b) = true.
Proof.
  induction needle as [|c needle IH]; [by destruct b|].
  rewrite app_cons. simpl. by destruct (ascii_dec c c).
Qed.

Lemma indexOf_app needle a b : is_Some (indexOf needle (a +:+ needle +:+ b)).
Proof.
  induction a as [|c a IH].
  - change ("" +:+ ?x) with x. rewrite indexOf_unfold, prefix_app. by eexists.
  - rewrite app_cons, indexOf_unfold.
    destruct (String.prefix _ _); [by eexists|].
    destruct IH as [n ->]. by eexists.
Qed.

(** ** What [gqlcompat] returns *)

Lemma wordsFrom_app_plain t : ∀ cur s,
  plain t = true → wordsFrom cur (t +:+ s) = wordsFrom (cur +:+ t) s.
Proof.
  induction t as [|c t IH]; intros cur s Hpl.
  - by rewrite app_empty_r.
  - simpl in Hpl. apply andb_true_iff in Hpl as [Hc Ht].
    apply negb_true_iff in Hc.
    rewrite app_cons. simpl. rewrite Hc, IH by done.
    by rewrite app_assoc_s.
Qed.

Lemma words_concat ws :
  Forall word ws → words (String.concat " " ws) = ws.
Proof.
  unfold words. induction 1 as [|w ws [Hne Hpl] Hws IH]; [done|].
  destruct ws as [|w' ws].
  - change (String.concat " " [w]) with w.
    transitivity (wordsFrom "" (w +:+ "")); [by rewrite app_empty_r|].
    rewrite wordsFrom_app_plain by done. change ("" +:+ w) with w.
    simpl. apply String.eqb_neq in Hne. by rewrite Hne.
  - rewrite concat_cons by done.
    rewrite wordsFrom_app_plain by done.
    change ("" +:+ w) with w.
    change (" " +:+ ?x) with (String " " x).
    simpl wordsFrom at 1. apply String.eqb_neq in Hne. rewrite Hne.
    f_equal. exact IH.
Qed.

Lemma no_quote_kept v :
  indexOf dquote v = None →
  indexOf dquote (trim (replaceSeparators false v)) = None.
Proof.
  unfold dquote. rewrite !indexOf_char. intros Hv.
  destruct (occurs _ (trim _)) eqn:H; [|done].
  apply occurs_trim, occurs_replace in H as [H|H]; [congruence|discriminate].
Qed.

(** X1: The string that [gqlcompat] returns: the template's text as it stands
    when it holds a double quote, and otherwise its words (the longest runs
    without white space and commas) joined by single spaces. *)
Theorem gqlcompat_words (strings params : list (option string)) :
  (gqlcompat strings params).1
  = match indexOf dquote (templateValue strings params) with
    | None => String.concat " " (words (templateValue strings params))
    | Some _ => templateValue strings params
    end.
Proof.
  unfold gqlcompat. cbn [fst].
  destruct (indexOf dquote _); [done|]. apply trim_replace.
Qed.

(** X2: [gqlcompat] applied to its own result returns it, and logs the same. *)
Theorem gqlcompat_idempotent (strings params : list (option string)) :
  gqlcompat [Some (gqlcompat strings params).1] [] = gqlcompat strings params.
Proof.
  unfold gqlcompat. cbn [fst templateValue appendParts orEmpty].
  set (v := templateValue strings params).
  destruct (indexOf dquote v) eqn:Hq.
  - by rewrite Hq.
  - rewrite (no_quote_kept v Hq).
    assert (trim (replaceSeparators false (trim (replaceSeparators false v)))
            = trim (replaceSeparators false v)) as ->; [|done].
    rewrite (trim_replace v), trim_replace, words_concat; [done|].
    apply wordsFrom_words. done.
Qed.

(** ** Parameters that are [undefined] *)

Lemma appendParts_value rest params : ∀ i v,
  ∃ t, appendParts i rest params v = v +:+ t.
Proof.
  induction rest as [|s rest IH]; intros i v; simpl.
  - exists "". by rewrite app_empty_r.
  - destruct (IH (S i) (v +:+ paramText params (i - 1) +:+ orEmpty s)) as [t ->].
    eexists. by rewrite !app_assoc_s.
Qed.

Lemma appendParts_param rest params : ∀ (i : nat) v (j : nat) s,
  (1 ≤ i)%nat → rest !! j = Some s →
  ∃ a b, appendParts i rest params v = a +:+ paramText params (i - 1 + j) +:+ b.
Proof.
  induction rest as [|s' rest IH]; intros i v j s Hi Hj; [done|].
  destruct j as [|j]; simpl.
  - destruct (appendParts_value rest params (S i)
                (v +:+ paramText params (i - 1) +:+ orEmpty s')) as [t ->].
    exists v, (orEmpty s' +:+ t).
    rewrite Nat.add_0_r. by rewrite !app_assoc_s.
  - simpl in Hj.
    destruct (IH (S i) (v +:+ paramText params (i - 1) +:+ orEmpty s') j s)
      as (a & b & ->); [lia|done|].
    exists a, b. do 3 f_equal. lia.
Qed.

Lemma replace_plain_app w b :
  plain w = true →
  replaceSeparators false (w +:+ b) = w +:+ replaceSeparators false b.
Proof.
  induction w as [|c w IH]; [done|]. simpl.
  intros [Hc Hw]%andb_true_iff. apply negb_true_iff in Hc.
  rewrite app_cons. simpl. by rewrite Hc, IH.
Qed.

Lemma replace_keeps w : word w → ∀ a b inMatch,
  ∃ a' b', replaceSeparators inMatch (a +:+ w +:+ b) = a' +:+ w +:+ b'.
Proof.
  intros [Hne Hpl]. induction a as [|c a IH]; intros b inMatch.
  - change ("" +:+ ?x) with x. exists "", (replaceSeparators false b).
    change ("" +:+ ?x) with x.
    rewrite <- (replace_plain_app w b Hpl).
    destruct w as [|c w]; [done|]. rewrite app_cons. simpl in *.
    apply andb_true_iff in Hpl as [Hc _]. apply negb_true_iff in Hc.
    by rewrite Hc.
  - rewrite app_cons. simpl. destruct (isSeparator c).
    + destruct (IH b true) as (a' & b' & ->).
      destruct inMatch; [by exists a', b'|].
      by exists (String " " a'), b'.
    + destruct (IH b false) as (a' & b' & ->).
      by exists (String c a'), b'.
Qed.

Lemma skip_keeps w : startsPlain w = true → ∀ a b,
  ∃ a', skip_spaces (a +:+ w +:+ b) = a' +:+ w +:+ b.
Proof.
  intros Hw. induction a as [|c a IH]; intros b.
  - exists "". change ("" +:+ ?x) with x.
    by apply startsPlain_skip, startsPlain_app.
  - rewrite app_cons. simpl. destruct (is_space c).
    + apply IH.
    + by exists (String c a).
Qed.

Lemma trim_keeps w : word w → ∀ a b,
  ∃ a' b', trim (a +:+ w +:+ b) = a' +:+ w +:+ b'.
Proof.
  intros Hw a b. unfold trim.
  assert (Hs : startsPlain w = true).
  { rewrite <- (app_empty_r w). by apply word_startsPlain. }
  assert (Hr : startsPlain (rev_string "" w) = true).
  { rewrite <- (app_empty_r (rev_string "" w)). by apply word_startsPlain, word_rev. }
  destruct (skip_keeps w Hs a b) as [a1 ->].
  rewrite !rev_string_app, app_assoc_s.
  destruct (skip_keeps _ Hr (rev_string "" b) (rev_string "" a1)) as [b1 ->].
  rewrite !rev_string_app, !rev_string_involutive, app_assoc_s.
  by exists a1, (rev_string "" b1).
Qed.

(** X3: When one of the parameters that the template uses is missing or
    [undefined], [gqlcompat] logs the error. *)
Theorem gqlcompat_logs_undefined_param (strings params : list (option string))
  (i : nat) :
  (S i < length strings)%nat →
  params !! i = None ∨ params !! i = Some None →
  (gqlcompat strings params).2 = true.
Proof.
  intros Hi Hp.
  assert (Hw : word "undefined") by (split; [discriminate|reflexivity]).
  assert (Hv : ∃ a b, templateValue strings params = a +:+ "undefined" +:+ b).
  { destruct strings as [|s0 rest]; simpl in Hi; [lia|].
    destruct (lookup_lt_is_Some_2 rest i) as [s Hs]; [lia|].
    destruct (appendParts_param rest params 1 (orEmpty s0) i s) as (a & b & H);
      [lia|done|].
    exists a, b. simpl. rewrite H. unfold paramText. simpl.
    by destruct Hp as [-> | ->]. }
  destruct Hv as (a & b & Hv).
  unfold gqlcompat. cbn [snd]. rewrite Hv.
  apply bool_decide_eq_true.
  destruct (indexOf dquote _).
  - apply indexOf_app.
  - destruct (replace_keeps "undefined" Hw a b false) as (a1 & b1 & ->).
    destruct (trim_keeps "undefined" Hw a1 b1) as (a2 & b2 & ->).
    apply indexOf_app.
Qed.

Lemma gqlcompat_logs_undefined_param_witness :
  (1 < length [Some "query { item(id: "; Some ") { name } }"])%nat
  ∧ ([] : list (option string)) !! 0%nat = None
  ∧ gqlcompat [Some "query { item(id: "; Some ") { name } }"] []
    = ("query { item(id: undefined) { name } }", true).
Proof.
  split; [simpl; lia|]. split; [reflexivity|].
  pose proof (gqlcompat_logs_undefined_param
                [Some "query { item(id: "; Some ") { name } }"] [] 0
                ltac:(simpl; lia) (or_introl eq_refl)) as H.
  destruct (gqlcompat _ _) as [r l] eqn:Hg. simpl in H. subst l.
  vm_compute in Hg. by injection Hg as <-.
Defined.

End TagFacts.

(** * Properties of the request that is sent *)
Module RequestFacts.
Import JS Tag TagFacts Request.

Lemma allOf_app p a b : allOf p (a +:+ b) = allOf p a && allOf p b.
Proof.
  induction a as [|c a IH]; [done|].
  rewrite app_cons. simpl. by rewrite IH, andb_assoc.
Qed.

Lemma encodeUnit_written c : allOf written (encodeUnit c) = true.
Proof.
  destruct c as [[] [] [] [] [] [] [] []]; vm_compute; reflexivity.
Qed.

Lemma encodeURIComponent_written s : allOf written (encodeURIComponent s) = true.
Proof.
  induction s as [|c s IH]; [done|].
  simpl. by rewrite allOf_app, encodeUnit_written, IH.
Qed.

Lemma allOf_occurs p s c : allOf p s = true → occurs c s = true → p c = true.
Proof.
  induction s as [|x s IH]; [done|]. simpl.
  intros [Hx Hs]%andb_true_iff [Hc|Hc]%orb_true_iff.
  - apply Ascii.eqb_eq in Hc. by subst.
  - by apply IH.
Qed.

Lemma assoc_get_partialRequest request :
  assoc_get "documentId" (partialRequest request) = JUndef.
Proof.
  unfold partialRequest. induction request as [|[k v] request IH]; [done|].
  rewrite filter_cons. cbn [fst].
  destruct (decide (k ≠ "documentId")) as [Hk|Hk].
  - cbn [assoc_get]. apply String.eqb_neq in Hk.
    rewrite String.eqb_sym, Hk. exact IH.
  - exact IH.
Qed.

Lemma assoc_get_partialRequest_ne request k :
  k ≠ "documentId" → assoc_get k (partialRequest request) = assoc_get k request.
Proof.
  intros Hk. unfold partialRequest.
  induction request as [|[k' v] request IH]; [done|].
  rewrite filter_cons. cbn [fst].
  destruct (decide (k' ≠ "documentId")) as [Hk'|Hk'].
  - cbn [assoc_get]. by rewrite IH.
  - apply dec_stable in Hk'. subst k'. cbn [assoc_get].
    apply String.eqb_neq in Hk. by rewrite Hk.
Qed.

(** The url of a request whose document id goes into the query string. *)
Lemma requestUrl_query (c : GraphQLClient) (request : list (string * json)) :
  idAsQuery c request = true →
  requestUrl c request
  = url c +:+ (if occurs "?" (url c) then "&" else "?") +:+ "documentId="
    +:+ encodeURIComponent (toString (assoc_get "documentId" request)).
Proof.
  intros Hq. unfold requestUrl. rewrite Hq.
  destruct (indexOf "?" (url c)) eqn:Hi.
  - destruct (occurs "?" (url c)) eqn:Ho; [done|].
    apply indexOf_char in Ho. congruence.
  - apply indexOf_char in Hi. by rewrite Hi.
Qed.

(** X4: A document id goes to the server in one place.  When the client sends it
    as a query parameter, the url is the configured one followed by [&] or
    [?], [documentId=] and the encoded id, and so differs from the
    configured one; the object that is serialised has no [documentId] (its
    other properties are kept), and the form has no such field.  When it
    does not, the url is the configured one, the request is serialised as
    it stands, and the form has the field with the id. *)
Theorem documentId_sent_once (c : GraphQLClient) (request : list (string * json)) :
  has request "documentId" = true →
  (flag (sendDocumentIdAsQuery c) = true →
     requestUrl c request
     = url c +:+ (if occurs "?" (url c) then "&" else "?") +:+ "documentId="
       +:+ encodeURIComponent (toString (assoc_get "documentId" request))
     ∧ requestUrl c request ≠ url c
     ∧ assoc_get "documentId" (jsonObject c request) = JUndef
     ∧ (∀ k, k ≠ "documentId" →
             assoc_get k (jsonObject c request) = assoc_get k request)
     ∧ "documentId" ∉ (formData c request).*1)
  ∧ (flag (sendDocumentIdAsQuery c) = false →
     requestUrl c request = url c
     ∧ jsonObject c request = request
     ∧ ("documentId", toString (assoc_get "documentId" request))
       ∈ formData c request).
Proof.
  intros Hid. split; intros Hflag.
  - split.
    { apply requestUrl_query. unfold idAsQuery. by rewrite Hid, Hflag. }
    unfold requestUrl, jsonObject, idAsQuery, formData. rewrite Hid, Hflag. simpl.
    split_and!.
    + intros H.
      assert (H' : url c
                   +:+ (match indexOf "?" (url c) with Some _ => "&" | None => "?" end)
                   +:+ "documentId="
                   +:+ encodeURIComponent (toString (assoc_get "documentId" request))
                   = url c +:+ "") by (by rewrite app_empty_r).
      apply (inj (String.app (url c))) in H'.
      by destruct (indexOf "?" (url c)).
    + apply assoc_get_partialRequest.
    + intros k Hk. by apply assoc_get_partialRequest_ne.
    + destruct (has request "query"), (has request "variables"),
        (has request "operationName"), (has request "extensions"); simpl;
        rewrite ?elem_of_cons, ?elem_of_nil; intros H; decompose [or] H;
        discriminate || done.
  - unfold requestUrl, jsonObject, idAsQuery, formData. rewrite Hid, Hflag. simpl.
    split_and!; [done..|].
    destruct (has request "query"); simpl; rewrite ?elem_of_cons; auto.
Qed.

Lemma documentId_sent_once_witness :
  has persistedRequest "documentId" = true
  ∧ flag (sendDocumentIdAsQuery persistedClient) = true
  ∧ requestUrl persistedClient persistedRequest
    = "https://example.org/graphql?v=2&documentId=a%20b%26c"
  ∧ requestBody persistedClient persistedRequest
    = TextBody (stringify (JObj [("variables", JObj [("id", JNum 7)])]))
  ∧ assoc_get "documentId" (jsonObject persistedClient persistedRequest) = JUndef.
Proof.
  split; [reflexivity|]. split; [reflexivity|].
  destruct (documentId_sent_once persistedClient persistedRequest eq_refl)
    as [H _].
  destruct (H eq_refl) as (Hurl & _ & Hbody & _).
  split; [rewrite Hurl; reflexivity|]. split; [reflexivity|exact Hbody].
Defined.

(** X5: The url of a request whose document id goes into the query string: the
    configured url, then [&] when it holds a question mark and [?] when it
    does not, then the parameter, whose value consists of unescaped code
    units and percent signs only. *)
Theorem requestUrl_parameter (c : GraphQLClient) (request : list (string * json)) :
  idAsQuery c request = true →
  let value := encodeURIComponent (toString (assoc_get "documentId" request)) in
  requestUrl c request
  = url c +:+ (if occurs "?" (url c) then "&" else "?") +:+ "documentId=" +:+ value
  ∧ ∀ ch, occurs ch value = true → unescaped ch = true ∨ ch = "%"%char.
Proof.
  intros Hq value. split.
  - unfold requestUrl. rewrite Hq.
    destruct (indexOf "?" (url c)) eqn:Hi.
    + destruct (occurs "?" (url c)) eqn:Ho; [done|].
      apply indexOf_char in Ho. congruence.
    + apply indexOf_char in Hi. by rewrite Hi.
  - intros ch Hch.
    pose proof (allOf_occurs written value ch
                  (encodeURIComponent_written _) Hch) as H.
    unfold written in H. apply orb_true_iff in H as [H|H]; [by left|].
    right. by apply Ascii.eqb_eq in H.
Qed.

Lemma requestUrl_parameter_witness :
  idAsQuery persistedClient persistedRequest = true
  ∧ requestUrl persistedClient persistedRequest
    = "https://example.org/graphql?v=2&documentId=a%20b%26c".
Proof.
  split; [reflexivity|].
  destruct (requestUrl_parameter persistedClient persistedRequest eq_refl)
    as [-> _].
  reflexivity.
Defined.

End RequestFacts.

(** * Properties of the calls on the cache *)
Module StoreFacts.
Import JS Cache CacheFacts Store.

(** ** Changes of cells *)

Lemma cellsOnly_refl st : cellsOnly st st.
Proof. unfold cellsOnly. split_and!; done. Qed.

Lemma cellsOnly_trans a b c : cellsOnly a b → cellsOnly b c → cellsOnly a c.
Proof.
  intros (? & ? & ? & ? & ? & ? & Hab) (? & ? & ? & ? & ? & ? & Hbc).
  split_and!; try congruence.
  intros e. destruct (Hab e) as (? & ? & ? & ? & ? & ?).
  destruct (Hbc e) as (? & ? & ? & ? & ? & ?).
  split_and!; try congruence. auto.
Qed.

Lemma cellsOnly_sound st st' : cellsOnly st st' → sound st → sound st'.
Proof.
  intros (Hc & _ & _ & _ & _ & Hlen & He) [[Hnd Hent] Hcells]. split; [split|].
  - by rewrite Hc.
  - intros k e Hin. rewrite Hc in Hin. destruct (Hent k e Hin) as [Hlt Hk].
    rewrite Hlen. split; [done|]. destruct (He e) as (-> & _). done.
  - intros e Hlt. rewrite Hlen in Hlt. destruct (He e) as (_ & _ & _ & _ & _ & H).
    by apply H, Hcells.
Qed.

Lemma cellFun_setCell g : cellFun (setCell g).
Proof.
  intros v. unfold setCell. destruct (response v) eqn:Hv; simpl; rewrite ?Hv; done.
Qed.

Lemma cellFun_setCancelRequest x : cellFun (setCancelRequest x).
Proof. intros v. simpl. done. Qed.

Lemma entry_update e f st e' :
  entry (update e f st) e'
  = if decide (e = e' ∧ (e < length (heap st))%nat) then f (entry st e') else entry st e'.
Proof.
  unfold entry, update; simpl.
  destruct (decide (e = e')) as [->|Hne].
  - destruct (decide ((e' < length (heap st))%nat)) as [Hlt|Hge].
    + rewrite list_lookup_total_alter_eq by done.
      by rewrite decide_True.
    + rewrite decide_False by tauto.
      rewrite !list_lookup_total_alt.
      rewrite list_lookup_alter_eq.
      by rewrite (lookup_ge_None_2 (heap st) e') by lia.
  - rewrite list_lookup_total_alter_ne by done.
    by rewrite decide_False by tauto.
Qed.

Lemma update_cellsOnly e f st : cellFun f → cellsOnly st (update e f st).
Proof.
  intros Hf. unfold cellsOnly. split_and!; try done.
  - apply heap_update_length.
  - intros e'. unfold hasCell. rewrite entry_update. case_decide; [|done].
    apply Hf.
Qed.

Lemma update_others e f st e' : e' ≠ e → entry (update e f st) e' = entry st e'.
Proof. intros Hne. by apply entry_update_ne. Qed.

(** ** [refresh], [forceRefresh] and [clearAndRefresh] on a cell *)

Lemma refresh_defaults e st p st' :
  refresh e st = Some (p, st') →
  defaultCachePolicy st' = defaultCachePolicy st
  ∧ defaultCacheTime st' = defaultCacheTime st.
Proof.
  unfold refresh. destruct (response (entry st e)) as [c|]; [|done].
  cbn [mbind option_bind]. destruct (loading c); by intros [= _ <-].
Qed.

Lemma refresh_effect e st c :
  response (entry st e) = Some c →
  ∃ st',
    refresh e st
    = Some (if loading c then resultPromise c else Some (requests st), st')
    ∧ cellsOnly st st'
    ∧ (∀ e', e' ≠ e → entry st' e' = entry st e')
    ∧ response (entry st' e)
      = Some (if loading c then c
              else mkCell (result c) (Some (requests st)) true (cacheMode c)
                     (cacheTimeoutValue c))
    ∧ requests st' = (if loading c then requests st else S (requests st))
    ∧ pendingRequests st'
      = (if loading c then pendingRequests st else pendingRequests st + 1)
    ∧ cancelled st' = cancelled st
    ∧ delivered st' = delivered st.
Proof.
  intros Hc. destruct (loading c) eqn:Hl.
  - exists st. unfold refresh. rewrite Hc. simpl. rewrite Hl.
    split_and!; try done; apply cellsOnly_refl.
  - destruct (refresh_idle e st c Hc Hl)
      as (st1 & Hrun & Hc1 & Hcan & Hreq & Hpen & Hcache & Hcs & Hmax & Hlen
          & Hother & Hkey & Hsize & Hexp & Hlu & Hsubs & Hcanc & Hdel).
    exists st1. split_and!; try done.
    unfold cellsOnly. split_and!; try done.
    + by destruct (refresh_defaults _ _ _ _ Hrun).
    + by destruct (refresh_defaults _ _ _ _ Hrun).
    + intros e'. destruct (decide (e' = e)) as [->|Hne].
      * split_and!; try done. intros _. unfold hasCell. by rewrite Hc1.
      * unfold hasCell. rewrite (Hother e' Hne). split_and!; done.
Qed.

Lemma forceRefresh_effect e st c :
  response (entry st e) = Some c →
  ∃ st',
    forceRefresh e st = Some st'
    ∧ cellsOnly st st'
    ∧ (∀ e', e' ≠ e → entry st' e' = entry st e')
    ∧ response (entry st' e)
      = Some (mkCell (result c) (Some (requests st)) true (cacheMode c)
                (cacheTimeoutValue c))
    ∧ cancelRequest (entry st' e) = Some (requests st)
    ∧ requests st' = S (requests st)
    ∧ pendingRequests st' = pendingRequests st + 1
    ∧ cancelled st'
      = cancelled st
        ++ (if loading c then option_list (cancelRequest (entry st e)) else [])
    ∧ delivered st' = delivered st.
Proof.
  intros Hc. pose proof (entry_in_range st e c Hc) as Hlt.
  unfold forceRefresh. rewrite Hc. cbn [mbind option_bind].
  destruct (loading c) eqn:Hl.
  - set (st0 := match cancelRequest (entry st e) with
                | Some h => withCancelled (cancelled st ++ [h]) st
                | None => st
                end).
    assert (H0 : heap st0 = heap st ∧ requests st0 = requests st
                 ∧ pendingRequests st0 = pendingRequests st
                 ∧ delivered st0 = delivered st
                 ∧ cellsOnly st st0
                 ∧ cancelled st0
                   = cancelled st ++ option_list (cancelRequest (entry st e))).
    { unfold st0. destruct (cancelRequest (entry st e)); simpl;
        rewrite ?app_nil_r; split_and!; try done; apply cellsOnly_refl. }
    destruct H0 as (Hh0 & Hr0 & Hp0 & Hd0 & Hco0 & Hcan0).
    set (st' := update e (setCell (setResultPromise None))
                  (update e (setCell (setLoading false))
                     (update e (setCancelRequest None) st0))).
    assert (Hco' : cellsOnly st st').
    { eapply cellsOnly_trans; [exact Hco0|].
      eapply cellsOnly_trans; [apply update_cellsOnly, cellFun_setCancelRequest|].
      eapply cellsOnly_trans; [apply update_cellsOnly, cellFun_setCell|].
      apply update_cellsOnly, cellFun_setCell. }
    assert (Hot' : ∀ e', e' ≠ e → entry st' e' = entry st e').
    { intros e' Hne. unfold st'. rewrite !entry_update_ne by done.
      unfold entry. by rewrite Hh0. }
    assert (Hc' : response (entry st' e)
                  = Some (mkCell (result c) None false (cacheMode c)
                            (cacheTimeoutValue c))).
    { unfold st', entry, update; simpl. rewrite Hh0.
      rewrite !list_lookup_total_alter_eq by (rewrite ?length_alter; done).
      fold (entry st e). unfold setCell. simpl. rewrite Hc. simpl. done. }
    destruct (refresh_effect e st' _ Hc')
      as (st1 & Hrun & Hco1 & Hot1 & Hc1 & Hreq & Hpen & Hcanc & Hdel).
    cbn [loading result cacheMode cacheTimeoutValue] in *.
    exists st1. rewrite Hrun. cbn [fmap option_fmap option_map snd].
    assert (Hreq' : requests st' = requests st) by (unfold st'; simpl; done).
    assert (Hpen' : pendingRequests st' = pendingRequests st)
      by (unfold st'; simpl; done).
    assert (Hcan' : cancelled st' = cancelled st0) by done.
    assert (Hdel' : delivered st' = delivered st0) by done.
    rewrite Hreq' in *. rewrite Hpen' in *.
    split; [done|]. split; [by eapply cellsOnly_trans|].
    split; [intros e' Hne; rewrite Hot1 by done; by apply Hot'|].
    split; [done|].
    split.
    { destruct (refresh_idle e st' _ Hc' eq_refl) as (st2 & Hrun2 & _ & Hcr & _).
      rewrite Hreq' in Hrun2. rewrite Hrun in Hrun2. injection Hrun2 as <-.
      by rewrite Hcr, Hreq'. }
    split; [done|]. split; [done|]. split; congruence.
  - destruct (refresh_effect e st c Hc)
      as (st1 & Hrun & Hco1 & Hot1 & Hc1 & Hreq & Hpen & Hcanc & Hdel).
    rewrite Hl in *.
    exists st1. rewrite Hrun. cbn [fmap option_fmap option_map snd].
    split; [done|]. split; [done|]. split; [done|]. split; [done|].
    split.
    { destruct (refresh_idle e st c Hc Hl) as (st2 & Hrun2 & _ & Hcr & _).
      rewrite Hrun in Hrun2. by injection Hrun2 as <-. }
    split; [done|]. split; [done|]. split; [by rewrite app_nil_r|done].
Qed.

Lemma clearAndRefresh_effect e st c :
  response (entry st e) = Some c →
  ∃ st',
    clearAndRefresh e st = Some st'
    ∧ cellsOnly st st'
    ∧ (∀ e', e' ≠ e → entry st' e' = entry st e')
    ∧ response (entry st' e)
      = Some (mkCell None (Some (requests st)) true (cacheMode c)
                (cacheTimeoutValue c))
    ∧ cancelRequest (entry st' e) = Some (requests st)
    ∧ requests st' = S (requests st)
    ∧ pendingRequests st' = pendingRequests st + 1
    ∧ cancelled st'
      = cancelled st
        ++ (if loading c then option_list (cancelRequest (entry st e)) else [])
    ∧ delivered st'
      = delivered st
        ++ (match result c with
            | Some _ => map (λ s, (s, None)) (subscribers (entry st e))
            | None => []
            end).
Proof.
  intros Hc. pose proof (entry_in_range st e c Hc) as Hlt.
  destruct (forceRefresh_effect e st c Hc)
    as (st1 & Hrun & Hco1 & Hot1 & Hc1 & Hcr & Hreq & Hpen & Hcanc & Hdel).
  unfold clearAndRefresh. rewrite Hrun. cbn [mbind option_bind].
  rewrite Hc1. cbn [mbind option_bind result].
  destruct (result c) as [r|] eqn:Hr.
  - eexists. split; [reflexivity|].
    assert (Hlt1 : (e < length (heap st1))%nat).
    { destruct Hco1 as (_ & _ & _ & _ & _ & -> & _). done. }
    split_and!.
    + eapply cellsOnly_trans; [exact Hco1|].
      apply (update_cellsOnly e (setCell (setResult None)) st1), cellFun_setCell.
    + intros e' Hne. rewrite entry_notifySubscribers, entry_update_ne by done.
      by apply Hot1.
    + rewrite entry_notifySubscribers, entry_update_eq by done.
      unfold setCell. rewrite Hc1. done.
    + rewrite entry_notifySubscribers, entry_update_eq by done.
      unfold setCell. rewrite Hc1. done.
    + done.
    + done.
    + done.
    + rewrite delivered_notifySubscribers.
      rewrite entry_update_eq by done.
      destruct Hco1 as (_ & _ & _ & _ & _ & _ & He).
      destruct (He e) as (_ & _ & _ & _ & Hs & _).
      change (delivered (update e (setCell (setResult None)) st1))
        with (delivered st1).
      rewrite Hdel. f_equal. unfold setCell. rewrite Hc1. simpl. by rewrite Hs.
  - exists st1. split_and!; try done. by rewrite app_nil_r.
Qed.

(** ** [clearCache] *)

Lemma expire_all_same l : ∀ st,
  foldl (λ s e, update e (setExpires 0) s) st l
  = withHeap (heap (foldl (λ s e, update e (setExpires 0) s) st l)) st.
Proof.
  induction l as [|x l IH]; intros st.
  - simpl. by destruct st.
  - simpl. rewrite (IH (update x (setExpires 0) st)) at 1. done.
Qed.

Lemma expire_all_entry l : ∀ st e,
  entry (foldl (λ s e, update e (setExpires 0) s) st l) e
  = if decide (e ∈ l ∧ (e < length (heap st))%nat)
    then setExpires 0 (entry st e) else entry st e.
Proof.
  induction l as [|x l IH]; intros st e.
  - cbn [foldl]. case_decide as H; [|done]. destruct H as [H _].
    by apply elem_of_nil in H.
  - cbn [foldl]. rewrite IH, heap_update_length, entry_update.
    repeat case_decide; try done; exfalso;
      rewrite ?elem_of_cons in *; intuition (subst; eauto; congruence).
Qed.

Lemma expire_all_length l : ∀ st,
  length (heap (foldl (λ s e, update e (setExpires 0) s) st l)) = length (heap st).
Proof.
  induction l as [|x l IH]; intros st; [done|].
  simpl. rewrite IH. apply heap_update_length.
Qed.

Lemma clearCache_changes (nowDate : Z) (st : Client) :
  wf st →
  ∃ st',
    clearCache nowDate st = Some st'
    ∧ wf st'
    ∧ (∀ p, p ∈ cache st' → p ∈ cache st)
    ∧ (∀ k e, (k, e) ∈ cache st → subscribers (entry st e) ≠ [] →
              (k, e) ∈ cache st')
    ∧ (∀ k e, (k, e) ∈ cache st → entry st' e = setExpires 0 (entry st e))
    ∧ (∀ e, e ∉ (cache st).*2 → entry st' e = entry st e)
    ∧ (0 < cacheSize st → 0 < nowDate →
       ∀ k e, (k, e) ∈ cache st' → subscribers (entry st' e) ≠ [])
    ∧ (cacheSize st ≤ 0 → cache st' = cache st)
    ∧ length (heap st') = length (heap st)
    ∧ requests st' = requests st
    ∧ pendingRequests st' = pendingRequests st
    ∧ cancelled st' = cancelled st
    ∧ delivered st' = delivered st
    ∧ maxCacheSize st' = maxCacheSize st.
Proof.
  intros Hwf. unfold clearCache.
  set (st0 := foldl (λ s e, update e (setExpires 0) s) st (cache st).*2).
  pose proof (wf_expire_all (cache st).*2 st Hwf) as Hwf0. fold st0 in Hwf0.
  pose proof (expire_all_same (cache st).*2 st) as Hst0. fold st0 in Hst0.
  assert (Hcache0 : cache st0 = cache st) by (by rewrite Hst0).
  assert (Hcs0 : cacheSize st0 = cacheSize st) by (by rewrite Hst0).
  assert (Hmax0 : maxCacheSize st0 = maxCacheSize st) by (by rewrite Hst0).
  assert (He0 : ∀ k e, (k, e) ∈ cache st → entry st0 e = setExpires 0 (entry st e)).
  { intros k e Hin. unfold st0. rewrite expire_all_entry.
    rewrite decide_True; [done|]. split.
    - apply refs_elem. by exists k.
    - by destruct (proj2 Hwf k e Hin). }
  assert (Hn0 : ∀ e, e ∉ (cache st).*2 → entry st0 e = entry st e).
  { intros e Hn. unfold st0. rewrite expire_all_entry.
    rewrite decide_False; [done|]. tauto. }
  assert (Hlen0 : length (heap st0) = length (heap st)).
  { apply expire_all_length. }
  replace (maxCacheSize st) with (maxCacheSize st0) by done.
  destruct (allocate_spec nowDate (maxCacheSize st0) None st0 Hwf0)
    as (st' & Hrun & Hid & Hev & _ & Hsame & Hwf' & Hsub & Hkeep).
  pose proof (λ e, sameButCache_entry st0 st' e Hsame) as He'.
  apply sameButCache_fields in Hsame
    as (Hh & Hmax & _ & _ & Hpen & Hreq & Hcan & Hdel).
  exists st'. split; [done|]. split; [done|]. split_and!.
  - intros p Hp. rewrite <- Hcache0. by apply Hsub.
  - intros k e Hin Hs. apply Hkeep; [by rewrite Hcache0|].
    by rewrite (He0 k e Hin).
  - intros k e Hin. by rewrite He', (He0 k e Hin).
  - intros e Hn. by rewrite He', Hn0.
  - intros Hpos Hnow k e Hin.
    assert (Hneed : 0 < needBytes (maxCacheSize st0) st0)
      by (unfold needBytes; lia).
    destruct (evictsUntilFits_keeps _ _ _ _ (wf_dropExpired nowDate st0 Hwf0)
                (Hev Hneed)) as (_ & _ & Hsub2 & _).
    apply Hsub2 in Hin. unfold dropExpired in Hin; simpl in Hin.
    apply list_elem_of_filter in Hin as [Hnot Hin]. simpl in Hnot.
    rewrite Hcache0 in Hin. rewrite He', (He0 k e Hin). simpl.
    intros Hs. apply Hnot. unfold idleAndExpired.
    rewrite (He0 k e Hin). simpl. done.
  - intros Hle. rewrite Hid; [done|]. unfold needBytes. lia.
  - by rewrite Hh.
  - rewrite Hreq. by rewrite Hst0.
  - rewrite Hpen. by rewrite Hst0.
  - rewrite Hcan. by rewrite Hst0.
  - rewrite Hdel. by rewrite Hst0.
  - by rewrite Hmax.
Qed.

Lemma clearCache_sound nowDate st st' :
  sound st → clearCache nowDate st = Some st' → sound st'.
Proof.
  intros [Hwf Hcells] Hrun.
  destruct (clearCache_changes nowDate st Hwf)
    as (st2 & Hrun2 & Hwf2 & _ & _ & Hin & Hout & _ & _ & Hlen & _).
  rewrite Hrun in Hrun2. injection Hrun2 as <-.
  split; [done|]. intros e Hlt. rewrite Hlen in Hlt.
  specialize (Hcells e Hlt). unfold hasCell in *.
  destruct (decide (e ∈ (cache st).*2)) as [He|He].
  - apply refs_elem in He as [k Hk]. by rewrite (Hin k e Hk).
  - by rewrite (Hout e He).
Qed.

(** X6: What [clearCache] does: every entry of the map gets [expires] 0; the
    entries with a subscriber stay, and nothing enters the map; when the
    running total is positive (and the clock is), no entry without a
    subscriber is left in the map; when the total is not positive, the map
    stays as it is.  No request is started and no subscriber is called. *)
Theorem clearCache_effect (nowDate : Z) (st : Client) :
  wf st →
  ∃ st',
    clearCache nowDate st = Some st'
    ∧ (∀ p, p ∈ cache st' → p ∈ cache st)
    ∧ (∀ k e, (k, e) ∈ cache st → subscribers (entry st e) ≠ [] →
              (k, e) ∈ cache st')
    ∧ (∀ k e, (k, e) ∈ cache st → entry st' e = setExpires 0 (entry st e))
    ∧ (∀ e, e ∉ (cache st).*2 → entry st' e = entry st e)
    ∧ (0 < cacheSize st → 0 < nowDate →
       ∀ k e, (k, e) ∈ cache st' → subscribers (entry st' e) ≠ [])
    ∧ (cacheSize st ≤ 0 → cache st' = cache st)
    ∧ requests st' = requests st
    ∧ delivered st' = delivered st.
Proof.
  intros Hwf.
  destruct (clearCache_changes nowDate st Hwf)
    as (st' & H1 & _ & H2 & H3 & H4 & H5 & H6 & H7 & _ & H8 & _ & _ & H9 & _).
  exists st'. split_and!; done.
Qed.

(** ** Walks over the map *)

Section ForEach.
Variable f : nat → Client → option Client.
Variable Q : CacheEntry → CacheEntry → Prop.
Variable started : CacheEntry → nat.
Variable stopped : CacheEntry → list nat.
Variable told : CacheEntry → list (nat * option Http.Result).

Hypothesis step : ∀ e st, hasCell st e →
  ∃ st',
    f e st = Some st'
    ∧ cellsOnly st st'
    ∧ (∀ e', e' ≠ e → entry st' e' = entry st e')
    ∧ Q (entry st e) (entry st' e)
    ∧ requests st' = (requests st + started (entry st e))%nat
    ∧ cancelled st' = cancelled st ++ stopped (entry st e)
    ∧ delivered st' = delivered st ++ told (entry st e).

Lemma forEach_effect refs : ∀ st,
  NoDup refs → (∀ e, e ∈ refs → hasCell st e) →
  ∃ st',
    forEach f refs st = Some st'
    ∧ cellsOnly st st'
    ∧ (∀ e, e ∉ refs → entry st' e = entry st e)
    ∧ (∀ e, e ∈ refs → Q (entry st e) (entry st' e))
    ∧ requests st'
      = (requests st + sum_list (map (λ e, started (entry st e)) refs))%nat
    ∧ cancelled st'
      = cancelled st ++ flat_map (λ e, stopped (entry st e)) refs
    ∧ delivered st'
      = delivered st ++ flat_map (λ e, told (entry st e)) refs.
Proof.
  induction refs as [|x refs IH]; intros st Hnd Hcells.
  - exists st. simpl. rewrite !app_nil_r, Nat.add_0_r.
    split_and!; try done; try apply cellsOnly_refl.
    by intros e He%elem_of_nil.
  - apply NoDup_cons in Hnd as [Hx Hnd].
    destruct (step x st) as (st1 & Hrun1 & Hco1 & Hot1 & HQ1 & Hr1 & Hc1 & Hd1).
    { apply Hcells. by left. }
    destruct (IH st1 Hnd) as (st' & Hrun & Hco & Hot & HQ & Hr & Hc & Hd).
    { intros e He. destruct Hco1 as (_ & _ & _ & _ & _ & _ & H).
      destruct (H e) as (_ & _ & _ & _ & _ & Hh). apply Hh, Hcells. by right. }
    assert (Hsame : ∀ e, e ∈ refs → entry st1 e = entry st e).
    { intros e He. apply Hot1. by intros ->. }
    exists st'. simpl. rewrite Hrun1. cbn [mbind option_bind].
    split; [done|]. split; [by eapply cellsOnly_trans|]. split_and!.
    + intros e He. rewrite Hot by (intros H; apply He; by right).
      apply Hot1. intros ->. apply He. by left.
    + intros e [->|He]%elem_of_cons.
      * by rewrite (Hot x Hx).
      * rewrite <- (Hsame e He). by apply HQ.
    + rewrite Hr, Hr1.
      rewrite (map_ext_in (λ e, started (entry st1 e)) (λ e, started (entry st e)));
        [lia|].
      intros e He. rewrite Hsame; [done|]. by apply list_elem_of_In.
    + rewrite Hc, Hc1, <- app_assoc. do 2 f_equal.
      rewrite !flat_map_concat_map. f_equal.
      apply map_ext_in. intros e He. rewrite Hsame; [done|].
      by apply list_elem_of_In.
    + rewrite Hd, Hd1, <- app_assoc. do 2 f_equal.
      rewrite !flat_map_concat_map. f_equal.
      apply map_ext_in. intros e He. rewrite Hsame; [done|].
      by apply list_elem_of_In.
Qed.
End ForEach.

Lemma refreshInUse_step force e st :
  hasCell st e →
  ∃ st',
    refreshInUse force e st = Some st'
    ∧ cellsOnly st st'
    ∧ (∀ e', e' ≠ e → entry st' e' = entry st e')
    ∧ refreshed (entry st e) (entry st' e)
    ∧ requests st' = (requests st + refreshStarts force (entry st e))%nat
    ∧ cancelled st' = cancelled st ++ refreshCancels force (entry st e)
    ∧ delivered st' = delivered st ++ [].
Proof.
  intros [c Hc]. unfold refreshInUse, refreshed, refreshStarts, refreshCancels.
  fold (inUse (entry st e)). unfold isLoading at 2 3. rewrite Hc.
  destruct (inUse (entry st e)) eqn:Hu; cbn [andb].
  - destruct force; cbn [orb andb negb].
    + destruct (forceRefresh_effect e st c Hc)
        as (st' & Hrun & Hco & Hot & Hc' & _ & Hreq & _ & Hcan & Hdel).
      exists st'. unfold isLoading. rewrite Hc'.
      split_and!; try done; [lia|by rewrite app_nil_r].
    + destruct (refresh_effect e st c Hc)
        as (st' & Hrun & Hco & Hot & Hc' & Hreq & _ & Hcan & Hdel).
      exists st'. rewrite Hrun. unfold isLoading. rewrite Hc'.
      split_and!; try done.
      * by destruct (loading c) eqn:Hl.
      * by destruct (loading c).
      * rewrite Hreq. destruct (loading c); simpl; lia.
      * by rewrite app_nil_r.
      * by rewrite app_nil_r.
  - exists st. rewrite !app_nil_r, Nat.add_0_r.
    split_and!; try done; apply cellsOnly_refl.
Qed.

Lemma clearAndRefresh_step e st :
  hasCell st e →
  ∃ st',
    clearAndRefresh e st = Some st'
    ∧ cellsOnly st st'
    ∧ (∀ e', e' ≠ e → entry st' e' = entry st e')
    ∧ cleared (entry st e) (entry st' e)
    ∧ requests st' = (requests st + 1)%nat
    ∧ cancelled st' = cancelled st ++ forceCancels (entry st e)
    ∧ delivered st' = delivered st ++ clearTells (entry st e).
Proof.
  intros [c Hc].
  destruct (clearAndRefresh_effect e st c Hc)
    as (st' & Hrun & Hco & Hot & Hc' & _ & Hreq & _ & Hcan & Hdel).
  exists st'. unfold cleared, forceCancels, clearTells, isLoading.
  rewrite Hc, Hc'. split_and!; try done. lia.
Qed.

Lemma sound_refs st :
  sound st → NoDup (cache st).*2 ∧ ∀ e, e ∈ (cache st).*2 → hasCell st e.
Proof.
  intros [Hwf Hcells]. split; [by apply wf_refs_NoDup|].
  intros e [k Hk]%refs_elem. apply Hcells. by destruct (proj2 Hwf k e Hk).
Qed.

Lemma soundb_sound st : soundb st = true → sound st.
Proof.
  unfold soundb. intros [Hwf Hcells]%andb_true_iff. split; [by apply wfb_wf|].
  intros e Hlt. unfold hasCell, entry.
  destruct (lookup_lt_is_Some_2 (heap st) e Hlt) as [v Hv].
  rewrite (list_lookup_total_correct _ _ _ Hv).
  rewrite forallb_forall in Hcells.
  specialize (Hcells v). rewrite bool_decide_eq_true in Hcells.
  apply Hcells. apply list_elem_of_In. by eapply list_elem_of_lookup_2.
Qed.

(** X7: [refreshAll(force)] clears the cache and then walks over the map that
    is left, which stays as it is: an entry with a subscriber is loading
    afterwards and keeps its result, any other entry is not touched.  One
    request is started for each entry in use that is not loading or, with
    [force], for each entry in use, whose request in flight is cancelled
    first.  No subscriber is called. *)
Theorem refreshAll_effect (nowDate : Z) (force : bool) (st : Client) :
  sound st →
  ∃ st1 st',
    clearCache nowDate st = Some st1
    ∧ refreshAll nowDate force st = Some st'
    ∧ cellsOnly st1 st'
    ∧ (∀ e, e ∈ (cache st1).*2 → refreshed (entry st1 e) (entry st' e))
    ∧ (∀ e, e ∉ (cache st1).*2 → entry st' e = entry st1 e)
    ∧ requests st'
      = (requests st
         + sum_list (map (λ e, refreshStarts force (entry st1 e)) (cache st1).*2))%nat
    ∧ cancelled st'
      = cancelled st
        ++ flat_map (λ e, refreshCancels force (entry st1 e)) (cache st1).*2
    ∧ delivered st' = delivered st.
Proof.
  intros Hsound.
  destruct (clearCache_changes nowDate st (proj1 Hsound))
    as (st1 & Hrun1 & _ & _ & _ & _ & _ & _ & _ & _ & Hreq1 & _ & Hcan1 & Hdel1 & _).
  pose proof (clearCache_sound nowDate st st1 Hsound Hrun1) as Hsound1.
  destruct (sound_refs st1 Hsound1) as [Hnd Hcells].
  destruct (forEach_effect (refreshInUse force) refreshed (refreshStarts force)
              (refreshCancels force) (λ _, []) (refreshInUse_step force)
              (cache st1).*2 st1 Hnd Hcells)
    as (st' & Hrun & Hco & Hot & HQ & Hreq & Hcan & Hdel).
  exists st1, st'. unfold refreshAll. rewrite Hrun1. cbn [mbind option_bind].
  split_and!; try done.
  - by rewrite Hreq, Hreq1.
  - by rewrite Hcan, Hcan1.
  - rewrite Hdel, Hdel1.
    assert (Hnil : ∀ l : list nat,
              flat_map (λ _ : nat, @nil (nat * option Http.Result)) l = []).
    { intros l. induction l; simpl; done. }
    by rewrite Hnil, app_nil_r.
Qed.

(** X8: [resetStore()] clears the cache and then walks over the map that is
    left, which stays as it is: every entry of it, with a subscriber or
    without, is loading afterwards and has no result; one request is
    started for each, a request in flight being cancelled first; and the
    subscribers of each entry that had a result are called with [null]. *)
Theorem resetStore_effect (nowDate : Z) (st : Client) :
  sound st →
  ∃ st1 st',
    clearCache nowDate st = Some st1
    ∧ resetStore nowDate st = Some st'
    ∧ cellsOnly st1 st'
    ∧ (∀ e, e ∈ (cache st1).*2 → cleared (entry st1 e) (entry st' e))
    ∧ (∀ e, e ∉ (cache st1).*2 → entry st' e = entry st1 e)
    ∧ requests st' = (requests st + length (cache st1))%nat
    ∧ cancelled st'
      = cancelled st ++ flat_map (λ e, forceCancels (entry st1 e)) (cache st1).*2
    ∧ delivered st'
      = delivered st ++ flat_map (λ e, clearTells (entry st1 e)) (cache st1).*2.
Proof.
  intros Hsound.
  destruct (clearCache_changes nowDate st (proj1 Hsound))
    as (st1 & Hrun1 & _ & _ & _ & _ & _ & _ & _ & _ & Hreq1 & _ & Hcan1 & Hdel1 & _).
  pose proof (clearCache_sound nowDate st st1 Hsound Hrun1) as Hsound1.
  destruct (sound_refs st1 Hsound1) as [Hnd Hcells].
  destruct (forEach_effect clearAndRefresh cleared (λ _, 1%nat)
              forceCancels clearTells clearAndRefresh_step
              (cache st1).*2 st1 Hnd Hcells)
    as (st' & Hrun & Hco & Hot & HQ & Hreq & Hcan & Hdel).
  exists st1, st'. unfold resetStore. rewrite Hrun1. cbn [mbind option_bind].
  split_and!; try done.
  - rewrite Hreq, Hreq1. f_equal.
    change (map (λ _ : nat, 1%nat) (cache st1).*2)
      with ((λ _ : nat, 1%nat) <$> (cache st1).*2).
    rewrite sum_list_fmap_const, length_fmap. lia.
  - by rewrite Hcan, Hcan1.
  - by rewrite Hdel, Hdel1.
Qed.

(** ** Every call returns and keeps the store sound *)

Lemma keepsCells_refl st : keepsCells st st.
Proof. by split. Qed.

Lemma keepsCells_trans a b c : keepsCells a b → keepsCells b c → keepsCells a c.
Proof. intros [? Hab] [? Hbc]. split; [congruence|auto]. Qed.

Lemma keepsCells_update e f st :
  (∀ v, is_Some (response v) → is_Some (response (f v))) →
  keepsCells st (update e f st).
Proof.
  intros Hf. split; [apply heap_update_length|].
  intros e'. unfold hasCell. rewrite entry_update. case_decide; [apply Hf|done].
Qed.

Lemma keepsCells_heap st st' : heap st' = heap st → keepsCells st st'.
Proof. intros H. unfold keepsCells, hasCell, entry. by rewrite H. Qed.

Lemma keepsCells_cells st st' :
  keepsCells st st' →
  (∀ e, (e < length (heap st))%nat → hasCell st e) →
  ∀ e, (e < length (heap st'))%nat → hasCell st' e.
Proof. intros [Hlen H] Hcells e Hlt. rewrite Hlen in Hlt. auto. Qed.

Lemma cellsOnly_keepsCells st st' : cellsOnly st st' → keepsCells st st'.
Proof.
  intros (_ & _ & _ & _ & _ & Hlen & He). split; [done|].
  intros e. by destruct (He e) as (_ & _ & _ & _ & _ & H).
Qed.

Lemma evict_heap e st : heap (evict e st) = heap st.
Proof. unfold evict. by destruct (mapGet _ _). Qed.

Lemma evict_all_heap l : ∀ st, heap (foldl (λ s e, evict e s) st l) = heap st.
Proof.
  induction l as [|x l IH]; intros st; [done|].
  simpl. by rewrite IH, evict_heap.
Qed.

Lemma evictLoop_heap fuel newSize exclude : ∀ st st',
  evictLoop fuel newSize exclude st = Some st' → heap st' = heap st.
Proof.
  induction fuel as [|fuel IH]; intros st st'; [done|]. simpl.
  destruct (needBytes newSize st <=? 0); [by intros [= <-]|].
  destruct (oldestEntry exclude st) as [e|]; [|by intros [= <-]].
  intros H. rewrite (IH _ _ H). apply evict_heap.
Qed.

Lemma allocate_heap nowDate newSize exclude st st' :
  allocateCacheSize nowDate newSize exclude st = Some st' → heap st' = heap st.
Proof.
  unfold allocateCacheSize.
  destruct (needBytes newSize st <=? 0); [by intros [= <-]|].
  intros H. rewrite (evictLoop_heap _ _ _ _ _ H). apply evict_all_heap.
Qed.

Lemma setCacheEntrySize_keepsCells nowDate e newSize st st' :
  setCacheEntrySize nowDate e newSize st = Some st' → keepsCells st st'.
Proof.
  unfold setCacheEntrySize.
  destruct (mapGet _ _) as [e'|]; cbn [mbind option_bind].
  - case_bool_decide.
    + destruct (allocateCacheSize _ _ _ _) as [st2|] eqn:Hal; [|done].
      cbn [mbind option_bind]. intros [= <-].
      apply allocate_heap in Hal.
      eapply keepsCells_trans; [|by apply keepsCells_update].
      by apply keepsCells_heap.
    + intros [= <-]. by apply keepsCells_update.
  - intros [= <-]. by apply keepsCells_update.
Qed.

Lemma setCell_keeps g v : is_Some (response v) → is_Some (response (setCell g v)).
Proof. unfold setCell. destruct (response v) eqn:Hv; simpl; rewrite ?Hv; done. Qed.

Lemma onRefreshed_keepsCells nowDate e p data st st' :
  onRefreshed nowDate e p data st = Some st' → keepsCells st st'.
Proof.
  unfold onRefreshed. destruct (response (entry st e)) as [c|]; [|done].
  cbn [mbind option_bind]. case_bool_decide; [|intros [= <-]; apply keepsCells_refl].
  set (st3 := update e (setCancelRequest None) _).
  assert (H3 : keepsCells st st3).
  { unfold st3.
    eapply keepsCells_trans; [apply keepsCells_update, setCell_keeps|].
    eapply keepsCells_trans; [apply keepsCells_update, setCell_keeps|].
    by apply keepsCells_update. }
  destruct (Http.hasErrors (Http.errors data)).
  - cbn [mbind option_bind]. intros [= <-].
    eapply keepsCells_trans; [exact H3|].
    eapply keepsCells_trans; [by apply (keepsCells_update e (setExpires 0))|].
    by apply keepsCells_heap.
  - destruct (Http.size data) as [z|]; [|done].
    destruct (setCacheEntrySize nowDate e (z + 1000) st3) as [st4|] eqn:Hset;
      [|done].
    cbn [mbind option_bind]. intros [= <-].
    apply setCacheEntrySize_keepsCells in Hset.
    eapply keepsCells_trans; [exact H3|].
    eapply keepsCells_trans; [exact Hset|].
    destruct (isNoCache (cacheMode c)).
    + by apply keepsCells_heap.
    + eapply keepsCells_trans;
        [by apply (keepsCells_update e (setExpires (nowDate + cacheTimeoutValue c)))|].
      by apply keepsCells_heap.
Qed.

Lemma onRefreshed_returns nowDate e p data st :
  sound st → (e < length (heap st))%nat → sized data →
  ∃ st', onRefreshed nowDate e p data st = Some st' ∧ sound st'.
Proof.
  intros [Hwf Hcells] Hlt Hsized.
  destruct (Hcells e Hlt) as [c Hc].
  assert (Hex : ∃ st', onRefreshed nowDate e p data st = Some st').
  { destruct (decide (resultPromise c = Some p)) as [Hp|Hp].
    - destruct (Http.hasErrors (Http.errors data)) eqn:Herr.
      + destruct (onRefreshed_current nowDate e p data st c 0 Hwf Hc)
          as (st' & Hrun & _); [by rewrite Herr|done|by exists st'].
      + destruct (Hsized Herr) as [z Hz].
        destruct (onRefreshed_current nowDate e p data st c z Hwf Hc)
          as (st' & Hrun & _); [done|done|by exists st'].
    - exists st. by eapply onRefreshed_stale. }
  destruct Hex as [st' Hrun]. exists st'. split; [done|]. split.
  - by eapply onRefreshed_wf.
  - eapply keepsCells_cells; [|done]. by eapply onRefreshed_keepsCells.
Qed.

Lemma refresh_length e st p st' :
  refresh e st = Some (p, st') → length (heap st') = length (heap st).
Proof.
  unfold refresh. destruct (response (entry st e)) as [c|]; [|done].
  cbn [mbind option_bind]. destruct (loading c); intros [= _ <-]; [done|].
  rewrite !heap_update_length. cbn [heap]. apply length_alter.
Qed.

Lemma createEntry_length nowDate key mode timeout st0 e st' :
  createEntry nowDate key (newEntryFactory mode timeout) st0 = Some (e, st') →
  length (heap st') = S (length (heap st0)).
Proof.
  unfold createEntry, newEntryFactory.
  destruct (refresh _ _) as [[p st2]|] eqn:Hr; [|done].
  cbn [fmap option_fmap option_map snd mbind option_bind].
  destruct (allocateCacheSize _ _ _ _) as [st3|] eqn:Hal; [|done].
  cbn [mbind option_bind]. intros [= _ <-].
  apply allocate_heap in Hal. apply refresh_length in Hr.
  cbn [heap withCache withCacheSize].
  rewrite !heap_update_length, Hal, Hr, heap_update_length.
  cbn [heap withHeap]. rewrite length_app. simpl. lia.
Qed.

Lemma createEntry_sound nowDate key mode timeout st0 :
  sound st0 → key ∉ (cache st0).*1 →
  ∃ st',
    createEntry nowDate key (newEntryFactory mode timeout) st0
    = Some (length (heap st0), st')
    ∧ sound st'
    ∧ ∃ c, response (entry st' (length (heap st0))) = Some c ∧ loading c = true.
Proof.
  intros [Hwf Hcells] Hfresh.
  destruct (createEntry_spec nowDate key mode timeout st0 Hwf Hfresh)
    as (st' & Hrun & Hwf' & _ & He & Hold & _).
  exists st'. split; [done|]. split.
  - split; [done|]. intros e Hlt.
    rewrite (createEntry_length _ _ _ _ _ _ _ Hrun) in Hlt.
    destruct (decide (e = length (heap st0))) as [->|Hne].
    + unfold hasCell. by rewrite He.
    + unfold hasCell. rewrite Hold by lia. apply Hcells. lia.
  - eexists. by rewrite He.
Qed.

Lemma sound_update e f st :
  (∀ v, queryAndVariablesString (f v) = queryAndVariablesString v) →
  (∀ v, is_Some (response v) → is_Some (response (f v))) →
  sound st → sound (update e f st).
Proof.
  intros Hk Hr [Hwf Hcells]. split; [by apply wf_update|].
  eapply keepsCells_cells; [by apply keepsCells_update|done].
Qed.

Lemma sound_removeEntry k e st : sound st → sound (removeEntry k e st).
Proof. intros [Hwf Hcells]. split; [by apply wf_removeEntry|done]. Qed.

Lemma executeQuery_returns nowDate request mode cacheTimeout st :
  sound st →
  ∃ e st',
    executeQuery nowDate request mode cacheTimeout st = Some (e, st') ∧ sound st'.
Proof.
  intros Hsound. pose proof Hsound as [Hwf Hcells].
  unfold executeQuery, getOrCreateCacheEntry.
  set (m := default (defaultCachePolicy st) mode).
  set (t := default (defaultCacheTime st) cacheTimeout).
  assert (Htail : ∀ (b : bool) e st1, sound st1 → (e < length (heap st1))%nat →
            ∃ st', (if b then '(_, st2) ← refresh e st1; Some (e, st2)
                    else Some (e, st1)) = Some (e, st') ∧ sound st').
  { intros b e st1 Hs1 Hlt. destruct b; [|by exists st1].
    destruct (proj2 Hs1 e Hlt) as [c Hc].
    destruct (refresh_effect e st1 c Hc) as (st' & Hrun & Hco & _).
    exists st'. rewrite Hrun. split; [done|]. by eapply cellsOnly_sound. }
  assert (Hcreate : ∀ st0, sound st0 → request ∉ (cache st0).*1 →
            ∃ e st',
              ('(e, st1) ← createEntry nowDate request (newEntryFactory m t) st0;
               if (length (subscribers (entry st1 e)) =? 0)%nat
                  && (isCacheAndNetwork m || (expires (entry st1 e) <? nowDate))
               then '(_, st2) ← refresh e st1; Some (e, st2)
               else Some (e, st1)) = Some (e, st') ∧ sound st').
  { intros st0 Hs0 Hfresh.
    destruct (createEntry_sound nowDate request m t st0 Hs0 Hfresh)
      as (st1 & Hrun & Hs1 & c & Hc & Hl).
    rewrite Hrun. cbn [mbind option_bind].
    exists (length (heap st0)), st1. split; [|done].
    by eapply executeQuery_tail. }
  destruct (mapGet request (cache st)) as [v|] eqn:Hget.
  - pose proof (mapGet_elem _ _ _ Hget) as Hin.
    destruct (proj2 Hwf request v Hin) as [Hlt _].
    destruct ((0 <? length (subscribers (entry st v)))%nat || negb (isNoCache m)).
    + cbn [mbind option_bind].
      destruct (Htail
                  ((length (subscribers (entry (update v (setLastUsed nowDate) st) v)) =? 0)%nat
                   && (isCacheAndNetwork m
                       || (expires (entry (update v (setLastUsed nowDate) st) v) <? nowDate)))
                  v (update v (setLastUsed nowDate) st))
        as (st' & Hrun & Hs'); [by apply sound_update|by rewrite heap_update_length|].
      by exists v, st'.
    + apply (Hcreate (removeEntry request v st)); [by apply sound_removeEntry|].
      intros Hk. apply list_elem_of_fmap in Hk as (q & Hq1 & Hq).
      unfold removeEntry in Hq; simpl in Hq.
      by apply mapRemove_elem in Hq as [Hne _].
  - apply (Hcreate st Hsound). by apply mapGet_None_inv.
Qed.

Lemma sound_init maxSize policy cacheTime : sound (init maxSize policy cacheTime).
Proof. split; [apply wf_init|]. simpl. intros e He. lia. Qed.

Lemma call_returns c st :
  sound st → permitted c st → ∃ st', call c st = Some st' ∧ sound st'.
Proof.
  intros Hsound Hp. pose proof Hsound as [Hwf Hcells].
  destruct c as [nowDate request mode cacheTimeout|e|e|e|e cb|e cb
                 |nowDate e p data|nowDate|nowDate force|nowDate]; simpl in *.
  - destruct (executeQuery_returns nowDate request mode cacheTimeout st Hsound)
      as (e & st' & -> & Hs'). by exists st'.
  - destruct (Hcells e Hp) as [c Hc].
    destruct (refresh_effect e st c Hc) as (st' & -> & Hco & _).
    exists st'. split; [done|]. by eapply cellsOnly_sound.
  - destruct (Hcells e Hp) as [c Hc].
    destruct (forceRefresh_effect e st c Hc) as (st' & -> & Hco & _).
    exists st'. split; [done|]. by eapply cellsOnly_sound.
  - destruct (Hcells e Hp) as [c Hc].
    destruct (clearAndRefresh_effect e st c Hc) as (st' & -> & Hco & _).
    exists st'. split; [done|]. by eapply cellsOnly_sound.
  - eexists. split; [done|]. by apply sound_update.
  - eexists. split; [done|]. by apply sound_update.
  - destruct Hp as [Hlt Hsized]. by apply onRefreshed_returns.
  - destruct (clearCache_changes nowDate st Hwf) as (st' & Hrun & _).
    exists st'. split; [done|]. by eapply clearCache_sound.
  - destruct (clearCache_changes nowDate st Hwf) as (st1 & Hrun1 & _).
    pose proof (clearCache_sound nowDate st st1 Hsound Hrun1) as Hsound1.
    destruct (sound_refs st1 Hsound1) as [Hnd Hc1].
    destruct (forEach_effect (refreshInUse force) refreshed (refreshStarts force)
                (refreshCancels force) (λ _, []) (refreshInUse_step force)
                (cache st1).*2 st1 Hnd Hc1) as (st' & Hrun & Hco & _).
    exists st'. unfold refreshAll. rewrite Hrun1. split; [done|].
    by eapply cellsOnly_sound.
  - destruct (clearCache_changes nowDate st Hwf) as (st1 & Hrun1 & _).
    pose proof (clearCache_sound nowDate st st1 Hsound Hrun1) as Hsound1.
    destruct (sound_refs st1 Hsound1) as [Hnd Hc1].
    destruct (forEach_effect clearAndRefresh cleared (λ _, 1%nat)
                forceCancels clearTells clearAndRefresh_step
                (cache st1).*2 st1 Hnd Hc1) as (st' & Hrun & Hco & _).
    exists st'. unfold resetStore. rewrite Hrun1. split; [done|].
    by eapply cellsOnly_sound.
Qed.

(** X9: From a sound store, and so from the store of a new client, every
    sequence of permitted calls returns: no call is stuck on a missing
    response object or in the eviction loop; and it leaves a sound store:
    the keys of the map are distinct, every entry is filed under its own
    key, and every entry has its response object. *)
Theorem calls_return (cs : list Call) (st : Client) :
  sound st → permittedAll cs st →
  ∃ st', calls cs st = Some st' ∧ sound st'.
Proof.
  revert st. induction cs as [|c cs IH]; intros st Hsound Hp.
  - by exists st.
  - destruct Hp as [Hp Hrest].
    destruct (call_returns c st Hsound Hp) as (st1 & Hrun & Hs1).
    destruct (IH st1 Hs1 (Hrest st1 Hrun)) as (st' & Hrun' & Hs').
    exists st'. simpl. rewrite Hrun. done.
Qed.

(** ** [executeQuery] on a key of the map *)

Lemma executeQuery_found nowDate request mode cacheTimeout st e c :
  wf st → mapGet request (cache st) = Some e →
  response (entry st e) = Some c →
  subscribers (entry st e) ≠ [] ∨ default (defaultCachePolicy st) mode ≠ NoCache →
  let stale :=
    (length (subscribers (entry st e)) =? 0)%nat
    && (isCacheAndNetwork (default (defaultCachePolicy st) mode)
        || (expires (entry st e) <? nowDate)) in
  let starts := stale && negb (loading c) in
  ∃ st',
    executeQuery nowDate request mode cacheTimeout st = Some (e, st')
    ∧ cache st' = cache st ∧ cacheSize st' = cacheSize st
    ∧ (∀ e', e' ≠ e → entry st' e' = entry st e')
    ∧ lastUsed (entry st' e) = nowDate
    ∧ queryAndVariablesString (entry st' e) = queryAndVariablesString (entry st e)
    ∧ size (entry st' e) = size (entry st e)
    ∧ expires (entry st' e) = expires (entry st e)
    ∧ subscribers (entry st' e) = subscribers (entry st e)
    ∧ response (entry st' e)
      = Some (if starts
              then mkCell (result c) (Some (requests st)) true (cacheMode c)
                     (cacheTimeoutValue c)
              else c)
    ∧ requests st' = (if starts then S (requests st) else requests st)
    ∧ cancelled st' = cancelled st
    ∧ delivered st' = delivered st.
Proof.
  intros Hwf Hget Hc Hreuse stale starts.
  pose proof (entry_in_range st e c Hc) as Hlt.
  unfold executeQuery, getOrCreateCacheEntry. rewrite Hget.
  set (m := default (defaultCachePolicy st) mode) in *.
  assert (Hcond : (0 <? length (subscribers (entry st e)))%nat || negb (isNoCache m)
                  = true).
  { destruct Hreuse as [Hs|Hm].
    - destruct (subscribers (entry st e)); done.
    - apply orb_true_iff. right. by destruct m. }
  rewrite Hcond. cbn [mbind option_bind].
  set (st1 := update e (setLastUsed nowDate) st).
  assert (He1 : entry st1 e = setLastUsed nowDate (entry st e))
    by (by apply entry_update_eq).
  assert (Hc1 : response (entry st1 e) = Some c) by (by rewrite He1).
  rewrite He1. cbn [subscribers expires setLastUsed]. fold stale.
  destruct stale eqn:Hstale.
  - destruct (refresh_effect e st1 c Hc1)
      as (st' & Hrun & Hco & Hot & Hc' & Hreq & _ & Hcan & Hdel).
    rewrite Hrun. cbn [mbind option_bind]. exists st'.
    destruct Hco as (Hcache & Hcs & _ & _ & _ & _ & He).
    destruct (He e) as (Hk & Hsz & Hex & Hlu & Hsu & _).
    rewrite He1 in Hk, Hsz, Hex, Hlu, Hsu. simpl in *.
    unfold starts. cbn [andb].
    split_and!; try done.
    + intros e' Hne. rewrite Hot by done. by apply entry_update_ne.
    + rewrite Hc'. by destruct (loading c).
    + rewrite Hreq. by destruct (loading c).
  - exists st1. unfold starts. cbn [andb]. rewrite He1.
    split_and!; try done. intros e' Hne. by apply entry_update_ne.
Qed.

(** X10: [executeQuery] on a request whose entry is in the map, unless the entry
    is without subscribers while no-cache is in force: the entry is
    returned with [lastUsed] set to the time of the call; the map, the sizes
    and the other entries stay.  A request is started when the entry has
    no subscriber, is not loading, and either the mode is cache-and-network
    or the entry has expired; the result that the cell holds stays until
    the new one arrives.  In every other case no request is made.  The mode
    and timeout of the cell are those of the call that made the entry. *)
Theorem executeQuery_existing_key (nowDate : Z) (request : string)
  (mode : option FetchPolicy) (cacheTimeout : option Z) (st : Client)
  (e : nat) (c : Cell) :
  wf st → mapGet request (cache st) = Some e →
  response (entry st e) = Some c →
  subscribers (entry st e) ≠ [] ∨ default (defaultCachePolicy st) mode ≠ NoCache →
  let starts :=
    (length (subscribers (entry st e)) =? 0)%nat
    && (isCacheAndNetwork (default (defaultCachePolicy st) mode)
        || (expires (entry st e) <? nowDate))
    && negb (loading c) in
  ∃ st',
    executeQuery nowDate request mode cacheTimeout st = Some (e, st')
    ∧ cache st' = cache st ∧ cacheSize st' = cacheSize st
    ∧ (∀ e', e' ≠ e → entry st' e' = entry st e')
    ∧ lastUsed (entry st' e) = nowDate
    ∧ size (entry st' e) = size (entry st e)
    ∧ expires (entry st' e) = expires (entry st e)
    ∧ subscribers (entry st' e) = subscribers (entry st e)
    ∧ response (entry st' e)
      = Some (if starts
              then mkCell (result c) (Some (requests st)) true (cacheMode c)
                     (cacheTimeoutValue c)
              else c)
    ∧ requests st' = (if starts then S (requests st) else requests st)
    ∧ delivered st' = delivered st.
Proof.
  intros Hwf Hget Hc Hreuse starts.
  destruct (executeQuery_found nowDate request mode cacheTimeout st e c
              Hwf Hget Hc Hreuse)
    as (st' & H1 & H2 & H3 & H4 & H5 & _ & H6 & H7 & H8 & H9 & H10 & _ & H11).
  exists st'. split_and!; done.
Qed.

(** ** Entries with a subscriber stay in the map *)

Lemma entry_push_old st v e :
  (e < length (heap st))%nat → entry (withHeap (heap st ++ [v]) st) e = entry st e.
Proof. intros Hlt. unfold entry; simpl. by rewrite lookup_total_app_l. Qed.

Lemma wf_push st v : wf st → wf (withHeap (heap st ++ [v]) st).
Proof.
  intros [Hnd Hent]. split; [done|]. intros k e Hin.
  destruct (Hent k e Hin) as [Hlt Hk]. cbn [heap withHeap].
  rewrite length_app. split; [lia|]. by rewrite entry_push_old.
Qed.

Lemma mapSet_other k v m k' e :
  k' ≠ k → (k', e) ∈ m → (k', e) ∈ mapSet k v m.
Proof.
  intros Hne. induction m as [|[k0 v0] m IH]; [by intros ?%elem_of_nil|].
  simpl. intros [[= <- <-]|Hin]%elem_of_cons.
  - apply String.eqb_neq in Hne. rewrite String.eqb_sym, Hne. by left.
  - destruct (String.eqb k k0); right; [done|by apply IH].
Qed.

Lemma createEntry_keeps nowDate key mode timeout st0 e st' :
  wf st0 → key ∉ (cache st0).*1 →
  createEntry nowDate key (newEntryFactory mode timeout) st0 = Some (e, st') →
  ∀ k e', (k, e') ∈ cache st0 → subscribers (entry st0 e') ≠ [] →
          (k, e') ∈ cache st'.
Proof.
  intros Hwf Hfresh Hrun k e' Hin Hsubs.
  destruct (proj2 Hwf k e' Hin) as [Hlt Hk].
  unfold createEntry, newEntryFactory in Hrun.
  set (new := mkEntry key None 1000 0 nowDate [] None) in *.
  set (st1 := withHeap (heap st0 ++ [new]) st0) in *.
  set (e0 := length (heap st0)) in *.
  set (stF := update e0 (setResponse (mkCell None None false mode timeout)) st1) in *.
  assert (HwfF : wf stF).
  { apply wf_update; [done|]. by apply wf_push. }
  destruct (refresh e0 stF) as [[p st2]|] eqn:Hr; [|done].
  cbn [fmap option_fmap option_map snd mbind option_bind] in Hrun.
  pose proof (refresh_wf _ _ _ _ HwfF Hr) as Hwf2.
  assert (HcF : ∃ c, response (entry stF e0) = Some c).
  { unfold refresh in Hr. destruct (response (entry stF e0)) as [c|]; [|done].
    by exists c. }
  destruct HcF as [cF HcF].
  destruct (refresh_effect e0 stF cF HcF) as (st2' & Hr' & Hco & Hot & _).
  rewrite Hr in Hr'. injection Hr' as _ <-.
  assert (He2 : entry st2 e' = entry st0 e').
  { rewrite Hot by (unfold e0; lia). unfold stF.
    rewrite entry_update_ne by (unfold e0; lia). by apply entry_push_old. }
  assert (Hcache2 : cache st2 = cache st0) by (by destruct Hco as (-> & _)).
  destruct (allocate_spec nowDate (size (entry st2 e0)) None st2 Hwf2)
    as (st3 & Hal & _ & _ & _ & _ & _ & _ & Hkeep).
  rewrite Hal in Hrun. cbn [mbind option_bind] in Hrun.
  injection Hrun as _ <-. cbn [cache withCache withCacheSize update withHeap].
  apply mapSet_other.
  - intros ->. apply Hfresh. apply list_elem_of_fmap. by exists (key, e').
  - apply Hkeep; [by rewrite Hcache2|by rewrite He2].
Qed.

Lemma setCacheEntrySize_keeps nowDate e newSize st st' :
  wf st → setCacheEntrySize nowDate e newSize st = Some st' →
  ∀ k e', (k, e') ∈ cache st → subscribers (entry st e') ≠ [] →
          (k, e') ∈ cache st'.
Proof.
  intros Hwf Hrun k e' Hin Hsubs. unfold setCacheEntrySize in Hrun.
  destruct (mapGet _ _) as [e1|]; cbn [mbind option_bind] in Hrun;
    [|by injection Hrun as <-].
  case_bool_decide; [|by injection Hrun as <-].
  destruct (allocate_spec nowDate newSize (Some e)
              (withCacheSize (cacheSize st - size (entry st e)) st)
              (wf_withCacheSize _ _ Hwf))
    as (st2 & Hal & _ & _ & _ & _ & _ & _ & Hkeep).
  rewrite Hal in Hrun. cbn [mbind option_bind] in Hrun. injection Hrun as <-.
  cbn [cache update withHeap withCacheSize]. by apply Hkeep.
Qed.

Lemma committed_subscribers data v :
  subscribers (committed data v) = subscribers v.
Proof.
  unfold committed. cbn [subscribers setCancelRequest].
  destruct (cellFun_setCell (setLoading false) (setCell (setResult (Some data)) v))
    as (_ & _ & _ & _ & -> & _).
  by destruct (cellFun_setCell (setResult (Some data)) v) as (_ & _ & _ & _ & -> & _).
Qed.

Lemma onRefreshed_keeps nowDate e p data st st' :
  wf st → onRefreshed nowDate e p data st = Some st' →
  ∀ k e', (k, e') ∈ cache st → subscribers (entry st e') ≠ [] →
          (k, e') ∈ cache st'.
Proof.
  intros Hwf Hrun k e' Hin Hsubs. unfold onRefreshed in Hrun.
  destruct (response (entry st e)) as [c|] eqn:Hc; [|done].
  cbn [mbind option_bind] in Hrun.
  case_bool_decide; [|by injection Hrun as <-].
  rewrite commit_update in Hrun.
  set (st3 := update e (committed data) st) in *.
  assert (Hwf3 : wf st3) by (apply wf_update; [apply committed_key|done]).
  assert (Hs3 : subscribers (entry st3 e') = subscribers (entry st e')).
  { unfold st3. rewrite entry_update. case_decide; [|done].
    apply committed_subscribers. }
  destruct (Http.hasErrors (Http.errors data)).
  - cbn [mbind option_bind] in Hrun. by injection Hrun as <-.
  - destruct (Http.size data) as [z|]; [|done].
    destruct (setCacheEntrySize nowDate e (z + 1000) st3) as [st4|] eqn:Hset;
      [|done].
    cbn [mbind option_bind] in Hrun. injection Hrun as <-.
    pose proof (setCacheEntrySize_keeps _ _ _ _ _ Hwf3 Hset k e' Hin) as H4.
    rewrite Hs3 in H4. specialize (H4 Hsubs).
    by destruct (isNoCache (cacheMode c)).
Qed.

Lemma forEach_cache f refs : ∀ st st',
  (∀ e s s', f e s = Some s' → cache s' = cache s) →
  forEach f refs st = Some st' → cache st' = cache st.
Proof.
  induction refs as [|x refs IH]; intros st st' Hf; [by intros [= <-]|].
  simpl. destruct (f x st) as [st1|] eqn:Hx; [|done].
  cbn [mbind option_bind]. intros H.
  rewrite (IH st1 st' Hf H). by eapply Hf.
Qed.

Lemma refresh_cache e st p st' : refresh e st = Some (p, st') → cache st' = cache st.
Proof.
  unfold refresh. destruct (response (entry st e)) as [c|]; [|done].
  cbn [mbind option_bind]. by destruct (loading c); intros [= _ <-].
Qed.

Lemma forceRefresh_cache e st st' : forceRefresh e st = Some st' → cache st' = cache st.
Proof.
  unfold forceRefresh. destruct (response (entry st e)) as [c|]; [|done].
  cbn [mbind option_bind].
  destruct (refresh e _) as [[p st1]|] eqn:Hr; [|done].
  intros [= <-]. rewrite (refresh_cache _ _ _ _ Hr).
  destruct (loading c); [|done].
  by destruct (cancelRequest (entry st e)).
Qed.

Lemma clearAndRefresh_cache e st st' :
  clearAndRefresh e st = Some st' → cache st' = cache st.
Proof.
  unfold clearAndRefresh. destruct (forceRefresh e st) as [st1|] eqn:Hf; [|done].
  cbn [mbind option_bind]. destruct (response (entry st1 e)) as [c|]; [|done].
  cbn [mbind option_bind]. apply forceRefresh_cache in Hf.
  by destruct (result c); intros [= <-].
Qed.

Lemma refreshInUse_cache force e st st' :
  refreshInUse force e st = Some st' → cache st' = cache st.
Proof.
  unfold refreshInUse. destruct (_ <? _)%nat; [|by intros [= <-]].
  destruct force; [apply forceRefresh_cache|].
  destruct (refresh e st) as [[p st1]|] eqn:Hr; [|done].
  intros [= <-]. by eapply refresh_cache.
Qed.

Lemma executeQuery_keeps nowDate request mode cacheTimeout st e st' :
  wf st → executeQuery nowDate request mode cacheTimeout st = Some (e, st') →
  ∀ k e', (k, e') ∈ cache st → subscribers (entry st e') ≠ [] →
          (k, e') ∈ cache st'.
Proof.
  intros Hwf Hrun k e' Hin Hsubs. unfold executeQuery in Hrun.
  destruct (getOrCreateCacheEntry _ _ _ _ st) as [[e1 st1]|] eqn:Hget; [|done].
  cbn [mbind option_bind] in Hrun.
  assert (H1 : (k, e') ∈ cache st1).
  { unfold getOrCreateCacheEntry in Hget.
    destruct (mapGet request (cache st)) as [v|] eqn:Hv.
    - destruct (_ || _) eqn:Hcond.
      + by injection Hget as _ <-.
      + apply orb_false_iff in Hcond as [Hidle _].
        pose proof (mapGet_elem _ _ _ Hv) as Hvin.
        eapply (createEntry_keeps _ _ _ _ (removeEntry request v st));
          [by apply wf_removeEntry| |exact Hget| |done].
        * intros Hk. apply list_elem_of_fmap in Hk as (q & Hq1 & Hq).
          unfold removeEntry in Hq; simpl in Hq.
          by apply mapRemove_elem in Hq as [Hne _].
        * unfold removeEntry; simpl. apply mapRemove_elem. split; [|done].
          simpl. intros ->.
          rewrite (wf_unique_ref st request e' v Hwf Hin Hvin) in Hsubs.
          destruct (subscribers (entry st v)); done.
    - eapply createEntry_keeps; [done|by apply mapGet_None_inv|exact Hget|done..]. }
  match type of Hrun with
  | (if ?b then _ else _) = _ => destruct b
  end.
  - destruct (refresh e1 st1) as [[p st2]|] eqn:Hr; [|done].
    cbn [mbind option_bind] in Hrun. injection Hrun as _ <-.
    by rewrite (refresh_cache _ _ _ _ Hr).
  - by injection Hrun as _ <-.
Qed.

(** X11: No call takes an entry that has a subscriber out of the map: neither a
    query that needs room for a new entry, nor the arrival of a result that
    makes an entry grow, nor [clearCache], [refreshAll] or [resetStore]. *)
Theorem entries_in_use_stay (c : Call) (st st' : Client) (k : string) (e : nat) :
  wf st → call c st = Some st' →
  (k, e) ∈ cache st → subscribers (entry st e) ≠ [] →
  (k, e) ∈ cache st'.
Proof.
  intros Hwf Hrun Hin Hsubs.
  destruct c as [nowDate request mode cacheTimeout|e0|e0|e0|e0 cb|e0 cb
                 |nowDate e0 p data|nowDate|nowDate force|nowDate];
    simpl in Hrun.
  - destruct (executeQuery _ _ _ _ st) as [[e1 st1]|] eqn:Hq; [|done].
    injection Hrun as <-. by eapply executeQuery_keeps.
  - destruct (refresh e0 st) as [[p st1]|] eqn:Hr; [|done].
    injection Hrun as <-. by rewrite (refresh_cache _ _ _ _ Hr).
  - by rewrite (forceRefresh_cache _ _ _ Hrun).
  - by rewrite (clearAndRefresh_cache _ _ _ Hrun).
  - by injection Hrun as <-.
  - by injection Hrun as <-.
  - by eapply onRefreshed_keeps.
  - destruct (clearCache_changes nowDate st Hwf) as (st1 & Hrun1 & _ & _ & Hk & _).
    rewrite Hrun in Hrun1. injection Hrun1 as <-. by apply Hk.
  - unfold refreshAll in Hrun.
    destruct (clearCache_changes nowDate st Hwf) as (st1 & Hrun1 & _ & _ & Hk & _).
    rewrite Hrun1 in Hrun. cbn [mbind option_bind] in Hrun.
    rewrite (forEach_cache _ _ _ _ (refreshInUse_cache force) Hrun). by apply Hk.
  - unfold resetStore in Hrun.
    destruct (clearCache_changes nowDate st Hwf) as (st1 & Hrun1 & _ & _ & Hk & _).
    rewrite Hrun1 in Hrun. cbn [mbind option_bind] in Hrun.
    rewrite (forEach_cache _ _ _ _ clearAndRefresh_cache Hrun). by apply Hk.
Qed.

(** ** A new key *)

(** X12: [executeQuery] on a request that has no entry in the map, in any mode:
    a new entry is made and put in the map under the request, with size 1000,
    [expires] 0, no subscriber and no result; it is loading the one request
    that the call starts (the second [refresh] of the call finds it
    loading).  The entries made before are not written, and those with a
    subscriber stay in the map. *)
Theorem executeQuery_new_key (nowDate : Z) (request : string)
  (mode : option FetchPolicy) (cacheTimeout : option Z) (st : Client) :
  wf st → mapGet request (cache st) = None →
  ∃ st',
    executeQuery nowDate request mode cacheTimeout st
    = Some (length (heap st), st')
    ∧ mapGet request (cache st') = Some (length (heap st))
    ∧ entry st' (length (heap st))
      = mkEntry request
          (Some (mkCell None (Some (requests st)) true
                   (default (defaultCachePolicy st) mode)
                   (default (defaultCacheTime st) cacheTimeout)))
          1000 0 nowDate [] (Some (requests st))
    ∧ requests st' = S (requests st)
    ∧ (∀ e, (e < length (heap st))%nat → entry st' e = entry st e)
    ∧ (∀ k e, (k, e) ∈ cache st → subscribers (entry st e) ≠ [] →
              (k, e) ∈ cache st').
Proof.
  intros Hwf Hget.
  pose proof (mapGet_None_inv _ _ Hget) as Hfresh.
  destruct (createEntry_spec nowDate request (default (defaultCachePolicy st) mode)
              (default (defaultCacheTime st) cacheTimeout) st Hwf Hfresh)
    as (st' & Hrun & Hwf' & (m & Hcache' & Hm) & He' & Hold & Hreq & _).
  exists st'. split_and!; try done.
  - unfold executeQuery, getOrCreateCacheEntry. rewrite Hget, Hrun.
    cbn [mbind option_bind].
    eapply executeQuery_tail; [by rewrite He'|done].
  - apply mapGet_Some; [apply Hwf'|]. rewrite Hcache'.
    apply elem_of_app. right. by left.
  - by eapply createEntry_keeps.
Qed.

(** ** The arrival of a result *)

Lemma withCacheSize_twice z z' st :
  z = cacheSize st → withCacheSize z (withCacheSize z' st) = st.
Proof. intros ->. by destruct st. Qed.

Lemma setCacheEntrySize_room nowDate e newSize st k :
  wf st → (k, e) ∈ cache st →
  cacheSize st - size (entry st e) + newSize ≤ maxCacheSize st →
  setCacheEntrySize nowDate e newSize st = Some (update e (setSize newSize) st).
Proof.
  intros Hwf Hin Hroom. unfold setCacheEntrySize.
  rewrite (wf_key st k e Hwf Hin), (mapGet_Some k e _ (proj1 Hwf) Hin).
  rewrite bool_decide_eq_true_2 by done.
  unfold allocateCacheSize.
  assert (Hneed : (needBytes newSize
                     (withCacheSize (cacheSize st - size (entry st e)) st) <=? 0)
                  = true).
  { apply Z.leb_le. unfold needBytes. simpl. lia. }
  rewrite Hneed. cbn [mbind option_bind]. do 2 f_equal.
  apply withCacheSize_twice. simpl.
  change (entry (withCacheSize (cacheSize st - size (entry st e)) st) e)
    with (entry st e). lia.
Qed.

Lemma onRefreshed_room nowDate e p data st k c z :
  wf st → (k, e) ∈ cache st → response (entry st e) = Some c →
  resultPromise c = Some p →
  Http.hasErrors (Http.errors data) = false → Http.size data = Num z →
  cacheSize st - size (entry st e) + (z + 1000) ≤ maxCacheSize st →
  onRefreshed nowDate e p data st
  = Some (notifySubscribers e (Some data)
            (if isNoCache (cacheMode c)
             then update e (setSize (z + 1000)) (update e (committed data) st)
             else update e (setExpires (nowDate + cacheTimeoutValue c))
                    (update e (setSize (z + 1000)) (update e (committed data) st)))).
Proof.
  intros Hwf Hin Hc Hp Herr Hz Hroom.
  pose proof (entry_in_range st e c Hc) as Hlt.
  unfold onRefreshed. rewrite Hc. cbn [mbind option_bind].
  rewrite bool_decide_eq_true_2 by done. rewrite commit_update, Herr, Hz.
  set (st3 := update e (committed data) st).
  assert (Hwf3 : wf st3) by (apply wf_update; [apply committed_key|done]).
  assert (Hsz : size (entry st3 e) = size (entry st e)).
  { unfold st3. rewrite entry_update_eq by done.
    unfold committed. cbn [size setCancelRequest].
    destruct (cellFun_setCell (setLoading false)
                (setCell (setResult (Some data)) (entry st e)))
      as (_ & -> & _).
    by destruct (cellFun_setCell (setResult (Some data)) (entry st e))
      as (_ & -> & _). }
  rewrite (setCacheEntrySize_room nowDate e (z + 1000) st3 k Hwf3);
    [|done|by rewrite Hsz].
  cbn [mbind option_bind]. by destruct (isNoCache (cacheMode c)).
Qed.

(** X13: A result that arrives while the cache has room for it is served from
    the cache: when the transport call of the entry under [request]
    completes, without errors, at time [t1], and the mode of the cell is
    not no-cache, then an [executeQuery] of the same request in cache-first
    mode, at any time up to [t1] plus the timeout of the cell, returns the
    same entry, holding that result, and starts no request. *)
Theorem answered_query_is_cached (t1 t2 : Z) (request : string)
  (mode : option FetchPolicy) (cacheTimeout : option Z) (st : Client)
  (e p : nat) (c : Cell) (data : Http.Result) (z : Z) :
  wf st → mapGet request (cache st) = Some e →
  response (entry st e) = Some c → resultPromise c = Some p →
  cacheMode c ≠ NoCache →
  Http.hasErrors (Http.errors data) = false → Http.size data = Num z →
  cacheSize st - size (entry st e) + (z + 1000) ≤ maxCacheSize st →
  default (defaultCachePolicy st) mode = CacheFirst →
  t2 ≤ t1 + cacheTimeoutValue c →
  ∃ st1 st2,
    onRefreshed t1 e p data st = Some st1
    ∧ executeQuery t2 request mode cacheTimeout st1 = Some (e, st2)
    ∧ response (entry st2 e)
      = Some (mkCell (Some data) (Some p) false (cacheMode c) (cacheTimeoutValue c))
    ∧ requests st2 = requests st
    ∧ cache st2 = cache st.
Proof.
  intros Hwf Hget Hc Hp Hmode Herr Hz Hroom Hfirst Hfresh.
  pose proof (mapGet_elem _ _ _ Hget) as Hin.
  pose proof (entry_in_range st e c Hc) as Hlt.
  pose proof (onRefreshed_room t1 e p data st request c z Hwf Hin Hc Hp Herr Hz Hroom)
    as Hrun1.
  assert (Hnc : isNoCache (cacheMode c) = false) by (by destruct (cacheMode c)).
  rewrite Hnc in Hrun1.
  set (st1 := notifySubscribers e (Some data) _) in Hrun1.
  assert (Hwf1 : wf st1) by (by eapply onRefreshed_wf).
  assert (He1 : entry st1 e
                = setExpires (t1 + cacheTimeoutValue c)
                    (setSize (z + 1000) (committed data (entry st e)))).
  { unfold st1. rewrite entry_notifySubscribers.
    by rewrite !entry_update_eq by (rewrite ?heap_update_length; done). }
  assert (Hc1 : response (entry st1 e)
                = Some (mkCell (Some data) (Some p) false (cacheMode c)
                          (cacheTimeoutValue c))).
  { rewrite He1. cbn [response setExpires setSize].
    unfold committed, setCell. rewrite Hc. simpl. by rewrite <- Hp. }
  destruct (executeQuery_found t2 request mode cacheTimeout st1 e _ Hwf1 Hget Hc1)
    as (st2 & Hrun2 & Hcache2 & _ & _ & _ & _ & _ & _ & _ & Hc2 & Hreq2 & _).
  { right. change (defaultCachePolicy st1) with (defaultCachePolicy st).
    by rewrite Hfirst. }
  change (defaultCachePolicy st1) with (defaultCachePolicy st) in *.
  rewrite Hfirst in *. rewrite He1 in *. cbn [expires setExpires isCacheAndNetwork orb] in *.
  assert (Hnot : (t1 + cacheTimeoutValue c <? t2) = false) by (apply Z.ltb_ge; lia).
  rewrite Hnot, andb_false_r in *. cbn [andb] in *.
  exists st1, st2. split_and!; done.
Qed.

(** X14: An entry without subscribers that has expired is not kept by its own
    result when the cache is over its budget: when the result arrives and
    the running total, with the new size in place of the old one, is above
    [maxCacheSize], the first step of the eviction takes the entry itself
    out of the map; its cell still gets the result. *)
Theorem resized_idle_entry_is_dropped (nowDate : Z) (k : string) (e p : nat)
  (c : Cell) (data : Http.Result) (z : Z) (st : Client) :
  wf st → (k, e) ∈ cache st →
  response (entry st e) = Some c → resultPromise c = Some p →
  Http.hasErrors (Http.errors data) = false → Http.size data = Num z →
  subscribers (entry st e) = [] → expires (entry st e) < nowDate →
  maxCacheSize st < cacheSize st - size (entry st e) + (z + 1000) →
  ∃ st',
    onRefreshed nowDate e p data st = Some st'
    ∧ mapGet k (cache st') = None
    ∧ (∀ k', (k', e) ∉ cache st')
    ∧ response (entry st' e)
      = Some (mkCell (Some data) (Some p) false (cacheMode c) (cacheTimeoutValue c)).
Proof.
  intros Hwf Hin Hc Hp Herr Hz Hidle Hexp Hover.
  pose proof (entry_in_range st e c Hc) as Hlt.
  destruct (onRefreshed_current nowDate e p data st c z Hwf Hc (λ _, Hz) Hp)
    as (st' & Hrun & Hc' & _).
  exists st'. split; [done|].
  assert (Hgone : ∀ k', ((k', e) ∉ cache st') ∧ ∀ q, q ∈ cache st' → q ∈ cache st).
  { pose proof Hrun as Hrun'. unfold onRefreshed in Hrun'.
    rewrite Hc in Hrun'. cbn [mbind option_bind] in Hrun'.
    rewrite bool_decide_eq_true_2 in Hrun' by done.
    rewrite commit_update, Herr, Hz in Hrun'.
    set (st3 := update e (committed data) st) in *.
    assert (Hwf3 : wf st3) by (apply wf_update; [apply committed_key|done]).
    assert (He3 : entry st3 e = committed data (entry st e))
      by (by apply entry_update_eq).
    assert (Hf3 : size (entry st3 e) = size (entry st e)
                  ∧ expires (entry st3 e) = expires (entry st e)
                  ∧ subscribers (entry st3 e) = subscribers (entry st e)).
    { rewrite He3. unfold committed. cbn [size expires subscribers setCancelRequest].
      destruct (cellFun_setCell (setLoading false)
                  (setCell (setResult (Some data)) (entry st e)))
        as (_ & -> & -> & _ & -> & _).
      by destruct (cellFun_setCell (setResult (Some data)) (entry st e))
        as (_ & -> & -> & _ & -> & _). }
    destruct Hf3 as (Hsz3 & Hex3 & Hsu3).
    unfold setCacheEntrySize in Hrun'.
    rewrite (wf_key st3 k e Hwf3 Hin), (mapGet_Some k e _ (proj1 Hwf3) Hin) in Hrun'.
    rewrite bool_decide_eq_true_2 in Hrun' by done.
    set (st4 := withCacheSize (cacheSize st3 - size (entry st3 e)) st3) in *.
    destruct (allocate_spec nowDate (z + 1000) (Some e) st4
                (wf_withCacheSize _ _ Hwf3))
      as (st5 & Hal & _ & Hev & _ & _ & _ & _ & _).
    rewrite Hal in Hrun'. cbn [mbind option_bind] in Hrun'.
    assert (Hneed : 0 < needBytes (z + 1000) st4).
    { unfold needBytes, st4. simpl. rewrite Hsz3.
      change (cacheSize st3) with (cacheSize st).
      change (maxCacheSize st3) with (maxCacheSize st). lia. }
    destruct (evictsUntilFits_keeps _ _ _ _
                (wf_dropExpired nowDate st4 (wf_withCacheSize _ _ Hwf3))
                (Hev Hneed)) as (_ & _ & Hsub & _).
    assert (Hc5 : cache st' = cache st5).
    { destruct (isNoCache (cacheMode c)); by injection Hrun' as <-. }
    intros k'. rewrite Hc5. split.
    - intros Hin5. apply Hsub in Hin5. unfold dropExpired in Hin5; simpl in Hin5.
      apply list_elem_of_filter in Hin5 as [Hnot _]. apply Hnot.
      unfold idleAndExpired. simpl.
      change (entry st4 e) with (entry st3 e). by rewrite Hsu3, Hex3.
    - intros q Hq. apply Hsub in Hq. unfold dropExpired in Hq; simpl in Hq.
      by apply list_elem_of_filter in Hq as [_ Hq]. }
  split_and!; [|intros k'; by destruct (Hgone k')|done].
  apply mapGet_None. intros Hk.
  apply list_elem_of_fmap in Hk as ([k0 e0] & Hk0 & Hq). simpl in Hk0. subst k0.
  destruct (Hgone k) as [Hne Hsub].
  pose proof (Hsub _ Hq) as Hq'.
  rewrite (wf_unique_ref st k e0 e Hwf Hq' Hin) in Hq. done.
Qed.

(** ** Subscribers *)

Lemma onRefreshed_delivered nowDate e p data st st' :
  wf st → onRefreshed nowDate e p data st = Some st' →
  ∃ c, response (entry st e) = Some c
       ∧ delivered st'
         = delivered st
           ++ (if bool_decide (resultPromise c = Some p)
               then map (λ s, (s, Some data)) (subscribers (entry st e))
               else []).
Proof.
  intros Hwf Hrun.
  destruct (response (entry st e)) as [c|] eqn:Hc;
    [|unfold onRefreshed in Hrun; by rewrite Hc in Hrun].
  exists c. split; [done|]. case_bool_decide as Hp.
  - destruct (Http.hasErrors (Http.errors data)) eqn:Herr.
    + destruct (onRefreshed_current nowDate e p data st c 0 Hwf Hc)
        as (st2 & Hrun2 & _ & _ & _ & Hdel & _); [by rewrite Herr|done|].
      rewrite Hrun in Hrun2. by injection Hrun2 as <-.
    + destruct (Http.size data) as [z|] eqn:Hz.
      * destruct (onRefreshed_current nowDate e p data st c z Hwf Hc)
          as (st2 & Hrun2 & _ & _ & _ & Hdel & _); [done|done|].
        rewrite Hrun in Hrun2. by injection Hrun2 as <-.
      * by rewrite (onRefreshed_NaN nowDate e p data st c) in Hrun.
  - rewrite (onRefreshed_stale nowDate e p data st c Hc Hp) in Hrun.
    injection Hrun as <-. by rewrite app_nil_r.
Qed.

Lemma filter_all {A} (P : A → Prop) `{!∀ x, Decision (P x)} (l : list A) :
  (∀ x, x ∈ l → P x) → filter P l = l.
Proof.
  induction l as [|x l IH]; intros Hall; [done|].
  rewrite filter_cons, decide_True by (apply Hall; by left).
  rewrite IH; [done|]. intros y Hy. apply Hall. by right.
Qed.

(** X15: A callback that subscribes to an entry is called with the result when
    the request of the entry completes.  [unsubscribe] takes the callback out
    of the subscribers, however often it was subscribed: a completion after it
    does not call the callback.  For a callback that was not subscribed
    before, [subscribe] followed by [unsubscribe] leaves the client as it
    was. *)
Theorem subscribe_unsubscribe (e cb : nat) (st : Client) :
  wf st → (e < length (heap st))%nat →
  (cb ∉ subscribers (entry st e) → unsubscribe e cb (subscribe e cb st) = st)
  ∧ (∀ nowDate p data st' c,
       response (entry st e) = Some c → resultPromise c = Some p →
       onRefreshed nowDate e p data (subscribe e cb st) = Some st' →
       (cb, Some data) ∈ delivered st')
  ∧ (∀ nowDate p data st',
       onRefreshed nowDate e p data (unsubscribe e cb st) = Some st' →
       ∀ r, (cb, r) ∈ delivered st' → (cb, r) ∈ delivered st).
Proof.
  intros Hwf Hlt. split_and!.
  - intros Hcb. unfold unsubscribe, subscribe, update, withHeap; simpl.
    destruct st as [ca h cs mx dp dt pr rq cn dl]; simpl in *. f_equal.
    rewrite list_alter_alter_eq.
    apply list_eq. intros i. destruct (decide (i = e)) as [->|Hne].
    + rewrite list_lookup_alter_eq.
      destruct (h !! e) as [v|] eqn:Hv; [|done]. simpl. f_equal.
      unfold entry in Hcb. simpl in Hcb.
      rewrite (list_lookup_total_correct _ _ _ Hv) in Hcb.
      destruct v as [k r s x l sb cr]; simpl in *.
      unfold setSubscribers; simpl. f_equal.
      rewrite filter_app, filter_cons, decide_False, filter_nil, app_nil_r by tauto.
      apply filter_all. intros y Hy ->. done.
    + by rewrite list_lookup_alter_ne.
  - intros nowDate p data st' c Hc Hp Hrun.
    assert (Hwf1 : wf (subscribe e cb st)) by (by apply wf_update).
    destruct (onRefreshed_delivered _ _ _ _ _ _ Hwf1 Hrun) as (c1 & Hc1 & ->).
    unfold subscribe in Hc1 |- *. rewrite entry_update_eq in Hc1 |- * by done.
    simpl in Hc1. rewrite Hc in Hc1. injection Hc1 as <-.
    rewrite bool_decide_eq_true_2 by done.
    apply elem_of_app. right. simpl. rewrite map_app.
    apply elem_of_app. right. by left.
  - intros nowDate p data st' Hrun r Hr.
    assert (Hwf1 : wf (unsubscribe e cb st)) by (by apply wf_update).
    destruct (onRefreshed_delivered _ _ _ _ _ _ Hwf1 Hrun) as (c1 & Hc1 & Hd).
    rewrite Hd in Hr. apply elem_of_app in Hr as [Hr|Hr]; [done|].
    case_bool_decide; [|by apply elem_of_nil in Hr].
    unfold unsubscribe in Hr. rewrite entry_update_eq in Hr by done.
    simpl in Hr. apply list_elem_of_In, in_map_iff in Hr as (s & [= -> _] & Hs).
    apply list_elem_of_In, list_elem_of_filter in Hs as [Hne _]. done.
Qed.

(** ** [clearAndRefresh] *)

(** X16: [clearAndRefresh] on a response object: a request in flight is
    cancelled, one new request is started and the cell is loading it; the
    result of the cell is cleared, and when there was one every subscriber
    of the entry is called with [null]; the map and the other entries
    stay.  A completion of a request made before the call is dropped
    afterwards. *)
Theorem clearAndRefresh_restarts (e : nat) (st : Client) (c : Cell) :
  response (entry st e) = Some c →
  ∃ st',
    clearAndRefresh e st = Some st'
    ∧ response (entry st' e)
      = Some (mkCell None (Some (requests st)) true (cacheMode c)
                (cacheTimeoutValue c))
    ∧ requests st' = S (requests st)
    ∧ cancelled st'
      = cancelled st
        ++ (if loading c then option_list (cancelRequest (entry st e)) else [])
    ∧ delivered st'
      = delivered st
        ++ (match result c with
            | Some _ => map (λ s, (s, None)) (subscribers (entry st e))
            | None => []
            end)
    ∧ cache st' = cache st
    ∧ (∀ e', e' ≠ e → entry st' e' = entry st e')
    ∧ (∀ nowDate p data, (p < requests st)%nat →
         onRefreshed nowDate e p data st' = Some st').
Proof.
  intros Hc.
  destruct (clearAndRefresh_effect e st c Hc)
    as (st' & Hrun & Hco & Hot & Hc' & _ & Hreq & _ & Hcan & Hdel).
  exists st'. split_and!; try done.
  - by destruct Hco as (-> & _).
  - intros nowDate p data Hp. eapply onRefreshed_stale; [exact Hc'|].
    simpl. intros [= Heq]. lia.
Qed.

(** ** The theorems at the sample calls *)

Lemma clearCache_effect_witness :
  wf sampleStore
  ∧ ∃ st', clearCache 100 sampleStore = Some st'
           ∧ cache st' = [("C", 2%nat)]
           ∧ expires (entry st' 2) = 0.
Proof.
  split; [apply wfb_wf; vm_compute; reflexivity|].
  destruct (clearCache_effect 100 sampleStore (wfb_wf sampleStore eq_refl))
    as (st' & Hrun & _ & _ & Hexp & _).
  exists st'. split; [exact Hrun|]. split.
  - vm_compute in Hrun. injection Hrun as <-. reflexivity.
  - rewrite (Hexp "C" 2%nat); [reflexivity|].
    apply elem_of_cons; right; apply elem_of_cons; right; apply elem_of_cons; left;
      reflexivity.
Defined.

Lemma refreshAll_effect_witness :
  sound sampleStore
  ∧ ∃ st', refreshAll 100 true sampleStore = Some st'
           ∧ cache st' = [("C", 2%nat)]
           ∧ requests st' = 1%nat.
Proof.
  split; [apply soundb_sound; vm_compute; reflexivity|].
  destruct (refreshAll_effect 100 true sampleStore
              (soundb_sound sampleStore eq_refl))
    as (st1 & st' & Hrun1 & Hrun & _).
  exists st'. split; [exact Hrun|].
  vm_compute in Hrun. injection Hrun as <-. split; reflexivity.
Defined.

Lemma resetStore_effect_witness :
  sound servedStore
  ∧ ∃ st', resetStore 100 servedStore = Some st'
           ∧ cache st' = [("C", 2%nat)]
           ∧ requests st' = 2%nat
           ∧ delivered st' = [(7%nat, Some sampleResult); (7%nat, None)].
Proof.
  split; [apply soundb_sound; vm_compute; reflexivity|].
  destruct (resetStore_effect 100 servedStore (soundb_sound servedStore eq_refl))
    as (st1 & st' & Hrun1 & Hrun & _).
  exists st'. split; [exact Hrun|].
  vm_compute in Hrun. injection Hrun as <-. split_and!; reflexivity.
Defined.

Lemma calls_return_witness :
  sound (init 20971520 CacheFirst 86400000)
  ∧ ∃ st', calls sampleCalls (init 20971520 CacheFirst 86400000) = Some st'
           ∧ requests st' = 3%nat
           ∧ delivered st' = [(7%nat, Some sampleResult); (7%nat, None)].
Proof.
  split; [apply sound_init|].
  destruct (calls_return sampleCalls (init 20971520 CacheFirst 86400000)
              (sound_init _ _ _)) as (st' & Hrun & _).
  - simpl. split; [exact I|]. intros s1 H1. vm_compute in H1. injection H1 as <-.
    split; [vm_compute; lia|]. intros s2 H2. vm_compute in H2. injection H2 as <-.
    split.
    { split; [vm_compute; lia|]. intros _. by exists 20. }
    intros s3 H3. vm_compute in H3. injection H3 as <-.
    split; [exact I|]. intros s4 H4. vm_compute in H4. injection H4 as <-.
    split; [exact I|]. intros s5 H5. exact I.
  - exists st'. split; [exact Hrun|].
    vm_compute in Hrun. injection Hrun as <-. split; reflexivity.
Defined.

Lemma executeQuery_existing_key_witness :
  wf sampleStore
  ∧ (∃ st', executeQuery 100 "B" None None sampleStore = Some (1%nat, st')
            ∧ requests st' = 0%nat ∧ lastUsed (entry st' 1) = 100)
  ∧ ∃ st', executeQuery 100 "A" None None sampleStore = Some (0%nat, st')
           ∧ requests st' = 1%nat.
Proof.
  split; [apply wfb_wf; vm_compute; reflexivity|]. split.
  - destruct (executeQuery_existing_key 100 "B" None None sampleStore 1 sampleCell
                (wfb_wf sampleStore eq_refl) eq_refl eq_refl)
      as (st' & Hrun & _ & _ & _ & Hlu & _ & _ & _ & _ & Hreq & _).
    { right. discriminate. }
    exists st'. split; [exact Hrun|]. split; [exact Hreq|exact Hlu].
  - destruct (executeQuery_existing_key 100 "A" None None sampleStore 0 sampleCell
                (wfb_wf sampleStore eq_refl) eq_refl eq_refl)
      as (st' & Hrun & _ & _ & _ & _ & _ & _ & _ & _ & Hreq & _).
    { right. discriminate. }
    exists st'. split; [exact Hrun|exact Hreq].
Defined.

Lemma entries_in_use_stay_witness :
  wf sampleStore
  ∧ ∃ st', call (ExecuteQuery 100 "D" None None) sampleStore = Some st'
           ∧ cache st' = [("B", 1%nat); ("C", 2%nat); ("D", 3%nat)]
           ∧ ("C", 2%nat) ∈ cache st'.
Proof.
  split; [apply wfb_wf; vm_compute; reflexivity|].
  destruct (call (ExecuteQuery 100 "D" None None) sampleStore) as [st'|] eqn:Hrun;
    [|vm_compute in Hrun; discriminate Hrun].
  exists st'. split; [reflexivity|]. split.
  - vm_compute in Hrun. injection Hrun as <-. reflexivity.
  - apply (entries_in_use_stay (ExecuteQuery 100 "D" None None) sampleStore st' "C" 2
             (wfb_wf sampleStore eq_refl) Hrun).
    + apply elem_of_cons; right; apply elem_of_cons; right; apply elem_of_cons; left;
        reflexivity.
    + discriminate.
Defined.

Lemma executeQuery_new_key_witness :
  wf sampleStore
  ∧ mapGet "D" (cache sampleStore) = None
  ∧ ∃ st', executeQuery 100 "D" None None sampleStore = Some (3%nat, st')
           ∧ requests st' = 1%nat
           ∧ mapGet "D" (cache st') = Some 3%nat.
Proof.
  split; [apply wfb_wf; vm_compute; reflexivity|]. split; [reflexivity|].
  destruct (executeQuery_new_key 100 "D" None None sampleStore
              (wfb_wf sampleStore eq_refl) eq_refl)
    as (st' & Hrun & Hget & _ & Hreq & _).
  exists st'. split; [exact Hrun|]. split; [exact Hreq|exact Hget].
Defined.

Lemma answered_query_is_cached_witness :
  wf (firstQuery 20971520)
  ∧ ∃ st1 st2,
      onRefreshed 200 0 0 sampleResult (firstQuery 20971520) = Some st1
      ∧ executeQuery 86400200 "q" None None st1 = Some (0%nat, st2)
      ∧ requests st2 = 1%nat.
Proof.
  split; [apply wfb_wf; vm_compute; reflexivity|].
  destruct (answered_query_is_cached 200 86400200 "q" None None (firstQuery 20971520)
              0 0 (mkCell None (Some 0%nat) true CacheFirst 86400000) sampleResult 20
              (wfb_wf (firstQuery 20971520) eq_refl) eq_refl eq_refl eq_refl)
    as (st1 & st2 & Hrun1 & Hrun2 & _ & Hreq & _);
    [simpl; discriminate|reflexivity|reflexivity|vm_compute; discriminate
    |reflexivity|vm_compute; discriminate|].
  exists st1, st2. split; [exact Hrun1|]. split; [exact Hrun2|exact Hreq].
Defined.

Lemma resized_idle_entry_is_dropped_witness :
  wf (firstQuery 1500)
  ∧ ∃ st', onRefreshed 200 0 0 (Http.mkResult JNull JUndef false (Num 600)
                                  (Http.ExtJson JUndef)) (firstQuery 1500)
           = Some st'
           ∧ cache st' = [].
Proof.
  split; [apply wfb_wf; vm_compute; reflexivity|].
  destruct (resized_idle_entry_is_dropped 200 "q" 0 0
              (mkCell None (Some 0%nat) true CacheFirst 86400000)
              (Http.mkResult JNull JUndef false (Num 600) (Http.ExtJson JUndef))
              600 (firstQuery 1500)
              (wfb_wf (firstQuery 1500) eq_refl))
    as (st' & Hrun & _);
    [apply elem_of_cons; left; reflexivity|reflexivity|reflexivity|reflexivity
    |reflexivity|reflexivity|vm_compute; reflexivity|vm_compute; reflexivity|].
  exists st'. split; [exact Hrun|].
  vm_compute in Hrun. injection Hrun as <-. reflexivity.
Defined.

Lemma subscribe_unsubscribe_witness :
  wf sampleStore
  ∧ unsubscribe 0 9 (subscribe 0 9 sampleStore) = sampleStore.
Proof.
  split; [apply wfb_wf; vm_compute; reflexivity|].
  destruct (subscribe_unsubscribe 0 9 sampleStore (wfb_wf sampleStore eq_refl))
    as (Hround & _); [vm_compute; lia|].
  apply Hround. intros H. vm_compute in H. inversion H.
Defined.

Lemma clearAndRefresh_restarts_witness :
  response (entry loadingStore 0)
  = Some (mkCell None (Some 0%nat) true CacheFirst 86400000)
  ∧ ∃ st', clearAndRefresh 0 loadingStore = Some st'
           ∧ requests st' = 2%nat
           ∧ cancelled st' = [0%nat].
Proof.
  split; [reflexivity|].
  destruct (clearAndRefresh_restarts 0 loadingStore
              (mkCell None (Some 0%nat) true CacheFirst 86400000) eq_refl)
    as (st' & Hrun & _ & Hreq & Hcan & _).
  exists st'. split; [exact Hrun|]. split; [exact Hreq|exact Hcan].
Defined.

End StoreFacts.

(** * Properties of the life of a session *)
Module SessionFacts.
Import JS Subscription SubscriptionFacts Session.

(** ** Traces *)

Lemma tidy_app t u : ∀ seen,
  tidy seen (t ++ u) = tidy seen t && tidy (seen || closed t) u.
Proof.
  induction t as [|ev t IH]; intros seen.
  - simpl. by rewrite orb_false_r.
  - destruct ev, seen; simpl; rewrite ?IH; simpl; rewrite ?orb_true_r; done.
Qed.

Lemma closed_app t u : closed (t ++ u) = closed t || closed u.
Proof. apply existsb_app. Qed.

Lemma settles_app t u : settles (t ++ u) = (settles t + settles u)%nat.
Proof. induction t as [|ev t IH]; simpl; [done|]. rewrite IH. lia. Qed.

Lemma counted_same active s s' :
  activeSubscriptions s' = activeSubscriptions s → trace s' = trace s →
  aborted s' = aborted s → connectionResolved s' = connectionResolved s →
  counted active s → counted active s'.
Proof. unfold counted. by intros -> -> -> ->. Qed.

Lemma counted_emit active ev s :
  counted active s → aborted s = false → plainEffect ev = true →
  counted active (emit ev s).
Proof.
  intros (Ha & Ht & Hc & Hs & Hr) Hlive Hev. unfold counted, emit. simpl.
  rewrite tidy_app, closed_app, settles_app, Ht, Hc, Hlive in *.
  unfold plainEffect in Hev. apply andb_true_iff in Hev as [Hcl Hse].
  apply negb_true_iff in Hcl, Hse.
  split_and!; try done.
  - destruct ev; simpl in *; done.
  - simpl. by rewrite Hcl.
  - simpl. rewrite Hse. lia.
Qed.

(** A call that can follow [onClose] and settles nothing keeps the
    invariant on any session. *)
Lemma counted_late active ev s :
  counted active s → afterClose ev = true → isSettle ev = false →
  counted active (emit ev s).
Proof.
  intros (Ha & Ht & Hc & Hs & Hr) Hev Hse. unfold counted, emit. simpl.
  rewrite tidy_app, closed_app, settles_app, Ht, Hc.
  split_and!; try done.
  - destruct ev; try discriminate; simpl; by rewrite orb_true_r.
  - destruct ev; try discriminate; simpl; by rewrite orb_false_r.
  - simpl. rewrite Hse, Hs. lia.
Qed.

Lemma counted_hook active has ev s :
  counted active s → aborted s = false → plainEffect ev = true →
  counted active (hook has ev s).
Proof.
  intros Hs Hlive Hev. unfold hook.
  destruct (timeoutHandler s) as [h|]; [|done].
  destruct (has h); [by apply counted_emit|done].
Qed.

Lemma counted_hook_late active has ev s :
  counted active s → afterClose ev = true → isSettle ev = false →
  counted active (hook has ev s).
Proof.
  intros Hs Hev Hse. unfold hook.
  destruct (timeoutHandler s) as [h|]; [|done].
  destruct (has h); [by apply counted_late|done].
Qed.

Lemma counted_log active m s :
  counted active s → counted active (logConnectionError m s).
Proof.
  intros Hs. unfold logConnectionError.
  destruct (logsConnectionErrors s); [by apply counted_late|done].
Qed.

Lemma counted_doAbort active reason s :
  counted active s → counted active (doAbort reason s).
Proof.
  intros Hs. destruct (aborted s) eqn:Hab.
  - pose proof Hs as (_ & _ & _ & _ & Hr). specialize (Hr Hab).
    rewrite doAbort_unfold, doAbort1_settled by done.
    by eapply counted_same; [..|exact Hs].
  - destruct (doAbort_first reason s Hab) as (Hab' & Hact & Htr & _ & _).
    assert (Hcr : connectionResolved (doAbort reason s) = true).
    { rewrite doAbort_unfold. unfold withSocket. cbn [connectionResolved].
      by destruct (doAbort1_fields reason s) as (_ & -> & _). }
    destruct Hs as (Ha & Ht & Hc & Hse & Hr).
    unfold counted. rewrite Hab', Hact, Htr, Hcr, Ha, Hab.
    rewrite tidy_app, closed_app, settles_app, Ht, Hc, Hab, Hse.
    unfold closeEffects.
    split_and!; try done.
    + lia.
    + destruct (timeoutHandler s) as [h|]; [destruct (hasOnClose h)|];
        destruct (connectionResolved s); done.
    + destruct (timeoutHandler s) as [h|]; [destruct (hasOnClose h)|];
        destruct (connectionResolved s); done.
    + destruct (timeoutHandler s) as [h|]; [destruct (hasOnClose h)|];
        destruct (connectionResolved s); done.
Qed.

Lemma counted_doData active r s :
  counted active s → counted active (doData r s).
Proof.
  intros Hs. unfold doData. destruct (aborted s) eqn:Hab; [done|].
  by apply counted_emit.
Qed.

Lemma counted_doError active e s :
  counted active s → counted active (doError e s).
Proof.
  intros Hs. unfold doError. destruct (aborted s) eqn:Hab; [done|].
  apply counted_doAbort. by apply counted_emit.
Qed.

Lemma counted_send active msg s :
  counted active s → counted active (send msg s).
Proof.
  intros Hs. unfold send. destruct (webSocket s) as [ws|]; [|done].
  destruct (aborted s) eqn:Hab; simpl; [done|].
  destruct (readyState ws =? 1)%nat; [|done].
  apply counted_hook; [|done|done].
  by eapply counted_same; [..|exact Hs].
Qed.

Lemma counted_resolve active s :
  counted active s → aborted s = false → connectionResolved s = false →
  counted active (emit ResolveConnection (withConnectionResolved true s)).
Proof.
  intros (Ha & Ht & Hc & Hs & Hr) Hlive Hcr. unfold counted, emit. simpl.
  rewrite tidy_app, closed_app, settles_app, Ht, Hc, Hs, Hcr, Hlive.
  rewrite Hlive in Ha. split_and!; done.
Qed.

(** The dispatch keeps the invariant on any session, aborted or not. *)
Lemma counted_dispatch active raw message s :
  counted active s → counted active (dispatchMessage raw message s).
Proof.
  intros Hs. unfold dispatchMessage.
  destruct (isString (get_prop message "type") "ping"); [by apply counted_send|].
  destruct (state s) eqn:Hst.
  - destruct (negb (isString (get_prop message "type") "connection_ack")).
    + apply counted_doError. by apply counted_log.
    + apply counted_send.
      assert (H1 : counted active (withState Connected s))
        by (by eapply counted_same; [..|exact Hs]).
      destruct (connectionResolved (withState Connected s)) eqn:Hcr.
      * by apply counted_hook_late.
      * assert (Hlive : aborted (withState Connected s) = false).
        { destruct H1 as (_ & _ & _ & _ & Hr).
          destruct (aborted (withState Connected s)); [|done].
          rewrite Hr in Hcr; done. }
        pose proof (counted_resolve active _ H1 Hlive Hcr) as H2.
        destruct (hasOptionsOnOpen _).
        -- apply counted_hook_late; [|done|done]. by apply counted_emit.
        -- by apply counted_hook_late.
  - destruct (isString (get_prop message "type") "next").
    { destruct (_ || _); [by apply counted_doError|by apply counted_doData]. }
    destruct (isString (get_prop message "type") "error").
    { destruct (_ || _); [by apply counted_doError|].
      by apply counted_doAbort, counted_doData. }
    destruct (isString (get_prop message "type") "complete").
    { destruct (negb _); [by apply counted_doError|by apply counted_doAbort]. }
    by apply counted_doError.
Qed.

Lemma counted_parse active raw parsed consumed s :
  counted active s → counted active (parseAndDispatch raw parsed consumed s).
Proof.
  intros Hs. unfold parseAndDispatch.
  destruct parsed as [message|]; [|by apply counted_doError].
  assert (Hd : counted active
                 (if intercepted consumed s
                  then hook hasOnInbound (HandlerOnInbound message) s
                  else dispatchMessage raw message
                         (hook hasOnInbound (HandlerOnInbound message) s))).
  { destruct (intercepted consumed s); [by apply counted_hook_late|].
    by apply counted_dispatch, counted_hook_late. }
  destruct message; try exact Hd. by apply counted_doError.
Qed.

Lemma counted_onmessage active data consumed s :
  counted active s → counted active (onmessage data consumed s).
Proof.
  intros Hs. unfold onmessage. destruct (aborted s) eqn:Hlive; [done|].
  destruct data as [text parsed|raw parsed]; apply counted_parse; [|done].
  by apply counted_doError.
Qed.

Lemma counted_onopen active s : counted active s → counted active (onopen s).
Proof.
  intros Hs. unfold onopen.
  set (s0 := match webSocket s with
             | Some ws => if (readyState ws =? 0)%nat
                          then withSocket (Some (mkSocket 1 (sent ws) (closeCode ws))) s
                          else s
             | None => s
             end).
  assert (H0 : counted active s0).
  { unfold s0. destruct (webSocket s) as [ws|]; [|done].
    destruct (readyState ws =? 0)%nat; [|done].
    by eapply counted_same; [..|exact Hs]. }
  destruct (aborted s0) eqn:Hlive; [done|].
  apply counted_send. by apply counted_hook.
Qed.

Lemma counted_onclose active s : counted active s → counted active (onclose s).
Proof.
  intros Hs. unfold onclose.
  set (s0 := match webSocket s with
             | Some ws => withSocket (Some (mkSocket 3 (sent ws) (closeCode ws))) s
             | None => s
             end).
  assert (H0 : counted active s0).
  { unfold s0. destruct (webSocket s) as [ws|]; [|done].
    by eapply counted_same; [..|exact Hs]. }
  destruct (aborted s0) eqn:Hlive; [done|].
  apply counted_doError. by apply counted_log.
Qed.

Lemma counted_onPayload active p s : counted active s → counted active (onPayload p s).
Proof.
  intros Hs. unfold onPayload. destruct (aborted s) eqn:Hlive; [done|].
  eapply counted_same; [..|exact Hs]; simpl; done.
Qed.

Lemma counted_handle active ev s : counted active s → counted active (handle ev s).
Proof.
  intros Hs. unfold handle.
  destruct ev as [p|error| |data consumed| | |reason];
    destruct (webSocket s) as [ws|]; try done.
  - by apply counted_onPayload.
  - by apply counted_doError.
  - destruct (readyState ws =? 0)%nat; [by apply counted_onopen|done].
  - destruct (_ || _); [by apply counted_onmessage|done].
  - destruct (readyState ws =? 3)%nat; [done|by apply counted_onclose].
  - by apply counted_doAbort.
  - by apply counted_doAbort.
  - destruct (timeoutHandler s); [by apply counted_doAbort|done].
  - destruct (timeoutHandler s); [by apply counted_doAbort|done].
Qed.

Lemma counted_start active logs req optionsOnOpen strategy :
  counted active (executeSubscription active logs req optionsOnOpen strategy).
Proof. unfold counted. simpl. split_and!; done. Qed.

Lemma counted_run active evs : ∀ s, counted active s → counted active (runEvents evs s).
Proof.
  induction evs as [|ev evs IH]; intros s Hs; [done|].
  simpl. by apply IH, counted_handle.
Qed.

(** ** The frames sent *)










Lemma closedSocket_sent reason ws : sent (closedSocket reason ws) = sent ws.
Proof.
  unfold closedSocket, close.
  destruct (readyState ws =? 3)%nat; [done|].
  by destruct (_ || _).
Qed.


















Lemma run_app evs evs' s : runEvents (evs ++ evs') s = runEvents evs' (runEvents evs s).
Proof. revert s. induction evs as [|ev evs IH]; intros s; simpl; [done|apply IH]. Qed.

(** ** After the abort *)

Lemma quiet_refl s : quiet s s.
Proof. done. Qed.

Lemma quiet_trans s1 s2 s3 : quiet s1 s2 → quiet s2 s3 → quiet s1 s3.
Proof.
  unfold quiet. intros (H1 & H2 & H3) (H4 & H5 & H6).
  by rewrite H4, H5, H6.
Qed.

Lemma doAbort_settled reason s :
  aborted s = true → connectionResolved s = true →
  doAbort reason s = withSocket (closedSocket reason <$> webSocket s) s.
Proof. intros Ha Hc. by rewrite doAbort_unfold, doAbort1_settled. Qed.

Lemma quiet_handle ev s :
  aborted s = true → connectionResolved s = true →
  aborted (handle ev s) = true ∧ connectionResolved (handle ev s) = true
  ∧ quiet s (handle ev s).
Proof.
  intros Ha Hc.
  assert (Hab : ∀ reason,
    aborted (doAbort reason s) = true ∧ connectionResolved (doAbort reason s) = true
    ∧ quiet s (doAbort reason s)).
  { intros reason. rewrite doAbort_settled by done.
    unfold quiet, withSocket. cbn [aborted connectionResolved trace
      activeSubscriptions webSocket].
    split_and!; try done.
    destruct (webSocket s) as [ws|]; simpl; [|done].
    by rewrite closedSocket_sent. }
  unfold handle.
  destruct ev as [p|error| |data consumed| | |reason];
    destruct (webSocket s) as [ws|] eqn:Hw; try done; try apply Hab.
  - unfold onPayload. by rewrite Ha.
  - unfold onPayloadFailed, doError. by rewrite Ha.
  - destruct (readyState ws =? 0)%nat eqn:Hr; [|done].
    unfold onopen. rewrite Hw, Hr. unfold quiet, withSocket.
    cbn [aborted connectionResolved trace activeSubscriptions webSocket].
    rewrite Ha. cbn [aborted connectionResolved trace activeSubscriptions webSocket].
    by rewrite Hw.
  - destruct (_ || _); [|done]. unfold onmessage. by rewrite Ha.
  - destruct (readyState ws =? 3)%nat; [done|].
    unfold onclose. rewrite Hw. unfold quiet, withSocket.
    cbn [aborted connectionResolved trace activeSubscriptions webSocket].
    rewrite Ha. cbn [aborted connectionResolved trace activeSubscriptions webSocket].
    by rewrite Hw.
  - destruct (timeoutHandler s); [apply Hab|done].
  - destruct (timeoutHandler s); [apply Hab|done].
Qed.

Lemma quiet_run evs : ∀ s,
  aborted s = true → connectionResolved s = true → quiet s (runEvents evs s).
Proof.
  induction evs as [|ev evs IH]; intros s Ha Hc; [done|].
  simpl. destruct (quiet_handle ev s Ha Hc) as (Ha' & Hc' & Hq).
  eapply quiet_trans; [exact Hq|by apply IH].
Qed.

(** A session that ended before its socket was created stays as it is. *)
Lemma settled_run evs : ∀ s,
  aborted s = true → connectionResolved s = true → webSocket s = None →
  runEvents evs s = s.
Proof.
  induction evs as [|ev evs IH]; intros s Ha Hc Hw; [done|].
  simpl. assert (Hev : handle ev s = s); [|by rewrite Hev; apply IH].
  assert (Hab : ∀ reason, doAbort reason s = s).
  { intros reason. rewrite doAbort_settled, Hw by done.
    unfold withSocket. cbn [fmap option_fmap option_map]. rewrite <- Hw.
    by destruct s. }
  unfold handle. rewrite Hw. destruct ev as [p|error| |data consumed| | |reason]; try done.
  - unfold onPayload. by rewrite Ha.
  - unfold onPayloadFailed, doError. by rewrite Ha.
  - apply Hab.
  - destruct (timeoutHandler s); [apply Hab|done].
Qed.

(** A [connection_ack] in data that is no string, while the state is
    [Opening]: the session is closed with [Error] first, and the handler
    goes on to call [onInbound] and [onAck] and to set the state; the
    [subscribe] is not sent. *)
Example ack_in_binary_data :
  let s := handle (SocketMessage (Binary (stringify ackFrame) (Some ackFrame)) false)
             (handle SocketOpen readySession) in
  trace s
  = [HandlerOnOpen; HandlerOnOutbound (ConnectionInit JUndef);
     OnData (protocolError "WebSocket data is not string");
     HandlerOnClose Error; OnClose Error; RejectConnection;
     HandlerOnInbound ackFrame; HandlerOnAck]
  ∧ state s = Connected
  ∧ sent <$> webSocket s = Some [ConnectionInit JUndef].
Proof. vm_compute. done. Qed.

(** X17: The counter of active subscriptions: whatever happens to a session, the
    counter stands one above what it was before [executeSubscription] while
    the session is not aborted, and where it was once it is. *)
Theorem active_subscriptions_counted (active : Z) (logs : bool) (req : string)
  (optionsOnOpen : bool) (strategy : option Handler) (evs : list Event) :
  getActiveSubscriptions (sessionAfter active logs req optionsOnOpen strategy evs)
  = active
    + (if aborted (sessionAfter active logs req optionsOnOpen strategy evs)
       then 0 else 1).
Proof.
  unfold sessionAfter.
  by destruct (counted_run active evs _
                 (counted_start active logs req optionsOnOpen strategy)) as (H & _).
Qed.

(** X18: The close callback: whatever happens to a session, the caller's
    [onClose] has been called exactly when the session is aborted, and it
    is called at most once.  Once it has been called the caller is not
    called again, neither [onData] nor [options.onOpen] nor the resolution
    of [connected], and no frame is announced to the timeout handler; what
    can still be called is the rejection of [connected] and, by the handler
    of a message that is no string, which goes on after it has closed the
    session, the hooks [onInbound] and [onAck] and the logger of connection
    errors. *)
Theorem close_callback_is_last (active : Z) (logs : bool) (req : string)
  (optionsOnOpen : bool) (strategy : option Handler) (evs : list Event) :
  tidy false (trace (sessionAfter active logs req optionsOnOpen strategy evs)) = true
  ∧ closed (trace (sessionAfter active logs req optionsOnOpen strategy evs))
    = aborted (sessionAfter active logs req optionsOnOpen strategy evs).
Proof.
  unfold sessionAfter.
  destruct (counted_run active evs _
              (counted_start active logs req optionsOnOpen strategy))
    as (_ & H1 & H2 & _).
  by split.
Qed.

(** X19: The promise [connected]: whatever happens to a session, the promise is
    settled at most once, and it is settled once the session is aborted. *)
Theorem connected_settles_once (active : Z) (logs : bool) (req : string)
  (optionsOnOpen : bool) (strategy : option Handler) (evs : list Event) :
  (settles (trace (sessionAfter active logs req optionsOnOpen strategy evs)) ≤ 1)%nat
  ∧ (aborted (sessionAfter active logs req optionsOnOpen strategy evs) = true →
     settles (trace (sessionAfter active logs req optionsOnOpen strategy evs)) = 1%nat).
Proof.
  unfold sessionAfter.
  destruct (counted_run active evs _
              (counted_start active logs req optionsOnOpen strategy))
    as (_ & _ & _ & H1 & H2).
  rewrite H1. split; [by destruct (connectionResolved _); lia|].
  intros Hab. by rewrite (H2 Hab).
Qed.


(** X21: Once a session is aborted, no later event makes it call anything, send
    anything or change the counter of active subscriptions. *)
Theorem aborted_session_is_silent (active : Z) (logs : bool) (req : string)
  (optionsOnOpen : bool) (strategy : option Handler) (evs later : list Event) :
  aborted (sessionAfter active logs req optionsOnOpen strategy evs) = true →
  quiet (sessionAfter active logs req optionsOnOpen strategy evs)
    (sessionAfter active logs req optionsOnOpen strategy (evs ++ later)).
Proof.
  unfold sessionAfter. intros Hab. rewrite run_app.
  apply quiet_run; [done|].
  destruct (counted_run active evs _
              (counted_start active logs req optionsOnOpen strategy))
    as (_ & _ & _ & _ & H).
  by apply H.
Qed.

Lemma aborted_session_is_silent_witness :
  aborted (sessionAfter 0 true "subscription { p }" true
             (Some (mkHandler true true true true true)) sampleRun) = true
  ∧ quiet
      (sessionAfter 0 true "subscription { p }" true
         (Some (mkHandler true true true true true)) sampleRun)
      (sessionAfter 0 true "subscription { p }" true
         (Some (mkHandler true true true true true))
         (sampleRun ++ [SocketMessage (textOf nextFrame) false; StrategyAbort Timeout])).
Proof.
  split; [vm_compute; reflexivity|].
  apply (aborted_session_is_silent 0 true "subscription { p }" true
           (Some (mkHandler true true true true true)) sampleRun).
  vm_compute. reflexivity.
Defined.

(** X22: When the connection payload cannot be generated, the caller gets one
    result with [networkError] and the thrown value, then [onClose(Error)],
    and [connected] is rejected; the counter is back where it was, and no
    socket is created, whatever happens later. *)
Theorem failed_payload_never_connects (active : Z) (logs : bool) (req : string)
  (optionsOnOpen : bool) (strategy : option Handler) (error : Http.thrown)
  (evs : list Event) :
  sessionAfter active logs req optionsOnOpen strategy (PayloadFailed error :: evs)
  = mkSession active logs req optionsOnOpen strategy true None true JUndef None
      Opening
      [OnData (Http.networkErrorResult (errorText error) (Http.ExtUnderlying error));
       OnClose Error; RejectConnection].
Proof.
  unfold sessionAfter. cbn [runEvents].
  assert (H : handle (PayloadFailed error)
                (executeSubscription active logs req optionsOnOpen strategy)
              = mkSession active logs req optionsOnOpen strategy true None true
                  JUndef None Opening
                  [OnData (Http.networkErrorResult (errorText error)
                             (Http.ExtUnderlying error));
                   OnClose Error; RejectConnection]).
  { lazy -[Z.add Z.sub Http.networkErrorResult]. f_equal. lia. }
  rewrite H. by apply settled_run.
Qed.

(** X23: An [abort()] before the connection payload is ready: the caller gets
    [onClose(Client)], [connected] is rejected, the counter is back where
    it was, and no socket is created, whatever happens later. *)
Theorem early_abort_never_connects (active : Z) (logs : bool) (req : string)
  (optionsOnOpen : bool) (strategy : option Handler) (evs : list Event) :
  sessionAfter active logs req optionsOnOpen strategy (Abort :: evs)
  = mkSession active logs req optionsOnOpen strategy true None true JUndef None
      Opening [OnClose Client; RejectConnection].
Proof.
  unfold sessionAfter. cbn [runEvents].
  assert (H : handle Abort (executeSubscription active logs req optionsOnOpen strategy)
              = mkSession active logs req optionsOnOpen strategy true None true
                  JUndef None Opening [OnClose Client; RejectConnection]).
  { lazy -[Z.add Z.sub]. f_equal. lia. }
  rewrite H. by apply settled_run.
Qed.



End SessionFacts.
